(** * IconPath: the path geometry engine of neptune-3d/icon-font

    A shallow embedding of [IconPath] (the builder, the coordinate
    transforms, the bounds calculator, the canonicalizer, the winding
    normalizer, the arc converter and the font-space projector), together
    with the properties its specification states about them and further
    properties read off the code.

    JavaScript numbers are IEEE-754 binary64 values.  The embedding is
    written once, over an interface of the arithmetic the source uses
    ([Arith], [JSNumber], [JSMath]), and is run at two instances:
    - [float], Rocq's primitive binary64 floats: the arithmetic the
      program really performs;
    - [Qc], the rationals: the same program under exact arithmetic, used
      where a property only holds when no rounding occurs, and to say of
      a binary64 result that it was not rounded. *)

From Stdlib Require Import ZArith List Bool Arith Lia.
From Stdlib Require Import String Ascii.
From Stdlib Require Import Floats.
From Stdlib Require Import QArith Qcanon.
From Stdlib Require Import Ring.
Import ListNotations.

Set Implicit Arguments.
Local Open Scope list_scope.

(** ** The arithmetic interface *)

(** The operators of the source on [number]: integer literals, [+], [-],
    [*], [/], unary minus, [<] and [===]. *)
Class Arith (num : Type) : Type := {
  lit : Z -> num;
  add : num -> num -> num;
  sub : num -> num -> num;
  mul : num -> num -> num;
  div : num -> num -> num;
  neg : num -> num;
  lt : num -> num -> bool;
  strict_eq : num -> num -> bool
}.

(** [a > b] is [b < a], also on NaN and on zeros of either sign. *)
Definition gt {num} `{Arith num} (a b : num) : bool := lt b a.

(** What a [number] has beyond a ring: [Infinity], [isNaN], [Math.min], and
    the number a decimal literal denotes: [ofDecimal s m e] is the number
    nearest to [(-1)^s * m * 10^e]. *)
Class JSNumber (num : Type) `{Arith num} : Type := {
  Infinity : num;
  isNaN : num -> bool;
  Math_min : num -> num -> num;
  ofDecimal : bool -> Z -> Z -> num
}.
Arguments JSNumber num {_}.

(** The transcendental part of [Math], whose results ECMAScript leaves to
    the implementation, and the number of rounds of [for (i = 0; i < n; i++)]
    for a [number] bound [n]. *)
Class JSMath (num : Type) `{Arith num} : Type := {
  Math_PI : num;
  Math_cos : num -> num;
  Math_sin : num -> num;
  Math_acos : num -> num;
  Math_tan : num -> num;
  Math_sqrt : num -> num;
  Math_abs : num -> num;
  Math_ceil : num -> num;
  Math_max : num -> num -> num;
  loop_rounds : num -> nat
}.
Arguments JSMath num {_}.

(** *** binary64 *)

Module Float64.

(** The double nearest to an integer (ties to even). *)
Definition of_Z (z : Z) : float :=
  SF2Prim (binary_normalize prec emax z 0 false).

(** The double nearest to [(-1)^s * m * 10^e] (ties to even): an integer
    is rounded, a proper fraction is divided out with its remainder. *)
Definition of_decimal (negative : bool) (mant : Z) (exp10 : Z) : float :=
  SF2Prim
    match mant with
    | Z0 => S754_zero negative
    | Zpos m =>
        if (0 <=? exp10)%Z then
          match (mant * 10 ^ exp10)%Z with
          | Zpos m' => binary_round prec emax negative m' 0
          | _ => S754_nan
          end
        else
          let '(mz, ez, lz) :=
            SFdiv_core_binary prec emax mant 0 (10 ^ (- exp10))%Z 0 in
          binary_round_aux prec emax negative mz ez lz
    | Zneg _ => S754_nan
    end.

(** [Math.min]: NaN when either argument is NaN, and [-0 < +0]. *)
Definition min (a b : float) : float :=
  if PrimFloat.is_nan a || PrimFloat.is_nan b then PrimFloat.nan
  else if PrimFloat.ltb a b then a
  else if PrimFloat.ltb b a then b
  else if PrimFloat.get_sign a then a else b.

End Float64.

#[export] Instance float_Arith : Arith float := {|
  lit := Float64.of_Z;
  add := PrimFloat.add;
  sub := PrimFloat.sub;
  mul := PrimFloat.mul;
  div := PrimFloat.div;
  neg := PrimFloat.opp;
  lt := PrimFloat.ltb;
  strict_eq := PrimFloat.eqb
|}.

#[export] Instance float_JSNumber : JSNumber float := {|
  Infinity := PrimFloat.infinity;
  isNaN := PrimFloat.is_nan;
  Math_min := Float64.min;
  ofDecimal := Float64.of_decimal
|}.

(** *** Exact rationals *)

#[export] Instance Qc_Arith : Arith Qc := {|
  lit := fun z => Q2Qc (inject_Z z);
  add := Qcplus;
  sub := Qcminus;
  mul := Qcmult;
  div := Qcdiv;
  neg := Qcopp;
  lt := fun a b => match (a ?= b)%Qc with Lt => true | _ => false end;
  strict_eq := fun a b => match (a ?= b)%Qc with Eq => true | _ => false end
|}.

(** Arithmetic without rounding: a commutative ring, ordered by [<], in
    which dividing commutes with negation. *)
Record ExactArith (num : Type) `{Arith num} : Prop := {
  exact_ring : ring_theory (lit 0) (lit 1) add mul sub neg (@eq num);
  exact_div_neg : forall a b, div (neg a) b = neg (div a b);
  exact_lt_asym : forall a b, lt a b = true -> lt b a = false;
  exact_lt_total : forall a b, lt a b = false -> lt b a = false -> a = b;
  exact_lt_add : forall a b c, lt (add a c) (add b c) = lt a b
}.
Arguments ExactArith num {_}.

(** ** The command model (types.ts) *)

Section Commands.

Context {num : Type}.

Record Point : Type := { px : num; py : num }.

Inductive IconPathCommand : Type :=
| MoveCommand (x y : num)
| LineCommand (x y : num)
| HCommand (x : num)
| VCommand (y : num)
| QuadCommand (x1 y1 x y : num)
| CubicCommand (x1 y1 x2 y2 x y : num)
| SmoothQuadCommand (x y : num)
| SmoothCubicCommand (x2 y2 x y : num)
| CloseCommand.

(** The [type] field of a command. *)
Inductive CommandType : Type :=
  TM | TL | TH | TV | TQ | TC | TT | TS | TZ.

Definition cmd_type (c : IconPathCommand) : CommandType :=
  match c with
  | MoveCommand _ _ => TM
  | LineCommand _ _ => TL
  | HCommand _ => TH
  | VCommand _ => TV
  | QuadCommand _ _ _ _ => TQ
  | CubicCommand _ _ _ _ _ _ => TC
  | SmoothQuadCommand _ _ => TT
  | SmoothCubicCommand _ _ _ _ => TS
  | CloseCommand => TZ
  end.

Definition isM (c : IconPathCommand) : bool :=
  match c with MoveCommand _ _ => true | _ => false end.

Definition isZ (c : IconPathCommand) : bool :=
  match c with CloseCommand => true | _ => false end.

(** [OpenTypeCommand]: the commands a font outline accepts. *)
Definition isOpenType (c : IconPathCommand) : bool :=
  match c with
  | MoveCommand _ _ | LineCommand _ _ | QuadCommand _ _ _ _
  | CubicCommand _ _ _ _ _ _ | CloseCommand => true
  | _ => false
  end.

(** The fields [x] and [y] of a command, when it has them. *)
Definition cmd_x (c : IconPathCommand) : option num :=
  match c with
  | MoveCommand x _ | LineCommand x _ | HCommand x | QuadCommand _ _ x _
  | CubicCommand _ _ _ _ x _ | SmoothQuadCommand x _
  | SmoothCubicCommand _ _ x _ => Some x
  | VCommand _ | CloseCommand => None
  end.

Definition cmd_y (c : IconPathCommand) : option num :=
  match c with
  | MoveCommand _ y | LineCommand _ y | VCommand y | QuadCommand _ _ _ y
  | CubicCommand _ _ _ _ _ y | SmoothQuadCommand _ y
  | SmoothCubicCommand _ _ _ y => Some y
  | HCommand _ | CloseCommand => None
  end.

(** An [IconPath]: the design extent and the ordered commands. *)
Record IconPath : Type := {
  width : num;
  height : num;
  commands : list IconPathCommand
}.

Definition with_commands (p : IconPath) (cs : list IconPathCommand) : IconPath :=
  {| width := width p; height := height p; commands := cs |}.

Definition push (c : IconPathCommand) (p : IconPath) : IconPath :=
  with_commands p (commands p ++ [c]).

Record IconPathBounds : Type := {
  minX : num; minY : num; maxX : num; maxY : num
}.

End Commands.

Arguments Point : clear implicits.
Arguments IconPathCommand : clear implicits.
Arguments IconPath : clear implicits.
Arguments IconPathBounds : clear implicits.

(** ** The path builder (IconPath.ts: m, l, q, c, h, v, t, s, close) *)

Section Builder.

Context {num : Type}.
Implicit Types p : IconPath num.

Definition m (x y : num) p := push (MoveCommand x y) p.
Definition l (x y : num) p := push (LineCommand x y) p.
Definition q (x1 y1 x y : num) p := push (QuadCommand x1 y1 x y) p.
Definition c (x1 y1 x2 y2 x y : num) p := push (CubicCommand x1 y1 x2 y2 x y) p.
Definition h (x : num) p := push (HCommand x) p.
Definition v (y : num) p := push (VCommand y) p.
Definition t (x y : num) p := push (SmoothQuadCommand x y) p.
Definition s (x2 y2 x y : num) p := push (SmoothCubicCommand x2 y2 x y) p.
Definition close p := push CloseCommand p.

(** [clone]: a copy with the same commands and design extent. *)
Definition clone p : IconPath num :=
  {| width := width p; height := height p;
     commands := map (fun cmd => cmd) (commands p) |}.

End Builder.

(** ** The geometry transform engine *)

Section Transforms.

Context {num : Type} `{Arith num}.
Implicit Types p : IconPath num.

(** The body of [_mapCoords]'s [map]: one command rewritten by [fn]. *)
Definition mapCommand (fn : num -> num -> Point num) (cmd : IconPathCommand num)
  : IconPathCommand num :=
  match cmd with
  | MoveCommand x y => let p := fn x y in MoveCommand (px p) (py p)
  | LineCommand x y => let p := fn x y in LineCommand (px p) (py p)
  | SmoothQuadCommand x y => let p := fn x y in SmoothQuadCommand (px p) (py p)
  | HCommand x => let p := fn x (lit 0) in HCommand (px p)
  | VCommand y => let p := fn (lit 0) y in VCommand (py p)
  | QuadCommand x1 y1 x y =>
      let c := fn x1 y1 in
      let p := fn x y in
      QuadCommand (px c) (py c) (px p) (py p)
  | CubicCommand x1 y1 x2 y2 x y =>
      let c1 := fn x1 y1 in
      let c2 := fn x2 y2 in
      let p := fn x y in
      CubicCommand (px c1) (py c1) (px c2) (py c2) (px p) (py p)
  | SmoothCubicCommand x2 y2 x y =>
      let c2 := fn x2 y2 in
      let p := fn x y in
      SmoothCubicCommand (px c2) (py c2) (px p) (py p)
  | CloseCommand => CloseCommand
  end.

Definition _mapCoords (fn : num -> num -> Point num) p : IconPath num :=
  with_commands p (map (mapCommand fn) (commands p)).

(** [scale(sx, sy, cx, cy)]; the defaults of [sy], [cx], [cy] are
    [scale_default]'s. *)
Definition scale (sx sy cx cy : num) p : IconPath num :=
  _mapCoords (fun x y =>
    let dx := sub x cx in
    let dy := sub y cy in
    {| px := add (mul dx sx) cx; py := add (mul dy sy) cy |}) p.

Definition scale_default (sx : num) p : IconPath num :=
  scale sx sx (div (width p) (lit 2)) (div (height p) (lit 2)) p.

Definition scale_xy (sx sy : num) p : IconPath num :=
  scale sx sy (div (width p) (lit 2)) (div (height p) (lit 2)) p.

Definition translate (dx dy : num) p : IconPath num :=
  _mapCoords (fun x y => {| px := add x dx; py := add y dy |}) p.

(** [rotate], given [Math.cos(angle)] and [Math.sin(angle)]. *)
Definition rotate_by (cos sin cx cy : num) p : IconPath num :=
  _mapCoords (fun x y =>
    let dx := sub x cx in
    let dy := sub y cy in
    let rx := sub (mul dx cos) (mul dy sin) in
    let ry := add (mul dx sin) (mul dy cos) in
    {| px := add rx cx; py := add ry cy |}) p.

Definition flipX (w : num) p : IconPath num :=
  _mapCoords (fun x y => {| px := sub w x; py := y |}) p.

Definition flipX_default p : IconPath num := flipX (width p) p.

Definition flipY (hgt : num) p : IconPath num :=
  _mapCoords (fun x y => {| px := x; py := sub hgt y |}) p.

Definition flipY_default p : IconPath num := flipY (height p) p.

End Transforms.

Section Rotation.

Context {num : Type} `{JSMath num}.

Definition rotate (angle cx cy : num) (p : IconPath num) : IconPath num :=
  let cos := Math_cos angle in
  let sin := Math_sin angle in
  rotate_by cos sin cx cy p.

Definition rotateDeg (angleDeg cx cy : num) (p : IconPath num) : IconPath num :=
  let angleRad := mul (div Math_PI (lit 180)) angleDeg in
  rotate angleRad cx cy p.

End Rotation.

(** ** The bounds calculator, [center] and [fit] *)

Section Bounds.

Context {num : Type} `{JSNumber num}.
Implicit Types p : IconPath num.

(** The [xs] and [ys] arrays [getCommandBounds] fills for one command,
    in the order of its [in] tests: [x], [x1], [x2] and [y], [y1], [y2]. *)
Definition cmd_xs (cmd : IconPathCommand num) : list num :=
  match cmd with
  | MoveCommand x _ | LineCommand x _ | SmoothQuadCommand x _ | HCommand x => [x]
  | VCommand _ | CloseCommand => []
  | QuadCommand x1 _ x _ => [x; x1]
  | CubicCommand x1 _ x2 _ x _ => [x; x1; x2]
  | SmoothCubicCommand x2 _ x _ => [x; x2]
  end.

Definition cmd_ys (cmd : IconPathCommand num) : list num :=
  match cmd with
  | MoveCommand _ y | LineCommand _ y | SmoothQuadCommand _ y | VCommand y => [y]
  | HCommand _ | CloseCommand => []
  | QuadCommand _ y1 _ y => [y; y1]
  | CubicCommand _ y1 _ y2 _ y => [y; y1; y2]
  | SmoothCubicCommand _ y2 _ y => [y; y2]
  end.

(** [if (x < min) min = x; if (x > max) max = x;] *)
Definition widen (mm : num * num) (x : num) : num * num :=
  let (mn, mx) := mm in
  let mn := if lt x mn then x else mn in
  let mx := if gt x mx then x else mx in
  (mn, mx).

Definition boundsStep (b : IconPathBounds num) (cmd : IconPathCommand num)
  : IconPathBounds num :=
  let (mnX, mxX) := fold_left widen (cmd_xs cmd) (minX b, maxX b) in
  let (mnY, mxY) := fold_left widen (cmd_ys cmd) (minY b, maxY b) in
  {| minX := mnX; minY := mnY; maxX := mxX; maxY := mxY |}.

Definition emptyBounds : IconPathBounds num :=
  {| minX := Infinity; minY := Infinity;
     maxX := neg Infinity; maxY := neg Infinity |}.

Definition getCommandBounds p : IconPathBounds num :=
  fold_left boundsStep (commands p) emptyBounds.

Definition getCanvasBounds p : IconPathBounds num :=
  {| minX := lit 0; minY := lit 0; maxX := width p; maxY := height p |}.

Definition getCommandsCenter p : Point num :=
  let bounds := getCommandBounds p in
  {| px := div (add (minX bounds) (maxX bounds)) (lit 2);
     py := div (add (minY bounds) (maxY bounds)) (lit 2) |}.

Definition getCanvasCenter p : Point num :=
  {| px := div (width p) (lit 2); py := div (height p) (lit 2) |}.

(** [center(minX, minY, maxX, maxY)]. *)
Definition center (tminX tminY tmaxX tmaxY : num) p : IconPath num :=
  let bounds := getCommandBounds p in
  let shapeWidth := sub (maxX bounds) (minX bounds) in
  let shapeHeight := sub (maxY bounds) (minY bounds) in
  let targetWidth := sub tmaxX tminX in
  let targetHeight := sub tmaxY tminY in
  let dx := sub (add tminX (div (sub targetWidth shapeWidth) (lit 2))) (minX bounds) in
  let dy := sub (add tminY (div (sub targetHeight shapeHeight) (lit 2))) (minY bounds) in
  translate dx dy p.

Definition center_default p : IconPath num :=
  center (lit 0) (lit 0) (width p) (height p) p.

(** [fit(preserveAspect)]. *)
Definition fit (preserveAspect : bool) p : IconPath num :=
  let p1 := center_default p in
  let cmdBounds := getCommandBounds p1 in
  let canvasBounds := getCanvasBounds p1 in
  let shapeWidth := sub (maxX cmdBounds) (minX cmdBounds) in
  let shapeHeight := sub (maxY cmdBounds) (minY cmdBounds) in
  let canvasWidth := sub (maxX canvasBounds) (minX canvasBounds) in
  let canvasHeight := sub (maxY canvasBounds) (minY canvasBounds) in
  if strict_eq shapeWidth (lit 0) || strict_eq shapeHeight (lit 0) then p1
  else
    let sx := div canvasWidth shapeWidth in
    let sy := div canvasHeight shapeHeight in
    if preserveAspect then
      let s := Math_min sx sy in
      scale_xy s s p1
    else scale_xy sx sy p1.

Definition fit_default p : IconPath num := fit true p.

End Bounds.

(** ** The canonicalizer ([getOpenTypeCommands]) *)

Section Canonicalizer.

Context {num : Type} `{Arith num}.

(** The loop variables: the pen and the last quadratic and cubic control
    points ([None] is [null]). *)
Record CanonState : Type := {
  cur_x : num;
  cur_y : num;
  lastQuadCtrlX : option num;
  lastQuadCtrlY : option num;
  lastCubicCtrlX : option num;
  lastCubicCtrlY : option num
}.

Definition canonInit : CanonState :=
  {| cur_x := lit 0; cur_y := lit 0;
     lastQuadCtrlX := None; lastQuadCtrlY := None;
     lastCubicCtrlX := None; lastCubicCtrlY := None |}.

(** [last !== null ? 2 * cur - last : cur] *)
Definition reflect (cur : num) (last : option num) : num :=
  match last with
  | Some ctrl => sub (mul (lit 2) cur) ctrl
  | None => cur
  end.

(** One round of the loop: the new state and the command pushed. *)
Definition canonStep (st : CanonState) (cmd : IconPathCommand num)
  : CanonState * IconPathCommand num :=
  let cx := cur_x st in
  let cy := cur_y st in
  match cmd with
  | MoveCommand x y =>
      ({| cur_x := x; cur_y := y;
          lastQuadCtrlX := None; lastQuadCtrlY := None;
          lastCubicCtrlX := None; lastCubicCtrlY := None |},
       MoveCommand x y)
  | LineCommand x y =>
      ({| cur_x := x; cur_y := y;
          lastQuadCtrlX := None; lastQuadCtrlY := None;
          lastCubicCtrlX := None; lastCubicCtrlY := None |},
       LineCommand x y)
  | HCommand x =>
      ({| cur_x := x; cur_y := cy;
          lastQuadCtrlX := None; lastQuadCtrlY := None;
          lastCubicCtrlX := None; lastCubicCtrlY := None |},
       LineCommand x cy)
  | VCommand y =>
      ({| cur_x := cx; cur_y := y;
          lastQuadCtrlX := None; lastQuadCtrlY := None;
          lastCubicCtrlX := None; lastCubicCtrlY := None |},
       LineCommand cx y)
  | QuadCommand x1 y1 x y =>
      ({| cur_x := x; cur_y := y;
          lastQuadCtrlX := Some x1; lastQuadCtrlY := Some y1;
          lastCubicCtrlX := None; lastCubicCtrlY := None |},
       QuadCommand x1 y1 x y)
  | SmoothQuadCommand x y =>
      let rx := reflect cx (lastQuadCtrlX st) in
      let ry := reflect cy (lastQuadCtrlY st) in
      ({| cur_x := x; cur_y := y;
          lastQuadCtrlX := Some rx; lastQuadCtrlY := Some ry;
          lastCubicCtrlX := None; lastCubicCtrlY := None |},
       QuadCommand rx ry x y)
  | CubicCommand x1 y1 x2 y2 x y =>
      ({| cur_x := x; cur_y := y;
          lastQuadCtrlX := None; lastQuadCtrlY := None;
          lastCubicCtrlX := Some x2; lastCubicCtrlY := Some y2 |},
       CubicCommand x1 y1 x2 y2 x y)
  | SmoothCubicCommand x2 y2 x y =>
      let rxC := reflect cx (lastCubicCtrlX st) in
      let ryC := reflect cy (lastCubicCtrlY st) in
      ({| cur_x := x; cur_y := y;
          lastQuadCtrlX := None; lastQuadCtrlY := None;
          lastCubicCtrlX := Some x2; lastCubicCtrlY := Some y2 |},
       CubicCommand rxC ryC x2 y2 x y)
  | CloseCommand =>
      ({| cur_x := cx; cur_y := cy;
          lastQuadCtrlX := None; lastQuadCtrlY := None;
          lastCubicCtrlX := None; lastCubicCtrlY := None |},
       CloseCommand)
  end.

Fixpoint canonLoop (st : CanonState) (cmds : list (IconPathCommand num))
  : list (IconPathCommand num) :=
  match cmds with
  | [] => []
  | cmd :: rest =>
      let (st', o) := canonStep st cmd in
      o :: canonLoop st' rest
  end.

(** The state the loop is in after the commands [cmds]. *)
Definition canonState (st : CanonState) (cmds : list (IconPathCommand num))
  : CanonState :=
  fold_left (fun st cmd => fst (canonStep st cmd)) cmds st.

Definition getOpenTypeCommands (p : IconPath num) : list (IconPathCommand num) :=
  canonLoop canonInit (commands p).

End Canonicalizer.

(** ** The winding normalizer *)

Section Winding.

Context {num : Type} `{Arith num}.

Local Abbreviation Cmd := (IconPathCommand num).

(** *** [splitSubpaths] *)

(** [current[current.length - 1]?.type !== "Z"] *)
Definition lastIsNotZ (current : list Cmd) : bool :=
  match last (map Some current) None with
  | Some CloseCommand => false
  | _ => true
  end.

(** One round of the loop over [(parts, current)]. *)
Definition splitStep (st : list (list Cmd) * list Cmd) (cmd : Cmd)
  : list (list Cmd) * list Cmd :=
  let (parts, current) := st in
  let (parts, current) :=
    if isM cmd && (0 <? List.length current)%nat && lastIsNotZ current
    then (parts ++ [current], [])
    else (parts, current) in
  let current := current ++ [cmd] in
  if isZ cmd then (parts ++ [current], []) else (parts, current).

Definition splitSubpaths (cmds : list Cmd) : list (list Cmd) :=
  let (parts, current) := fold_left splitStep cmds ([], []) in
  if (0 <? List.length current)%nat then parts ++ [current] else parts.

(** *** [getSignedAreaFontSpace] *)

(** The points [pts]: the endpoints of M, L, Q and C with Y flipped
    against the height. *)
Fixpoint areaPoints (hgt : num) (subp : list Cmd) : list (Point num) :=
  match subp with
  | [] => []
  | cmd :: rest =>
      match cmd with
      | MoveCommand x y | LineCommand x y | QuadCommand _ _ x y
      | CubicCommand _ _ _ _ x y =>
          {| px := x; py := sub hgt y |} :: areaPoints hgt rest
      | _ => areaPoints hgt rest
      end
  end.

(** [area += a.x * b.y - b.x * a.y] for [a = pts[i]], [b = pts[(i + 1) % n]]. *)
Definition shoelaceStep (pts : list (Point num)) (area : num) (i : nat) : num :=
  match nth_error pts i, nth_error pts ((i + 1) mod List.length pts) with
  | Some a, Some b => add area (sub (mul (px a) (py b)) (mul (px b) (py a)))
  | _, _ => area
  end.

Definition shoelace (pts : list (Point num)) : num :=
  fold_left (shoelaceStep pts) (seq 0 (List.length pts)) (lit 0).

Definition getSignedAreaFontSpace (hgt : num) (subp : list Cmd) : num :=
  div (shoelace (areaPoints hgt subp)) (lit 2).

End Winding.

Section Reversal.

Context {num : Type} `{Arith num}.

Local Abbreviation Cmd := (IconPathCommand num).

(** *** [reverseSubpath] *)

(** The first loop: [endpoints[i]], with the pen [(cx, cy)] it tracks. *)
Fixpoint endpointsLoop (cx cy : num) (subp : list Cmd) : list (option (Point num)) :=
  match subp with
  | [] => []
  | cmd :: rest =>
      match cmd with
      | MoveCommand x y | LineCommand x y | QuadCommand _ _ x y
      | CubicCommand _ _ _ _ x y =>
          Some {| px := x; py := y |} :: endpointsLoop x y rest
      | HCommand x => Some {| px := x; py := cy |} :: endpointsLoop x cy rest
      | VCommand y => Some {| px := cx; py := y |} :: endpointsLoop cx y rest
      | _ => None :: endpointsLoop cx cy rest
      end
  end.

(** [verts]: a vertex is pushed exactly where an endpoint is stored. *)
Fixpoint vertsOf (endpoints : list (option (Point num))) : list (Point num) :=
  match endpoints with
  | [] => []
  | Some ep :: rest => ep :: vertsOf rest
  | None :: rest => vertsOf rest
  end.

(** [for (j = i - 1; j >= 0; j--) if (endpoints[j]) return endpoints[j]] *)
Fixpoint scanBack (endpoints : list (option (Point num))) (i : nat)
  : option (Point num) :=
  match i with
  | O => None
  | S j =>
      match nth_error endpoints j with
      | Some (Some ep) => Some ep
      | _ => scanBack endpoints j
      end
  end.

Definition prevEndpoint (endpoints : list (option (Point num)))
  (first : Point num) (i : nat) : Point num :=
  match scanBack endpoints i with
  | Some ep => ep
  | None => first
  end.

(** [(out[out.length - 1] as any)?.f ?? dflt] *)
Definition lastField (f : Cmd -> option num) (out : list Cmd) (dflt : num) : num :=
  match last (map Some out) None with
  | Some cmd => match f cmd with Some a => a | None => dflt end
  | None => dflt
  end.

(** The command the backward loop pushes for [cmd], if any. *)
Definition reversedCommand (cmd : Cmd) (prev : Point num) (out : list Cmd)
  : list Cmd :=
  match cmd with
  | LineCommand _ _ => [LineCommand (px prev) (py prev)]
  | HCommand _ => [LineCommand (px prev) (lastField cmd_y out (py prev))]
  | VCommand _ => [LineCommand (lastField cmd_x out (px prev)) (py prev)]
  | QuadCommand x1 y1 _ _ => [QuadCommand x1 y1 (px prev) (py prev)]
  | CubicCommand x1 y1 x2 y2 _ _ =>
      [CubicCommand x2 y2 x1 y1 (px prev) (py prev)]
  | _ => []
  end.

(** The backward loop, about to treat the indices below [i]. *)
Fixpoint reverseLoop (subp : list Cmd) (endpoints : list (option (Point num)))
  (first : Point num) (i : nat) (out : list Cmd) : list Cmd :=
  match i with
  | O => out
  | S j =>
      let out' :=
        match nth_error subp j with
        | Some cmd =>
            out ++ reversedCommand cmd (prevEndpoint endpoints first j) out
        | None => out
        end in
      reverseLoop subp endpoints first j out'
  end.

Definition reverseSubpath (subp : list Cmd) : list Cmd :=
  let endpoints := endpointsLoop (lit 0) (lit 0) subp in
  let verts := vertsOf endpoints in
  match verts with
  | [] => subp
  | first :: _ =>
      let lastv := last verts first in
      reverseLoop subp endpoints first (List.length subp)
        [MoveCommand (px lastv) (py lastv)]
      ++ (if existsb isZ subp then [CloseCommand] else [])
  end.

(** *** [getNormalizedWindingForFont] *)

Definition isCW (hgt : num) (subp : list Cmd) : bool :=
  lt (getSignedAreaFontSpace hgt subp) (lit 0).

Definition shouldBeCW (outerShouldBeCW : bool) (idx : nat) : bool :=
  if outerShouldBeCW then (idx =? 0)%nat else false.

Definition needsReverse (hgt : num) (outerShouldBeCW : bool) (idx : nat)
  (subp : list Cmd) : bool :=
  if shouldBeCW outerShouldBeCW idx then negb (isCW hgt subp) else isCW hgt subp.

(** What the loop pushes for the subpath of index [idx]. *)
Definition normalizeSub (hgt : num) (outerShouldBeCW : bool) (idx : nat)
  (subp : list Cmd) : list Cmd :=
  if needsReverse hgt outerShouldBeCW idx subp then reverseSubpath subp else subp.

Fixpoint normalizeLoop (hgt : num) (outerShouldBeCW : bool) (idx : nat)
  (subpaths : list (list Cmd)) (normalized : list Cmd) : list Cmd :=
  match subpaths with
  | [] => normalized
  | subp :: rest =>
      normalizeLoop hgt outerShouldBeCW (S idx) rest
        (normalized ++ normalizeSub hgt outerShouldBeCW idx subp)
  end.

Definition getNormalizedWindingForFont (outerShouldBeCW : bool) (p : IconPath num)
  : list Cmd :=
  let subpaths := splitSubpaths (getOpenTypeCommands p) in
  normalizeLoop (height p) outerShouldBeCW 0 subpaths [].

End Reversal.

(** ** The arc converter ([arcToCubic], [a], [getCurrentPoint]) *)

Section Arc.

Context {num : Type} `{JSMath num}.

Local Abbreviation Cmd := (IconPathCommand num).

Definition unitAngle (ux uy vx vy : num) : num :=
  let sign := if lt (sub (mul ux vy) (mul uy vx)) (lit 0)
              then neg (lit 1) else lit 1 in
  let dot := add (mul ux vx) (mul uy vy) in
  let dot := if gt dot (lit 1) then lit 1 else dot in
  let dot := if lt dot (neg (lit 1)) then neg (lit 1) else dot in
  mul sign (Math_acos dot).

(** The segment loop: [rounds] rounds are left, [theta1] is the angle
    reached, [result] the segments pushed. *)
Fixpoint arcSegments (cx cy rx ry cosPhi sinPhi dTheta : num)
  (rounds : nat) (theta1 : num) (result : list Cmd) : list Cmd :=
  match rounds with
  | O => result
  | S rounds' =>
      let t1 := theta1 in
      let t2 := add t1 dTheta in
      let cosT1 := Math_cos t1 in
      let sinT1 := Math_sin t1 in
      let cosT2 := Math_cos t2 in
      let sinT2 := Math_sin t2 in
      let p2x := sub (add cx (mul rx (mul cosPhi cosT2))) (mul ry (mul sinPhi sinT2)) in
      let p2y := add (add cy (mul rx (mul sinPhi cosT2))) (mul ry (mul cosPhi sinT2)) in
      let p1x := sub (add cx (mul rx (mul cosPhi cosT1))) (mul ry (mul sinPhi sinT1)) in
      let p1y := add (add cy (mul rx (mul sinPhi cosT1))) (mul ry (mul cosPhi sinT1)) in
      let d1x := sub (mul (mul (neg rx) cosPhi) sinT1) (mul (mul ry sinPhi) cosT1) in
      let d1y := add (mul (mul (neg rx) sinPhi) sinT1) (mul (mul ry cosPhi) cosT1) in
      let d2x := sub (mul (mul (neg rx) cosPhi) sinT2) (mul (mul ry sinPhi) cosT2) in
      let d2y := add (mul (mul (neg rx) sinPhi) sinT2) (mul (mul ry cosPhi) cosT2) in
      let alpha := mul (div (lit 4) (lit 3)) (Math_tan (div (sub t2 t1) (lit 4))) in
      let c1x := add p1x (mul alpha d1x) in
      let c1y := add p1y (mul alpha d1y) in
      let c2x := sub p2x (mul alpha d2x) in
      let c2y := sub p2y (mul alpha d2y) in
      arcSegments cx cy rx ry cosPhi sinPhi dTheta rounds' t2
        (result ++ [CubicCommand c1x c1y c2x c2y p2x p2y])
  end.

Definition arcToCubic (x0 y0 rx ry xAxisRotation largeArcFlag sweepFlag x y : num)
  : list Cmd :=
  if strict_eq x0 x && strict_eq y0 y then []
  else if strict_eq rx (lit 0) || strict_eq ry (lit 0) then
    [CubicCommand x0 y0 x y x y]
  else
    let phi := mul (div Math_PI (lit 180)) xAxisRotation in
    let cosPhi := Math_cos phi in
    let sinPhi := Math_sin phi in
    let dx2 := div (sub x0 x) (lit 2) in
    let dy2 := div (sub y0 y) (lit 2) in
    let x1p := add (mul cosPhi dx2) (mul sinPhi dy2) in
    let y1p := add (mul (neg sinPhi) dx2) (mul cosPhi dy2) in
    let rx := Math_abs rx in
    let ry := Math_abs ry in
    let lambda := add (div (mul x1p x1p) (mul rx rx)) (div (mul y1p y1p) (mul ry ry)) in
    let scl := Math_sqrt lambda in
    let rx := if gt lambda (lit 1) then mul rx scl else rx in
    let ry := if gt lambda (lit 1) then mul ry scl else ry in
    let rxSq := mul rx rx in
    let rySq := mul ry ry in
    let x1pSq := mul x1p x1p in
    let y1pSq := mul y1p y1p in
    let radicant := sub (sub (mul rxSq rySq) (mul rxSq y1pSq)) (mul rySq x1pSq) in
    let radicant := if lt radicant (lit 0) then lit 0 else radicant in
    let radicant := div radicant (add (mul rxSq y1pSq) (mul rySq x1pSq)) in
    let radicant := mul (Math_sqrt radicant)
                      (if strict_eq largeArcFlag sweepFlag then neg (lit 1) else lit 1) in
    let cxp := div (mul (mul radicant rx) y1p) ry in
    let cyp := div (mul (mul radicant (neg ry)) x1p) rx in
    let cx := add (sub (mul cosPhi cxp) (mul sinPhi cyp)) (div (add x0 x) (lit 2)) in
    let cy := add (add (mul sinPhi cxp) (mul cosPhi cyp)) (div (add y0 y) (lit 2)) in
    let v1x := div (sub x1p cxp) rx in
    let v1y := div (sub y1p cyp) ry in
    let v2x := div (sub (neg x1p) cxp) rx in
    let v2y := div (sub (neg y1p) cyp) ry in
    let theta1 := unitAngle (lit 1) (lit 0) v1x v1y in
    let deltaTheta := unitAngle v1x v1y v2x v2y in
    let deltaTheta :=
      if strict_eq sweepFlag (lit 0) && gt deltaTheta (lit 0)
      then sub deltaTheta (mul Math_PI (lit 2)) else deltaTheta in
    let deltaTheta :=
      if strict_eq sweepFlag (lit 1) && lt deltaTheta (lit 0)
      then add deltaTheta (mul Math_PI (lit 2)) else deltaTheta in
    let segments :=
      Math_max (Math_ceil (div (Math_abs deltaTheta) (div Math_PI (lit 2)))) (lit 1) in
    let dTheta := div deltaTheta segments in
    arcSegments cx cy rx ry cosPhi sinPhi dTheta (loop_rounds segments) theta1 [].

(** [getCurrentPoint]: the pen [(x, y)] and the start of the subpath. *)
Definition currentPointStep (st : (num * num) * (num * num)) (cmd : Cmd)
  : (num * num) * (num * num) :=
  let '((x, y), (subpathStartX, subpathStartY)) := st in
  match cmd with
  | MoveCommand cx cy => ((cx, cy), (cx, cy))
  | LineCommand cx cy | SmoothQuadCommand cx cy | QuadCommand _ _ cx cy
  | CubicCommand _ _ _ _ cx cy | SmoothCubicCommand _ _ cx cy =>
      ((cx, cy), (subpathStartX, subpathStartY))
  | HCommand cx => ((cx, y), (subpathStartX, subpathStartY))
  | VCommand cy => ((x, cy), (subpathStartX, subpathStartY))
  | CloseCommand =>
      ((subpathStartX, subpathStartY), (subpathStartX, subpathStartY))
  end.

Definition getCurrentPoint (p : IconPath num) : Point num :=
  let '((x, y), _) :=
    fold_left currentPointStep (commands p)
      ((lit 0, lit 0), (lit 0, lit 0)) in
  {| px := x; py := y |}.

(** [a(rx, ry, xAxisRotation, largeArcFlag, sweepFlag, x, y)] *)
Definition a (rx ry xAxisRotation largeArcFlag sweepFlag x y : num)
  (p : IconPath num) : IconPath num :=
  let cp := getCurrentPoint p in
  let beziers :=
    arcToCubic (px cp) (py cp) rx ry xAxisRotation largeArcFlag sweepFlag x y in
  with_commands p (commands p ++ beziers).

End Arc.

(** ** Rectangles and corners ([rect], [corner]) *)

Section Shapes.

Context {num : Type} `{JSNumber num}.
Implicit Types p : IconPath num.

Inductive Corner : Type :=
| sharp
| rounded (rx ry : num)
| chamfer (rx ry : num).

Inductive Side : Type := tl | tr | br | bl.

Record Rect : Type := {
  rect_x : num;
  rect_y : num;
  rect_width : num;
  rect_height : num;
  rect_rx : option num;
  rect_ry : option num;
  corner_tl : option Corner;
  corner_tr : option Corner;
  corner_br : option Corner;
  corner_bl : option Corner
}.

Definition corner (side : Side) (x y : num) (cnr : Corner) p : IconPath num :=
  match cnr with
  | rounded rx ry =>
      match side with
      | tr => q x y x (add y ry) (l (sub x rx) y p)
      | br => q x y (sub x rx) y (l x (sub y ry) p)
      | bl => q x y x (sub y ry) (l (add x rx) y p)
      | tl => q x y (add x rx) y (l x (add y ry) p)
      end
  | chamfer rx ry =>
      match side with
      | tr => l x (add y ry) (l (sub x rx) y p)
      | br => l (sub x rx) y (l x (sub y ry) p)
      | bl => l x (sub y ry) (l (add x rx) y p)
      | tl => l (add x rx) y (l x (add y ry) p)
      end
  | sharp => l x y p
  end.

Definition roundedCorner (side : Side) (x y rx ry : num) p : IconPath num :=
  corner side x y (rounded rx ry) p.

Definition chamferCorner (side : Side) (x y rx ry : num) p : IconPath num :=
  corner side x y (chamfer rx ry) p.

Definition rect (config : Rect) p : IconPath num :=
  let x := rect_x config in
  let y := rect_y config in
  let w := rect_width config in
  let hgt := rect_height config in
  let rx := match rect_rx config with Some r => r | None => lit 0 end in
  let ry := match rect_ry config with Some r => r | None => rx end in
  let rx := Math_min rx (div w (lit 2)) in
  let ry := Math_min ry (div hgt (lit 2)) in
  let resolveCorner (cnr : option Corner) : Corner :=
    match cnr with
    | Some given => given
    | None => if strict_eq rx (lit 0) && strict_eq ry (lit 0)
              then sharp else rounded rx ry
    end in
  let ctl := resolveCorner (corner_tl config) in
  let ctr := resolveCorner (corner_tr config) in
  let cbr := resolveCorner (corner_br config) in
  let cbl := resolveCorner (corner_bl config) in
  let p :=
    match ctl with
    | rounded crx _ | chamfer crx _ => m (add x crx) y p
    | sharp => m x y p
    end in
  let p := corner tr (add x w) y ctr p in
  let p := corner br (add x w) (add y hgt) cbr p in
  let p := corner bl x (add y hgt) cbl p in
  let p := corner tl x y ctl p in
  close p.

(** A rectangle given by its four base fields only. *)
Definition plainRect (x y w hgt : num) : Rect :=
  {| rect_x := x; rect_y := y; rect_width := w; rect_height := hgt;
     rect_rx := None; rect_ry := None;
     corner_tl := None; corner_tr := None; corner_br := None; corner_bl := None |}.

(** [new IconPath(width, height)] *)
Definition newIconPath (w hgt : num) : IconPath num :=
  {| width := w; height := hgt; commands := [] |}.

End Shapes.

(** ** The font-space projector ([toOpenTypePath]) *)

(** The outline handed to the font assembler: the draw instructions
    [moveTo], [lineTo], [quadraticCurveTo], [curveTo] and [close], kept as
    the commands M, L, Q, C and Z in font units. *)

Section Projector.

Context {num : Type} `{JSNumber num}.
Implicit Types p : IconPath num.

Local Abbreviation Cmd := (IconPathCommand num).

(** One command projected by [fx] on X and [fy] on Y. *)
Definition projectCommand (fx fy : num -> num) (cmd : Cmd) : list Cmd :=
  match cmd with
  | MoveCommand x y => [MoveCommand (fx x) (fy y)]
  | LineCommand x y => [LineCommand (fx x) (fy y)]
  | QuadCommand x1 y1 x y => [QuadCommand (fx x1) (fy y1) (fx x) (fy y)]
  | CubicCommand x1 y1 x2 y2 x y =>
      [CubicCommand (fx x1) (fy y1) (fx x2) (fy y2) (fx x) (fy y)]
  | CloseCommand => [CloseCommand]
  | _ => []
  end.

(** The projector that maps design Y straight onto the em:
    [fontY = ascender - designY * factorY]. *)
Definition toOpenTypePath (ascender descender : num) p : list Cmd :=
  let metricsHeight := sub ascender descender in
  let factorX := div metricsHeight (width p) in
  let factorY := div metricsHeight (height p) in
  let cmds := getNormalizedWindingForFont true p in
  flat_map
    (projectCommand (fun x => mul x factorX)
                    (fun y => sub ascender (mul y factorY)))
    cmds.

(** The earlier projector, which anchors the bottom of the bounding box:
    [fontY = offsetY + (height - designY) * factorY] with
    [offsetY = ascender - bbox.maxY * factorY]. *)
Definition toOpenTypePath_anchored (ascender descender : num) p : list Cmd :=
  let metricsHeight := sub ascender descender in
  let factorX := div metricsHeight (width p) in
  let factorY := div metricsHeight (height p) in
  let cmds := getNormalizedWindingForFont true p in
  let bbox := getCommandBounds p in
  let offsetY := sub ascender (mul (maxY bbox) factorY) in
  flat_map
    (projectCommand (fun x => mul x factorX)
                    (fun y => add offsetY (mul (sub (height p) y) factorY)))
    cmds.

(** Modelled from the spec: the font-space bounding box of a projected
    outline.  The source asks the font library for it
    ([Path.getBoundingBox] of opentype.js), which is not part of the
    repository; for an outline of straight segments it is the smallest
    box that holds every point moved or drawn to.  An outline with a
    curve, or with no point, has none here. *)
Definition addPoint (box : option (IconPathBounds num)) (x y : num)
  : option (IconPathBounds num) :=
  match box with
  | None => Some {| minX := x; minY := y; maxX := x; maxY := y |}
  | Some b =>
      Some {| minX := if lt x (minX b) then x else minX b;
              minY := if lt y (minY b) then y else minY b;
              maxX := if gt x (maxX b) then x else maxX b;
              maxY := if gt y (maxY b) then y else maxY b |}
  end.

Fixpoint boundingBoxFrom (box : option (IconPathBounds num)) (outline : list Cmd)
  : option (IconPathBounds num) :=
  match outline with
  | [] => box
  | MoveCommand x y :: rest | LineCommand x y :: rest =>
      boundingBoxFrom (addPoint box x y) rest
  | CloseCommand :: rest => boundingBoxFrom box rest
  | _ :: _ => None
  end.

Definition getBoundingBox (outline : list Cmd) : option (IconPathBounds num) :=
  boundingBoxFrom None outline.

End Projector.

(** ** Textual coordinates ([ms], [ls], [qs], [cs], [ts], [ss], [as]) *)

(** The string primitives of the language the source calls, over ASCII
    text: [trim], [split], [replace], [parseFloat] and [parseInt]. *)

Module JSString.

(** A string is the sequence of its UTF-16 code units, each below 256
    and held in an [ascii].  Of these, the white space of [trim], of
    [\s] and of [parseFloat] is TAB, LF, VT, FF, CR, the space and the
    no-break space U+00A0; the other white space of JavaScript (U+1680,
    U+2000 to U+200A, U+2028, U+2029, U+202F, U+205F, U+3000, U+FEFF)
    lies above 255 and in no string here. *)
Definition isWhiteSpace (ch : ascii) : bool :=
  let n := nat_of_ascii ch in
  ((n =? 9) || (n =? 10) || (n =? 11) || (n =? 12) || (n =? 13) || (n =? 32)
   || (n =? 160))%nat.

Definition isDigit (ch : ascii) : bool :=
  let n := nat_of_ascii ch in ((48 <=? n) && (n <=? 57))%nat.

Definition digitValue (ch : ascii) : Z := Z.of_nat (nat_of_ascii ch - 48).

Definition isChar (code : nat) (ch : ascii) : bool := (nat_of_ascii ch =? code)%nat.

Fixpoint trimStart (cs : list ascii) : list ascii :=
  match cs with
  | ch :: rest => if isWhiteSpace ch then trimStart rest else cs
  | [] => []
  end.

Definition trimEnd (cs : list ascii) : list ascii := rev (trimStart (rev cs)).

(** [s.trim()] *)
Definition trim (cs : list ascii) : list ascii := trimEnd (trimStart cs).

(** [s.split(" ")]: cut at every single space. *)
Fixpoint splitAtSpaces (cur : list ascii) (cs : list ascii) : list (list ascii) :=
  match cs with
  | [] => [rev cur]
  | ch :: rest =>
      if isChar 32 ch then rev cur :: splitAtSpaces [] rest
      else splitAtSpaces (ch :: cur) rest
  end.

(** [s.replace(/,/g, " ")] *)
Definition replaceCommas (cs : list ascii) : list ascii :=
  map (fun ch => if isChar 44 ch then ascii_of_nat 32 else ch) cs.

(** [s.split(/\s+/)]: cut at every maximal run of white space. *)
Fixpoint splitAtRuns (cur : list ascii) (inRun : bool) (cs : list ascii)
  : list (list ascii) :=
  match cs with
  | [] => [rev cur]
  | ch :: rest =>
      if isWhiteSpace ch then
        if inRun then splitAtRuns [] true rest
        else rev cur :: splitAtRuns [] true rest
      else splitAtRuns (ch :: cur) false rest
  end.

(** The longest run of digits at the front, and what follows it. *)
Fixpoint spanDigits (cs : list ascii) : list ascii * list ascii :=
  match cs with
  | ch :: rest =>
      if isDigit ch then
        let (ds, tail) := spanDigits rest in (ch :: ds, tail)
      else ([], cs)
  | [] => ([], [])
  end.

Definition digitsValue (ds : list ascii) : Z :=
  fold_left (fun acc ch => (acc * 10 + digitValue ch)%Z) ds 0%Z.

(** An optional sign: whether it is [-], and what follows it. *)
Definition takeSign (cs : list ascii) : bool * list ascii :=
  match cs with
  | ch :: rest =>
      if isChar 45 ch then (true, rest)
      else if isChar 43 ch then (false, rest)
      else (false, cs)
  | [] => (false, [])
  end.

Fixpoint startsWith (pre cs : list ascii) : bool :=
  match pre, cs with
  | [], _ => true
  | a :: pre', b :: cs' => Ascii.eqb a b && startsWith pre' cs'
  | _ :: _, [] => false
  end.

(** What [parseFloat] reads: the longest prefix that is a decimal
    literal, as a sign and either [Infinity] or a mantissa and a decimal
    exponent. *)
Inductive StrDecimal : Type :=
| DecInfinity (negative : bool)
| DecFinite (negative : bool) (mantissa : Z) (exp10 : Z).

(** The exponent part [e], [e+] or [e-] followed by digits, when there
    is one at the front. *)
Definition exponentPart (cs : list ascii) : Z :=
  match cs with
  | ch :: rest =>
      if isChar 101 ch || isChar 69 ch then
        let (negative, rest') := takeSign rest in
        let (ds, _) := spanDigits rest' in
        match ds with
        | [] => 0%Z
        | _ => if negative then (- digitsValue ds)%Z else digitsValue ds
        end
      else 0%Z
  | [] => 0%Z
  end.

(** [parseFloat(s)]; [None] is NaN. *)
Definition parseFloat (cs : list ascii) : option StrDecimal :=
  let (negative, body) := takeSign (trimStart cs) in
  if startsWith (list_ascii_of_string "Infinity") body then
    Some (DecInfinity negative)
  else
    let (ints, afterInts) := spanDigits body in
    let (fracs, afterFrac) :=
      match afterInts with
      | ch :: rest =>
          if isChar 46 ch then
            let (fs, tail) := spanDigits rest in
            match ints, fs with
            | [], [] => ([], afterInts)
            | _, _ => (fs, tail)
            end
          else ([], afterInts)
      | [] => ([], [])
      end in
    match ints, fracs with
    | [], [] => None
    | _, _ =>
        Some (DecFinite negative (digitsValue (ints ++ fracs))
                (exponentPart afterFrac - Z.of_nat (List.length fracs)))
    end.

(** [parseInt(s, 10)]: a sign and the integer read; [None] is NaN. *)
Definition parseInt (cs : list ascii) : option (bool * Z) :=
  let (negative, body) := takeSign (trimStart cs) in
  let (ds, _) := spanDigits body in
  match ds with
  | [] => None
  | _ => Some (negative, digitsValue ds)
  end.

(** The double quote character. *)
Definition quote : string := String (ascii_of_nat 34) EmptyString.

End JSString.

Section Textual.

Context {num : Type} `{Arith num} {J : JSNumber num} {JM : JSMath num}.
Implicit Types p : IconPath num.

(** How a call on a path ends: it returns the path, or it throws an
    [Error] with a message and leaves the path as it finds it then. *)
Inductive Outcome : Type :=
| Returned (p : IconPath num)
| Threw (message : string) (p : IconPath num).

(** The number [parseFloat] returns for what it read. *)
Definition decimalValue (d : JSString.StrDecimal) : num :=
  match d with
  | JSString.DecInfinity negative => if negative then neg Infinity else Infinity
  | JSString.DecFinite negative mantissa exp10 => ofDecimal negative mantissa exp10
  end.

(** [parseFloat(part!)] for a part that may be [undefined]. *)
Definition parseFloatPart (part : option (list ascii)) : option num :=
  match part with
  | Some cs => option_map decimalValue (JSString.parseFloat cs)
  | None => None
  end.

(** [parseInt(part!, 10)] *)
Definition parseIntPart (part : option (list ascii)) : option num :=
  match part with
  | Some cs =>
      match JSString.parseInt cs with
      | Some (negative, z) => Some (if negative then neg (lit z) else lit z)
      | None => None
      end
  | None => None
  end.

(** [![0, 1].includes(flag)], NaN included. *)
Definition notAFlag (flag : option num) : bool :=
  match flag with
  | Some f => negb (strict_eq f (lit 0) || strict_eq f (lit 1))
  | None => true
  end.

Definition message (prefix coords : string) : string :=
  prefix ++ JSString.quote ++ coords ++ JSString.quote.

(** [coords.trim().split(" ")] *)
Definition spaceParts (coords : string) : list (list ascii) :=
  JSString.splitAtSpaces [] (JSString.trim (list_ascii_of_string coords)).

(** [coords.trim().replace(COMMA_REGEX, " ").split(SPACE_REGEX)] *)
Definition parts (coords : string) : list (list ascii) :=
  JSString.splitAtRuns [] false
    (JSString.replaceCommas (JSString.trim (list_ascii_of_string coords))).

Definition ms (coords : string) p : Outcome :=
  let ps := spaceParts coords in
  match parseFloatPart (nth_error ps 0), parseFloatPart (nth_error ps 1) with
  | Some x, Some y => Returned (m x y p)
  | _, _ => Threw (message "Invalid coordinates string: " coords) p
  end.

Definition ls (coords : string) p : Outcome :=
  let ps := spaceParts coords in
  match parseFloatPart (nth_error ps 0), parseFloatPart (nth_error ps 1) with
  | Some x, Some y => Returned (l x y p)
  | _, _ => Threw (message "Invalid coordinates string: " coords) p
  end.

Definition qs (coords : string) p : Outcome :=
  let ps := parts coords in
  if negb (List.length ps =? 4)%nat then
    Threw (message "Invalid coordinates string for Q: " coords) p
  else
    match parseFloatPart (nth_error ps 0), parseFloatPart (nth_error ps 1),
          parseFloatPart (nth_error ps 2), parseFloatPart (nth_error ps 3) with
    | Some x1, Some y1, Some x, Some y => Returned (q x1 y1 x y p)
    | _, _, _, _ => Threw (message "Invalid numeric values in Q string: " coords) p
    end.

Definition cs (coords : string) p : Outcome :=
  let ps := parts coords in
  if negb (List.length ps =? 6)%nat then
    Threw (message "Invalid coordinates string for C: " coords) p
  else
    match parseFloatPart (nth_error ps 0), parseFloatPart (nth_error ps 1),
          parseFloatPart (nth_error ps 2), parseFloatPart (nth_error ps 3),
          parseFloatPart (nth_error ps 4), parseFloatPart (nth_error ps 5) with
    | Some x1, Some y1, Some x2, Some y2, Some x, Some y =>
        Returned (c x1 y1 x2 y2 x y p)
    | _, _, _, _, _, _ =>
        Threw (message "Invalid numeric values in C string: " coords) p
    end.

Definition ts (coords : string) p : Outcome :=
  let ps := parts coords in
  if negb (List.length ps =? 2)%nat then
    Threw (message "Invalid coordinates string for T: " coords) p
  else
    match parseFloatPart (nth_error ps 0), parseFloatPart (nth_error ps 1) with
    | Some x, Some y => Returned (t x y p)
    | _, _ => Threw (message "Invalid numeric values in T string: " coords) p
    end.

Definition ss (coords : string) p : Outcome :=
  let ps := parts coords in
  if negb (List.length ps =? 4)%nat then
    Threw (message "Invalid coordinates string for S: " coords) p
  else
    match parseFloatPart (nth_error ps 0), parseFloatPart (nth_error ps 1),
          parseFloatPart (nth_error ps 2), parseFloatPart (nth_error ps 3) with
    | Some x2, Some y2, Some x, Some y => Returned (s x2 y2 x y p)
    | _, _, _, _ => Threw (message "Invalid numeric values in S string: " coords) p
    end.

(** [as(params)] *)
Definition as_ (params : string) p : Outcome :=
  let ps := parts params in
  if negb (List.length ps =? 7)%nat then
    Threw (message "Invalid parameter string for A: " params) p
  else
    let largeArcFlag := parseIntPart (nth_error ps 3) in
    let sweepFlag := parseIntPart (nth_error ps 4) in
    match parseFloatPart (nth_error ps 0), parseFloatPart (nth_error ps 1),
          parseFloatPart (nth_error ps 2),
          parseFloatPart (nth_error ps 5), parseFloatPart (nth_error ps 6),
          largeArcFlag, sweepFlag with
    | Some rx, Some ry, Some xAxisRotation, Some x, Some y, Some large, Some sweep =>
        if notAFlag largeArcFlag || notAFlag sweepFlag then
          Threw (message "Invalid numeric values in A string: " params) p
        else Returned (a rx ry xAxisRotation large sweep x y p)
    | _, _, _, _, _, _, _ =>
        Threw (message "Invalid numeric values in A string: " params) p
    end.

End Textual.

(** ** The transform operations as data *)

Section TransformOps.

Context {num : Type} `{Arith num} {J : JSNumber num} {JM : JSMath num}.

(** A call of one of the coordinate transforms, with its arguments. *)
Inductive Transform : Type :=
| Scale (sx sy cx cy : num)
| Translate (dx dy : num)
| Rotate (angle cx cy : num)
| FlipX (w : num)
| FlipY (hgt : num)
| Center (tminX tminY tmaxX tmaxY : num)
| Fit (preserveAspect : bool).

Definition applyTransform (op : Transform) (p : IconPath num) : IconPath num :=
  match op with
  | Scale sx sy cx cy => scale sx sy cx cy p
  | Translate dx dy => translate dx dy p
  | Rotate angle cx cy => rotate angle cx cy p
  | FlipX w => flipX w p
  | FlipY hgt => flipY hgt p
  | Center a b c d => center a b c d p
  | Fit preserveAspect => fit preserveAspect p
  end.

(** The [type] fields of a path's commands, in order. *)
Definition commandTypes (p : IconPath num) : list CommandType :=
  map cmd_type (commands p).

(** Whether the bounding box of the commands has zero width or zero
    height, as [fit] tests it. *)
Definition zeroExtent (p : IconPath num) : bool :=
  let b := getCommandBounds p in
  strict_eq (sub (maxX b) (minX b)) (lit 0)
  || strict_eq (sub (maxY b) (minY b)) (lit 0).

(** Every x-like and y-like field of a path. *)
Definition allXs (p : IconPath num) : list num := flat_map cmd_xs (commands p).
Definition allYs (p : IconPath num) : list num := flat_map cmd_ys (commands p).

End TransformOps.

(** ** What the canonicalizer is to compute, told from the history *)

(** The commands before the one at hand, latest first. *)

Section CanonicalForm.

Context {num : Type} `{Arith num}.

Local Abbreviation Cmd := (IconPathCommand num).

(** The current point: the [x] of the latest command that has one, and
    likewise [y]; the origin when there is none. *)
Fixpoint penX (history : list Cmd) : num :=
  match history with
  | [] => lit 0
  | cmd :: earlier =>
      match cmd_x cmd with Some x => x | None => penX earlier end
  end.

Fixpoint penY (history : list Cmd) : num :=
  match history with
  | [] => lit 0
  | cmd :: earlier =>
      match cmd_y cmd with Some y => y | None => penY earlier end
  end.

(** The reflection of [ctrl] through the point [cur], coordinate by
    coordinate; [cur] itself when there is no control point. *)
Definition reflectThrough (cur : num * num) (ctrl : option (num * num))
  : num * num :=
  match ctrl with
  | Some (qx, qy) =>
      (sub (mul (lit 2) (fst cur)) qx, sub (mul (lit 2) (snd cur)) qy)
  | None => cur
  end.

(** The last quadratic control point of the current run: that of a Q
    just before, or the reflected one of a T just before. *)
Fixpoint lastQuadControl (history : list Cmd) : option (num * num) :=
  match history with
  | QuadCommand x1 y1 _ _ :: _ => Some (x1, y1)
  | SmoothQuadCommand _ _ :: earlier =>
      Some (reflectThrough (penX earlier, penY earlier) (lastQuadControl earlier))
  | _ => None
  end.

(** The last cubic control point of the current run: the second control
    point of a C or an S just before. *)
Definition lastCubicControl (history : list Cmd) : option (num * num) :=
  match history with
  | CubicCommand _ _ x2 y2 _ _ :: _ => Some (x2, y2)
  | SmoothCubicCommand x2 y2 _ _ :: _ => Some (x2, y2)
  | _ => None
  end.

(** The canonical command a command stands for after [history]. *)
Definition canonicalOf (history : list Cmd) (cmd : Cmd) : Cmd :=
  match cmd with
  | MoveCommand x y => MoveCommand x y
  | LineCommand x y => LineCommand x y
  | HCommand x => LineCommand x (penY history)
  | VCommand y => LineCommand (penX history) y
  | QuadCommand x1 y1 x y => QuadCommand x1 y1 x y
  | SmoothQuadCommand x y =>
      let r := reflectThrough (penX history, penY history) (lastQuadControl history) in
      QuadCommand (fst r) (snd r) x y
  | CubicCommand x1 y1 x2 y2 x y => CubicCommand x1 y1 x2 y2 x y
  | SmoothCubicCommand x2 y2 x y =>
      let r := reflectThrough (penX history, penY history) (lastCubicControl history) in
      CubicCommand (fst r) (snd r) x2 y2 x y
  | CloseCommand => CloseCommand
  end.

(** The commands before index [i], latest first. *)
Definition historyAt (cmds : list Cmd) (i : nat) : list Cmd := rev (firstn i cmds).

(** The loop variables agree with the history. *)
Definition tracks (st : CanonState) (history : list Cmd) : Prop :=
  cur_x st = penX history
  /\ cur_y st = penY history
  /\ lastQuadCtrlX st = option_map fst (lastQuadControl history)
  /\ lastQuadCtrlY st = option_map snd (lastQuadControl history)
  /\ lastCubicCtrlX st = option_map fst (lastCubicControl history)
  /\ lastCubicCtrlY st = option_map snd (lastCubicControl history).

End CanonicalForm.

(** ** Subpaths, told apart from the loops that make them *)

Section Subpaths.

Context {num : Type} `{Arith num}.

Local Abbreviation Cmd := (IconPathCommand num).

(** A Move occurs at most as the first command. *)
Definition movesOnlyFirst (subp : list Cmd) : bool :=
  forallb (fun cmd => negb (isM cmd)) (List.tl subp).

(** A Close occurs at most as the last command. *)
Definition closesOnlyLast (subp : list Cmd) : bool :=
  forallb (fun cmd => negb (isZ cmd)) (removelast subp).

Definition startsWithM (subp : list Cmd) : bool :=
  match subp with cmd :: _ => isM cmd | [] => false end.

Definition endsWithZ (subp : list Cmd) : bool :=
  match last (map Some subp) None with Some cmd => isZ cmd | None => false end.

(** A subpath: a non-empty run with a Move at most in front and a Close
    at most at the end. *)
Definition isSubpath (subp : list Cmd) : bool :=
  negb (List.length subp =? 0)%nat && movesOnlyFirst subp && closesOnlyLast subp.

(** Consecutive subpaths of a command list: where one does not end with
    a Close, the next starts with a Move. *)
Fixpoint subpathsChain (subpaths : list (list Cmd)) : bool :=
  match subpaths with
  | a :: (b :: _) as rest => (endsWithZ a || startsWithM b) && subpathsChain rest
  | _ => true
  end.

(** The vertices of a canonical subpath in design space: the endpoints
    of its M, L, Q and C commands. *)
Fixpoint designPoints (subp : list Cmd) : list (Point num) :=
  match subp with
  | [] => []
  | cmd :: rest =>
      match cmd with
      | MoveCommand x y | LineCommand x y | QuadCommand _ _ x y
      | CubicCommand _ _ _ _ x y => {| px := x; py := y |} :: designPoints rest
      | _ => designPoints rest
      end
  end.

(** What the normalizer pushes, subpath by subpath, from index [idx] on. *)
Fixpoint normalizedParts (hgt : num) (outerShouldBeCW : bool) (idx : nat)
  (subpaths : list (list Cmd)) : list (list Cmd) :=
  match subpaths with
  | [] => []
  | subp :: rest =>
      normalizeSub hgt outerShouldBeCW idx subp
      :: normalizedParts hgt outerShouldBeCW (S idx) rest
  end.

(** The winding the policy requires of the subpath of index [idx]: the
    target winding for the first, the opposite one for every other. *)
Definition requiredCW (outerShouldBeCW : bool) (idx : nat) : bool :=
  if (idx =? 0)%nat then outerShouldBeCW else negb outerShouldBeCW.

(** The cross product of two points, and its sum along a polyline. *)
Definition cross (a b : Point num) : num :=
  sub (mul (px a) (py b)) (mul (px b) (py a)).

Fixpoint chain (pts : list (Point num)) : num :=
  match pts with
  | a :: (b :: _) as rest => add (cross a b) (chain rest)
  | _ => lit 0
  end.

(** Y flipped against the height. *)
Definition flipPoint (hgt : num) (pt : Point num) : Point num :=
  {| px := px pt; py := sub hgt (py pt) |}.

(** The state of the loop: the parts cut so far are subpaths that chain,
    and the part being filled has no Close, a Move at most in front, and
    chains with the parts before it. *)
Definition splitInv (st : list (list Cmd) * list Cmd) : Prop :=
  let (parts, current) := st in
  forallb isSubpath parts = true
  /\ subpathsChain parts = true
  /\ movesOnlyFirst current = true
  /\ forallb (fun cmd => negb (isZ cmd)) current = true
  /\ (parts = [] \/ endsWithZ (last parts []) = true \/ startsWithM current = true).

(** The parts cut and the part being filled, as one list of parts. *)
Definition pending (current : list Cmd) : list (list Cmd) :=
  match current with [] => [] | _ => [current] end.

Definition finishSplit (st : list (list Cmd) * list Cmd) : list (list Cmd) :=
  fst st ++ pending (snd st).

(** One round of the area loop on the polyline closed by hand: the
    points followed by the first one again. *)
Definition closedStep (closed : list (Point num)) (area : num) (i : nat) : num :=
  match nth_error closed i, nth_error closed (i + 1) with
  | Some p1, Some p2 => add area (cross p1 p2)
  | _, _ => area
  end.

End Subpaths.

(** ** The shape of a reversed subpath *)

Section ReversedShape.

Context {num : Type}.

(** A command that draws: L, Q or C. *)
Definition isDraw (cmd : IconPathCommand num) : bool :=
  match cmd with
  | LineCommand _ _ | QuadCommand _ _ _ _ | CubicCommand _ _ _ _ _ _ => true
  | _ => false
  end.

(** What follows the reversed vertices: nothing when the subpath starts
    with a Move; otherwise its first vertex once more, the target the
    reversed first command falls back to. *)
Definition closingVertex (subp : list (IconPathCommand num)) (first : Point num)
  : list (Point num) :=
  match subp with
  | MoveCommand _ _ :: _ => []
  | _ => [first]
  end.

(** The points the backward loop adds below index [i]: the vertices
    before the last one met, backwards, and the closing vertex. *)
Definition pointsBelow (subp : list (IconPathCommand num)) (first : Point num) (i : nat)
  : list (Point num) :=
  match rev (designPoints (firstn i subp)) with
  | [] => []
  | _ :: before => before ++ closingVertex subp first
  end.

End ReversedShape.

(** ** The textual operations as data, and what they reject *)

Section TextualOps.

Context {num : Type} `{Arith num} {J : JSNumber num} {JM : JSMath num}.

Inductive TextualOp : Type := OpMs | OpLs | OpQs | OpCs | OpTs | OpSs | OpAs.

Definition runTextual (op : TextualOp) (coords : string) (p : IconPath num)
  : Outcome :=
  match op with
  | OpMs => ms coords p
  | OpLs => ls coords p
  | OpQs => qs coords p
  | OpCs => cs coords p
  | OpTs => ts coords p
  | OpSs => ss coords p
  | OpAs => as_ coords p
  end.

(** A part [parseFloat] reads no number from; a missing part is one. *)
Definition noNumber (part : option (list ascii)) : bool :=
  match part with
  | Some chars =>
      match JSString.parseFloat chars with Some _ => false | None => true end
  | None => true
  end.

(** A part that is not the flag 0 or 1 when read by [parseInt]. *)
Definition noFlag (part : option (list ascii)) : bool :=
  notAFlag (parseIntPart part).

(** The trimmed input split on white space, as the documentation of
    [ms] and [ls] has it ("The string is trimmed, split on whitespace,
    and parsed into floats"). *)
Definition wsParts (coords : string) : list (list ascii) :=
  JSString.splitAtRuns [] false (JSString.trim (list_ascii_of_string coords)).

Definition samePart (a b : option (list ascii)) : bool :=
  match a, b with
  | Some x, Some y => String.eqb (string_of_list_ascii x) (string_of_list_ascii y)
  | None, None => true
  | _, _ => false
  end.

(** The inputs on which the split of [ms] and [ls] at single blanks
    gives the two parts that the documented split on white space
    gives. *)
Definition splitsAlike (coords : string) : bool :=
  samePart (nth_error (spaceParts coords) 0) (nth_error (wsParts coords) 0)
  && samePart (nth_error (spaceParts coords) 1) (nth_error (wsParts coords) 1).

Definition splitsAsDocumented (op : TextualOp) (coords : string) : bool :=
  match op with
  | OpMs | OpLs => splitsAlike coords
  | _ => true
  end.

(** The parts an operation is documented to split its input into. *)
Definition partsOf (op : TextualOp) (coords : string) : list (list ascii) :=
  match op with
  | OpMs | OpLs => wsParts coords
  | _ => parts coords
  end.

(** Whether the input is refused: the two-number forms [ms] and [ls]
    look at the first two parts only; the others want an exact number of
    parts, each starting with a number, and [as] two flags besides. *)
Definition rejects (op : TextualOp) (coords : string) : bool :=
  let ps := partsOf op coords in
  match op with
  | OpMs | OpLs => noNumber (nth_error ps 0) || noNumber (nth_error ps 1)
  | OpQs | OpSs =>
      negb (List.length ps =? 4)%nat || existsb (fun part => noNumber (Some part)) ps
  | OpCs =>
      negb (List.length ps =? 6)%nat || existsb (fun part => noNumber (Some part)) ps
  | OpTs =>
      negb (List.length ps =? 2)%nat || existsb (fun part => noNumber (Some part)) ps
  | OpAs =>
      negb (List.length ps =? 7)%nat
      || noNumber (nth_error ps 0) || noNumber (nth_error ps 1)
      || noNumber (nth_error ps 2)
      || noFlag (nth_error ps 3) || noFlag (nth_error ps 4)
      || noNumber (nth_error ps 5) || noNumber (nth_error ps 6)
  end.

(** The numbers an operation takes. *)
Definition arity (op : TextualOp) : nat :=
  match op with
  | OpMs | OpLs | OpTs => 2
  | OpQs | OpSs => 4
  | OpCs => 6
  | OpAs => 7
  end.

End TextualOps.

(** The tokens of an input as a reader counts them: the maximal runs of
    characters that are neither white space nor commas. *)
Definition tokens (coords : string) : list (list ascii) :=
  filter (fun part => negb (List.length part =? 0)%nat)
    (JSString.splitAtRuns [] false
       (JSString.replaceCommas (list_ascii_of_string coords))).

(** ** Sample paths *)

Module Samples.

Local Open Scope float_scope.

Definition path24 (cmds : list (IconPathCommand float)) : IconPath float :=
  {| width := 24; height := 24; commands := cmds |}.

(** A vertical stroke: zero width, height 10. *)
Definition stroke : IconPath float :=
  path24 [MoveCommand 0 0; LineCommand 0 10].

(** A single point at x = 1. *)
Definition dot : IconPath float := path24 [MoveCommand 1 0].

(** 2^53, beyond which consecutive integers are no longer doubles. *)
Definition two53 : float := 9007199254740992.

(** A single segment: a contour with no area. *)
Definition segment : IconPath float :=
  path24 [MoveCommand 0 0; LineCommand 1 0].

Definition segmentBack : IconPath float :=
  path24 [MoveCommand 1 0; LineCommand 0 0].

(** An outer square and a square hole, both drawn clockwise on screen. *)
Definition squareWithHole : IconPath float :=
  path24 [MoveCommand 0 0; LineCommand 24 0; LineCommand 24 24;
          LineCommand 0 24; CloseCommand;
          MoveCommand 6 6; LineCommand 18 6; LineCommand 18 18;
          LineCommand 6 18; CloseCommand].

(** A quadrilateral with one-decimal coordinates, as [parseFloat] reads
    them. *)
Definition tenths (n : Z) : float := Float64.of_decimal false n (-1).

Definition quadrilateral : list (IconPathCommand float) :=
  [MoveCommand (tenths 34) (tenths 145); LineCommand (tenths 216) (tenths 205);
   LineCommand (tenths 195) (tenths 16); LineCommand (tenths 65) 3;
   CloseCommand].

(** A triangle and a path of two triangles, over the rationals. *)
Definition triangleQ : list (IconPathCommand Qc) :=
  [MoveCommand (lit 0) (lit 0); LineCommand (lit 4) (lit 0);
   LineCommand (lit 0) (lit 3); CloseCommand].

Definition trianglesQ : IconPath Qc :=
  {| width := lit 24; height := lit 24;
     commands := triangleQ ++
       [MoveCommand (lit 1) (lit 1); LineCommand (lit 1) (lit 2);
        LineCommand (lit 2) (lit 1); CloseCommand] |}.

(** A quadrangle with a curved side; the coordinates are halves. *)
Definition quadrangle : list (IconPathCommand float) :=
  [MoveCommand 3.5 14.5; LineCommand 21.5 20.5; QuadCommand 30 7 19.5 1.5;
   LineCommand 6.5 3; CloseCommand].

(** An outer square drawn counter-clockwise in font space (Y up), and a
    square hole drawn clockwise. *)
Definition ring : IconPath float :=
  path24 [MoveCommand 0 0; LineCommand 0 24; LineCommand 24 24;
          LineCommand 24 0; CloseCommand;
          MoveCommand 6 6; LineCommand 18 6; LineCommand 18 18;
          LineCommand 6 18; CloseCommand].

(** A bow: a quadrangle that crosses itself, with one-decimal
    coordinates. *)
Definition bow : list (IconPathCommand float) :=
  [MoveCommand (tenths 15) (tenths 197); LineCommand (tenths 175) (tenths 65);
   LineCommand (tenths 132) (tenths 197); LineCommand (tenths 142) (tenths 65);
   CloseCommand].

End Samples.

(** ** Ellipses and circles ([ellipse], [circle]) *)

Section Ellipses.

Context {num : Type} `{JSNumber num}.
Implicit Types p : IconPath num.

(** [const kappa = 0.5522847498307936] *)
Definition kappa : num := ofDecimal false 5522847498307936 (-16).

Definition ellipse (cx cy rx ry : num) p : IconPath num :=
  let ox := mul rx kappa in
  let oy := mul ry kappa in
  let x0 := sub cx rx in
  let y0 := cy in
  let x1 := cx in
  let y1 := sub cy ry in
  let x2 := add cx rx in
  let y3 := add cy ry in
  let p := m x0 y0 p in
  let p := c x0 (sub y0 oy) (sub x1 ox) y1 x1 y1 p in
  let p := c (add x1 ox) y1 x2 (sub y0 oy) x2 y0 p in
  let p := c x2 (add y0 oy) (add x1 ox) y3 x1 y3 p in
  let p := c (sub x1 ox) y3 x0 (add y0 oy) x0 y0 p in
  close p.

Definition circle (cx cy r : num) p : IconPath num := ellipse cx cy r r p.

End Ellipses.

(** ** Vertical alignment to the font metrics ([alignToFont]) *)

Section Alignment.

Context {num : Type} `{JSNumber num}.
Implicit Types p : IconPath num.

(** The [mode] argument. *)
Inductive AlignMode : Type :=
  AlignBaseline | AlignAscender | AlignDescender | AlignCenter.

Definition alignToFont (ascender descender : num) (mode : AlignMode) p
  : IconPath num :=
  let designHeight := height p in
  let fontYToDesign (yFont : num) : num :=
    sub designHeight
      (mul (div (sub yFont descender) (sub ascender descender)) designHeight) in
  let ascenderDesign := fontYToDesign ascender in
  let descenderDesign := fontYToDesign descender in
  let baselineDesign := fontYToDesign (lit 0) in
  let emMidDesign := fontYToDesign (div (add ascender descender) (lit 2)) in
  let bounds := getCommandBounds p in
  let pathTop := minY bounds in
  let pathBottom := maxY bounds in
  let pathMid := div (add pathTop pathBottom) (lit 2) in
  let offsetY :=
    match mode with
    | AlignAscender => sub ascenderDesign pathTop
    | AlignDescender => sub descenderDesign pathBottom
    | AlignBaseline => sub baselineDesign pathBottom
    | AlignCenter => sub emMidDesign pathMid
    end in
  translate (lit 0) offsetY p.

End Alignment.

(** ** Composition of paths ([IconPath.merge]) *)

Section Merging.

Context {num : Type}.

(** [merged._commands.push(...p.commands)] for each path in turn. *)
Definition merge (paths : list (IconPath num)) (w hgt : num) : IconPath num :=
  fold_left
    (fun merged p => with_commands merged (commands merged ++ commands p))
    paths
    {| width := w; height := hgt; commands := [] |}.

(** The point of the latest Move of a command list; the origin when it
    has none. *)
Definition lastMove `{Arith num} (cmds : list (IconPathCommand num)) : Point num :=
  match find isM (rev cmds) with
  | Some (MoveCommand x y) => {| px := x; py := y |}
  | _ => {| px := lit 0; py := lit 0 |}
  end.

End Merging.

(** ** A subpath run backwards, told by recursion on the commands *)

Section ReversedRun.

Context {num : Type}.

Local Abbreviation Cmd := (IconPathCommand num).

(** The endpoint of an M, L, Q or C. *)
Definition endpointOf (cmd : Cmd) : option (Point num) :=
  match cmd with
  | MoveCommand x y | LineCommand x y | QuadCommand _ _ x y
  | CubicCommand _ _ _ _ x y => Some {| px := x; py := y |}
  | _ => None
  end.

(** The pen after the commands, started at [prev]. *)
Fixpoint endAfter (prev : Point num) (cmds : list Cmd) : Point num :=
  match cmds with
  | [] => prev
  | cmd :: rest =>
      endAfter (match endpointOf cmd with Some ep => ep | None => prev end) rest
  end.

(** The commands turned around, latest first, each drawn back to where
    the pen was before it. *)
Fixpoint reversedRun (prev : Point num) (cmds : list Cmd) : list Cmd :=
  match cmds with
  | [] => []
  | cmd :: rest =>
      reversedRun (match endpointOf cmd with Some ep => ep | None => prev end) rest
      ++ reversedCommand cmd prev []
  end.

End ReversedRun.

(** ** Points under a map that is affine on each axis *)

Section AffinePoints.

Context {num : Type} `{Arith num}.

(** [(x, y)] sent to [(ax * x + bx, ay * y + by)]. *)
Definition affinePoint (ax bx ay by_ : num) (pt : Point num) : Point num :=
  {| px := add (mul ax (px pt)) bx; py := add (mul ay (py pt)) by_ |}.

End AffinePoints.

(** ** Coordinates within a pair of bounds *)

Section Within.

Context {num : Type} `{Arith num}.

(** No [x] of the list is below the lower bound or above the upper one,
    as [<] tells it. *)
Definition within (mm : num * num) (xs : list num) : Prop :=
  Forall (fun x => lt x (fst mm) = false /\ lt (snd mm) x = false) xs.

End Within.

(** ** The exact value of a binary64 number *)

Module Binary64.

(** A finite binary64 number is a whole multiple of [2^-1074], the
    smallest positive one: [scaled] is that multiple; an infinity and
    NaN have none. *)
Definition scaled (f : spec_float) : option Z :=
  match f with
  | S754_zero _ => Some 0%Z
  | S754_finite s m e => Some (cond_Zopp s (Zpos m * 2 ^ (e + 1074)))%Z
  | S754_infinity _ | S754_nan => None
  end.

Definition quantum : positive := (2 ^ 1074)%positive.

Definition finiteSF (f : spec_float) : bool :=
  match f with
  | S754_zero _ | S754_finite _ _ _ => true
  | S754_infinity _ | S754_nan => false
  end.

(** What rounding a non-zero number gives: a finite number other than
    zero, or an infinity. *)
Definition isRounded (f : spec_float) : Prop :=
  match f with
  | S754_finite _ _ _ | S754_infinity _ => True
  | S754_zero _ | S754_nan => False
  end.

(** The rational a finite number stands for. *)
Definition valueOf (x : float) : option Qc :=
  option_map (fun z => Q2Qc (z # quantum)) (scaled (Prim2SF x)).

(** [Number.isFinite(x)] *)
Definition isFinite (x : float) : bool :=
  match valueOf x with Some _ => true | None => false end.

(** The value of a finite number; 0 stands in for the others. *)
Definition exactOf (x : float) : Qc :=
  match valueOf x with Some q => q | None => Q2Qc 0 end.

(** [x] is finite and stands for the rational [q]. *)
Definition isExactly (x : float) (q : Qc) : bool :=
  match valueOf x with Some v => Qeq_bool v q | None => false end.

Definition exactPoint (pt : Point float) : Point Qc :=
  {| px := exactOf (px pt); py := exactOf (py pt) |}.

(** A command with the exact values of its coordinates. *)
Definition exactCommand (cmd : IconPathCommand float) : IconPathCommand Qc :=
  match cmd with
  | MoveCommand x y => MoveCommand (exactOf x) (exactOf y)
  | LineCommand x y => LineCommand (exactOf x) (exactOf y)
  | HCommand x => HCommand (exactOf x)
  | VCommand y => VCommand (exactOf y)
  | QuadCommand x1 y1 x y =>
      QuadCommand (exactOf x1) (exactOf y1) (exactOf x) (exactOf y)
  | SmoothQuadCommand x y => SmoothQuadCommand (exactOf x) (exactOf y)
  | CubicCommand x1 y1 x2 y2 x y =>
      CubicCommand (exactOf x1) (exactOf y1) (exactOf x2) (exactOf y2)
        (exactOf x) (exactOf y)
  | SmoothCubicCommand x2 y2 x y =>
      SmoothCubicCommand (exactOf x2) (exactOf y2) (exactOf x) (exactOf y)
  | CloseCommand => CloseCommand
  end.

(** The area [getSignedAreaFontSpace] returns for the subpath is finite
    and is the area of the subpath without rounding: what the same
    function returns over the rationals for the same coordinates. *)
Definition areaIsExact (hgt : float) (subp : list (IconPathCommand float)) : bool :=
  isExactly (getSignedAreaFontSpace hgt subp)
    (getSignedAreaFontSpace (exactOf hgt) (map exactCommand subp)).

(** Neither the area of the subpath nor the area of its reversal is
    rounded. *)
Definition reversalIsExact (hgt : float) (subp : list (IconPathCommand float))
  : bool :=
  areaIsExact hgt subp && areaIsExact hgt (reverseSubpath subp).

(** The areas of the subpaths that the normalizer reverses, and of
    their reversals, are not rounded; [idx] is the index of the first
    subpath of the list. *)
Fixpoint reversalsExact (hgt : float) (outerShouldBeCW : bool) (idx : nat)
  (subpaths : list (list (IconPathCommand float))) : bool :=
  match subpaths with
  | [] => true
  | subp :: rest =>
      (if needsReverse hgt outerShouldBeCW idx subp
       then reversalIsExact hgt subp else true)
      && reversalsExact hgt outerShouldBeCW (S idx) rest
  end.

End Binary64.

Module Binary64Path.

(** Every coordinate of the path is a finite number. *)
Definition allFinite (p : IconPath float) : bool :=
  forallb Binary64.isFinite (allXs p ++ allYs p).

(** Some coordinate of the path is NaN. *)
Definition hasNaN (p : IconPath float) : bool :=
  existsb isNaN (allXs p ++ allYs p).

End Binary64Path.

(* ================================================================== *)
(** * Properties *)
(* ================================================================== *)

(** ** Transforms keep the shape of the command list *)

Section TransformFacts.

Context {num : Type} `{Arith num} {J : JSNumber num} {JM : JSMath num}.
Implicit Types p : IconPath num.

Lemma mapCommand_type (fn : num -> num -> Point num) (cmd : IconPathCommand num) :
  cmd_type (mapCommand fn cmd) = cmd_type cmd.
Proof. destruct cmd; reflexivity. Qed.

Lemma mapCoords_types fn p : commandTypes (_mapCoords fn p) = commandTypes p.
Proof.
  unfold commandTypes, _mapCoords; simpl.
  rewrite map_map. apply map_ext. intro cmd. apply mapCommand_type.
Qed.

Lemma translate_types dx dy p : commandTypes (translate dx dy p) = commandTypes p.
Proof. apply mapCoords_types. Qed.

Lemma scale_types sx sy cx cy p : commandTypes (scale sx sy cx cy p) = commandTypes p.
Proof. apply mapCoords_types. Qed.

Lemma center_types a b c' d p : commandTypes (center a b c' d p) = commandTypes p.
Proof. unfold center. apply translate_types. Qed.

Lemma fit_types preserveAspect p : commandTypes (fit preserveAspect p) = commandTypes p.
Proof.
  unfold fit.
  destruct (strict_eq _ _ || strict_eq _ _).
  - apply center_types.
  - destruct preserveAspect; unfold scale_xy;
      rewrite scale_types; apply center_types.
Qed.

Lemma applyTransform_types (op : Transform) p :
  commandTypes (applyTransform op p) = commandTypes p.
Proof.
  destruct op; simpl.
  - apply scale_types.
  - apply translate_types.
  - apply mapCoords_types.
  - apply mapCoords_types.
  - apply mapCoords_types.
  - apply center_types.
  - apply fit_types.
Qed.

(** C10: every coordinate transform (scale, translate, rotate, flipX,
    flipY, center, fit) rewrites the command list elementwise: the
    result has as many commands as the path had, and its i-th command
    has the type of the i-th original command, so an H stays an H, a V a
    V and a Z a Z. *)
Theorem transforms_rewrite_elementwise (op : Transform) p :
  List.length (commands (applyTransform op p)) = List.length (commands p)
  /\ forall i : nat,
       option_map cmd_type (nth_error (commands (applyTransform op p)) i)
       = option_map cmd_type (nth_error (commands p) i).
Proof.
  pose proof (applyTransform_types op p) as E. unfold commandTypes in E.
  split.
  - rewrite <- (length_map cmd_type), E. apply length_map.
  - intro i. rewrite <- !nth_error_map, E. reflexivity.
Qed.

(** *** [fit] on a degenerate box, and [translate] there and back *)

Lemma fit_when_zeroExtent preserveAspect p :
  zeroExtent (center_default p) = true ->
  fit preserveAspect p = center_default p.
Proof.
  unfold zeroExtent, fit. intro Hz. rewrite Hz. reflexivity.
Qed.

(** Translating a command there and back gives it back when each of its
    coordinates survives the round trip. *)
Lemma mapCommand_there_and_back (dx dy : num) (cmd : IconPathCommand num) :
  Forall (fun x => add (add x dx) (neg dx) = x) (cmd_xs cmd) ->
  Forall (fun y => add (add y dy) (neg dy) = y) (cmd_ys cmd) ->
  mapCommand (fun x y => {| px := add x (neg dx); py := add y (neg dy) |})
    (mapCommand (fun x y => {| px := add x dx; py := add y dy |}) cmd) = cmd.
Proof.
  intros Hx Hy.
  destruct cmd; simpl in *;
    repeat match goal with
           | Hf : Forall _ (_ :: _) |- _ => inversion Hf; subst; clear Hf
           | Hf : Forall _ [] |- _ => clear Hf
           end;
    congruence.
Qed.

Lemma translate_there_and_back (dx dy : num) p :
  Forall (fun x => add (add x dx) (neg dx) = x) (allXs p) ->
  Forall (fun y => add (add y dy) (neg dy) = y) (allYs p) ->
  translate (neg dx) (neg dy) (translate dx dy p) = p.
Proof.
  destruct p as [w hg cmds].
  unfold translate, _mapCoords, with_commands, allXs, allYs; simpl.
  intros Hx Hy. f_equal.
  induction cmds as [|cmd rest IH]; simpl in *; [reflexivity|].
  apply Forall_app in Hx. apply Forall_app in Hy.
  destruct Hx as [Hx1 Hx2], Hy as [Hy1 Hy2].
  rewrite (mapCommand_there_and_back dx dy cmd Hx1 Hy1).
  f_equal. apply IH; assumption.
Qed.

(** C8, as amended: [translate(dx, dy)] followed by [translate(-dx, -dy)]
    restores the path, and with it its bounding box, exactly, provided
    every coordinate of the path survives the round trip of the two
    additions ([(x + dx) + -dx = x], which holds when they do not
    round). *)
Theorem translate_back_restores_bounds (dx dy : num) p :
  Forall (fun x => add (add x dx) (neg dx) = x) (allXs p) ->
  Forall (fun y => add (add y dy) (neg dy) = y) (allYs p) ->
  getCommandBounds (translate (neg dx) (neg dy) (translate dx dy p))
  = getCommandBounds p.
Proof.
  intros Hx Hy. rewrite translate_there_and_back by assumption. reflexivity.
Qed.

End TransformFacts.

(** The stroke of zero width is moved by [fit]: from x = 0 to the middle of
    the canvas. *)
Example fit_moves_stroke :
  commands (fit true Samples.stroke)
  = [MoveCommand 12%float 7%float; LineCommand 12%float 17%float].
Proof. vm_compute. reflexivity. Qed.

(** C4, as stated, fails: the stroke [M 0 0 L 0 10] of a 24 by 24 path has
    a bounding box of zero width, and [fit()] turns it into
    [M 12 7 L 12 17]. *)
Lemma fit_zero_extent_not_unchanged :
  ~ (forall p : IconPath float,
       zeroExtent p = true -> commands (fit true p) = commands p).
Proof.
  intro Hc. specialize (Hc Samples.stroke (eq_refl _)).
  apply (f_equal (fun cmds =>
           match cmds with
           | MoveCommand x _ :: _ => PrimFloat.eqb x 0%float
           | _ => true
           end)) in Hc.
  vm_compute in Hc. discriminate.
Qed.

(** In binary64, [1 + 2^53] rounds to [2^53]: the point at x = 1 comes back
    at x = 0. *)
Example translate_back_loses_dot :
  commands (translate (- Samples.two53)%float (-0)%float
              (translate Samples.two53 0%float Samples.dot))
  = [MoveCommand 0%float 0%float].
Proof. vm_compute. reflexivity. Qed.

(** C8, as stated, fails: for the one-point path [M 1 0] and [dx = 2^53],
    [dy = 0], the bounds after translating there and back have
    [minX = 0], not 1. *)
Lemma translate_back_bounds_not_exact :
  ~ (forall (p : IconPath float) (dx dy : float),
       getCommandBounds (translate (neg dx) (neg dy) (translate dx dy p))
       = getCommandBounds p).
Proof.
  intro Hc. specialize (Hc Samples.dot Samples.two53 0%float).
  apply (f_equal (fun b => PrimFloat.eqb (minX b) 1%float)) in Hc.
  vm_compute in Hc. discriminate.
Qed.

Lemma translate_back_restores_bounds_witness :
  getCommandBounds
    (translate (neg 3%float) (neg 4%float)
       (translate 3%float 4%float Samples.stroke))
  = getCommandBounds Samples.stroke.
Proof.
  apply (@translate_back_restores_bounds float _ _ 3%float 4%float Samples.stroke);
    repeat constructor.
Defined.

(** ** The canonicalizer computes the canonical form *)

Section CanonicalizerFacts.

Context {num : Type} `{Arith num}.

Local Abbreviation Cmd := (IconPathCommand num).

Lemma tracks_init : tracks canonInit [].
Proof. repeat split. Qed.

Lemma reflect_fst cx cy ctrl :
  reflect cx (option_map fst ctrl) = fst (reflectThrough (cx, cy) ctrl).
Proof. destruct ctrl as [[qx qy]|]; reflexivity. Qed.

Lemma reflect_snd cx cy ctrl :
  reflect cy (option_map snd ctrl) = snd (reflectThrough (cx, cy) ctrl).
Proof. destruct ctrl as [[qx qy]|]; reflexivity. Qed.

Lemma canonStep_output st history cmd :
  tracks st history -> snd (canonStep st cmd) = canonicalOf history cmd.
Proof.
  intros (Hx & Hy & Hqx & Hqy & Hcx & Hcy).
  destruct cmd; simpl; try reflexivity.
  - now rewrite Hy.
  - now rewrite Hx.
  - rewrite Hx, Hy, Hqx, Hqy.
    rewrite (reflect_fst (penX history) (penY history)).
    rewrite (reflect_snd (penX history) (penY history)). reflexivity.
  - rewrite Hx, Hy, Hcx, Hcy.
    rewrite (reflect_fst (penX history) (penY history)).
    rewrite (reflect_snd (penX history) (penY history)). reflexivity.
Qed.

Lemma canonStep_tracks st history cmd :
  tracks st history -> tracks (fst (canonStep st cmd)) (cmd :: history).
Proof.
  intros (Hx & Hy & Hqx & Hqy & Hcx & Hcy).
  destruct cmd; simpl; repeat split; simpl; try assumption; try reflexivity.
  - rewrite Hx, Hqx. f_equal. apply (reflect_fst (penX history) (penY history)).
  - rewrite Hy, Hqy. f_equal. apply (reflect_snd (penX history) (penY history)).
Qed.

Lemma canonLoop_nth st history cmds i :
  tracks st history ->
  nth_error (canonLoop st cmds) i
  = option_map (canonicalOf (rev (firstn i cmds) ++ history)) (nth_error cmds i).
Proof.
  revert st history i.
  induction cmds as [|cmd rest IH]; intros st history i Ht.
  - destruct i; reflexivity.
  - simpl. destruct (canonStep st cmd) as [st' o] eqn:E.
    destruct i as [|i]; simpl.
    + f_equal. change o with (snd (st', o)). rewrite <- E.
      apply canonStep_output; assumption.
    + rewrite <- app_assoc. simpl. apply IH.
      change st' with (fst (st', o)). rewrite <- E.
      apply canonStep_tracks; assumption.
Qed.

Lemma canonLoop_length st cmds : List.length (canonLoop st cmds) = List.length cmds.
Proof.
  revert st. induction cmds as [|cmd rest IH]; intro st; simpl; [reflexivity|].
  destruct (canonStep st cmd). simpl. now rewrite IH.
Qed.

Lemma canonStep_isOpenType st cmd : isOpenType (snd (canonStep st cmd)) = true.
Proof. destruct cmd; reflexivity. Qed.

Lemma canonLoop_isOpenType st cmds : forallb isOpenType (canonLoop st cmds) = true.
Proof.
  revert st. induction cmds as [|cmd rest IH]; intro st; simpl; [reflexivity|].
  pose proof (canonStep_isOpenType st cmd) as Ho.
  destruct (canonStep st cmd) as [st' o]. simpl in *. now rewrite Ho, IH.
Qed.

(** Canonical commands are their own canonical form. *)
Lemma canonLoop_canonical st cmds :
  forallb isOpenType cmds = true -> canonLoop st cmds = cmds.
Proof.
  revert st. induction cmds as [|cmd rest IH]; intros st Hc; [reflexivity|].
  simpl in Hc. apply andb_true_iff in Hc. destruct Hc as [Hc1 Hc2].
  simpl. destruct cmd; simpl in *; try discriminate; now rewrite IH.
Qed.

(** The whole output, command by command. *)
Lemma getOpenTypeCommands_nth (p : IconPath num) (i : nat) :
  nth_error (getOpenTypeCommands p) i
  = option_map (canonicalOf (historyAt (commands p) i)) (nth_error (commands p) i).
Proof.
  unfold getOpenTypeCommands, historyAt.
  rewrite (canonLoop_nth (commands p) i tracks_init).
  now rewrite app_nil_r.
Qed.

(** X1: the output of [getOpenTypeCommands] holds only M, L, Q, C and Z
    commands, one per command of the path; a T becomes the Q whose
    control point is the reflection of the last quadratic control point
    through the pen, or the pen itself when the run has no quadratic
    control point; an S becomes the C whose first control point is the
    reflection of the last cubic control point, likewise.  The pen is
    the one the loop keeps: the endpoint of the latest command that has
    one, so a Close leaves it where it was. *)
Theorem getOpenTypeCommands_canonical (p : IconPath num) :
  forallb isOpenType (getOpenTypeCommands p) = true
  /\ List.length (getOpenTypeCommands p) = List.length (commands p)
  /\ (forall (i : nat) (x y : num),
        nth_error (commands p) i = Some (SmoothQuadCommand x y) ->
        let history := historyAt (commands p) i in
        let r := reflectThrough (penX history, penY history)
                   (lastQuadControl history) in
        nth_error (getOpenTypeCommands p) i = Some (QuadCommand (fst r) (snd r) x y))
  /\ (forall (i : nat) (x2 y2 x y : num),
        nth_error (commands p) i = Some (SmoothCubicCommand x2 y2 x y) ->
        let history := historyAt (commands p) i in
        let r := reflectThrough (penX history, penY history)
                   (lastCubicControl history) in
        nth_error (getOpenTypeCommands p) i
        = Some (CubicCommand (fst r) (snd r) x2 y2 x y)).
Proof.
  repeat split.
  - apply canonLoop_isOpenType.
  - apply canonLoop_length.
  - intros i x y Hi. simpl. rewrite getOpenTypeCommands_nth, Hi. reflexivity.
  - intros i x2 y2 x y Hi. simpl. rewrite getOpenTypeCommands_nth, Hi. reflexivity.
Qed.

End CanonicalizerFacts.

(** A run Q, T, T after a move and a lone T after a line, in binary64. *)
Example getOpenTypeCommands_smooth_run :
  getOpenTypeCommands
    (Samples.path24
       [MoveCommand 0 0; QuadCommand 1 2 4 0; SmoothQuadCommand 8 0;
        SmoothQuadCommand 12 0; LineCommand 12 5; SmoothQuadCommand 0 5;
        CubicCommand 1 1 2 3 4 4; SmoothCubicCommand 7 7 9 9;
        HCommand 3; VCommand 1; CloseCommand])%float
  = [MoveCommand 0 0; QuadCommand 1 2 4 0; QuadCommand 7 (-2) 8 0;
     QuadCommand 9 2 12 0; LineCommand 12 5; QuadCommand 12 5 0 5;
     CubicCommand 1 1 2 3 4 4; CubicCommand 6 5 7 7 9 9;
     LineCommand 3 9; LineCommand 3 1; CloseCommand]%float.
Proof. vm_compute. reflexivity. Qed.

(** ** [splitSubpaths] cuts a command list into subpaths *)

Section SplitFacts.

Context {num : Type} `{Arith num}.

Local Abbreviation Cmd := (IconPathCommand num).

Lemma last_Some_app (A : Type) (xs : list A) (x : A) :
  last (map Some (xs ++ [x])) None = Some x.
Proof. rewrite map_app. simpl. apply last_last. Qed.

Lemma endsWithZ_app (xs : list Cmd) (x : Cmd) : endsWithZ (xs ++ [x]) = isZ x.
Proof. unfold endsWithZ. now rewrite last_Some_app. Qed.

Lemma lastIsNotZ_endsWithZ (xs : list Cmd) : lastIsNotZ xs = negb (endsWithZ xs).
Proof.
  unfold lastIsNotZ, endsWithZ.
  destruct (last (map Some xs) None) as [[]|]; reflexivity.
Qed.

Lemma endsWithZ_noZ (xs : list Cmd) :
  forallb (fun cmd => negb (isZ cmd)) xs = true -> endsWithZ xs = false.
Proof.
  induction xs as [|x xs' _] using rev_ind; [reflexivity|].
  rewrite forallb_app, endsWithZ_app. simpl.
  intro Hf. apply andb_true_iff in Hf. destruct Hf as [_ Hf].
  destruct (isZ x); [discriminate | reflexivity].
Qed.

Lemma removelast_snoc (A : Type) (xs : list A) (x : A) : removelast (xs ++ [x]) = xs.
Proof. apply removelast_last. Qed.

Lemma tl_app_nonempty (A : Type) (xs ys : list A) :
  xs <> [] -> List.tl (xs ++ ys) = List.tl xs ++ ys.
Proof. destruct xs; [congruence | reflexivity]. Qed.

Lemma subpathsChain_snoc (parts : list (list Cmd)) (part : list Cmd) :
  subpathsChain parts = true ->
  (parts = [] \/ endsWithZ (last parts []) = true \/ startsWithM part = true) ->
  subpathsChain (parts ++ [part]) = true.
Proof.
  induction parts as [|a rest IH]; intros Hc Hl; [reflexivity|].
  destruct rest as [|b rest'].
  - simpl. destruct Hl as [Hl|[Hl|Hl]]; [discriminate| |];
      simpl in Hl; rewrite Hl; simpl; try reflexivity.
    now rewrite orb_true_r.
  - simpl in Hc. apply andb_true_iff in Hc. destruct Hc as [Hab Hc].
    change (subpathsChain ((a :: b :: rest') ++ [part]))
      with ((endsWithZ a || startsWithM b) && subpathsChain ((b :: rest') ++ [part])).
    rewrite Hab. simpl. apply IH; [assumption|].
    destruct Hl as [Hl|[Hl|Hl]]; [discriminate| |]; auto.
Qed.

Lemma isSubpath_current (current : list Cmd) :
  current <> [] ->
  movesOnlyFirst current = true ->
  forallb (fun cmd => negb (isZ cmd)) current = true ->
  isSubpath current = true.
Proof.
  intros Hne Hm Hz. unfold isSubpath. rewrite Hm.
  destruct current as [|x xs]; [congruence|]. simpl.
  unfold closesOnlyLast.
  assert (Hr : forall ys : list Cmd,
             forallb (fun cmd => negb (isZ cmd)) ys = true ->
             forallb (fun cmd => negb (isZ cmd)) (removelast ys) = true).
  { induction ys as [|y ys IHy]; [reflexivity|]. intro Hy.
    simpl in Hy. apply andb_true_iff in Hy. destruct Hy as [Hy1 Hy2].
    destruct ys as [|y' ys']; [reflexivity|].
    change (removelast (y :: y' :: ys')) with (y :: removelast (y' :: ys')).
    simpl forallb at 1. rewrite Hy1. simpl. now apply IHy. }
  now apply Hr.
Qed.

Lemma isSubpath_closed (current : list Cmd) (cmd : Cmd) :
  isM cmd = false ->
  movesOnlyFirst current = true ->
  forallb (fun cmd => negb (isZ cmd)) current = true ->
  isSubpath (current ++ [cmd]) = true.
Proof.
  intros HM Hm Hz. unfold isSubpath.
  rewrite length_app. simpl.
  replace (List.length current + 1 =? 0)%nat with false
    by (symmetry; apply Nat.eqb_neq; lia).
  unfold closesOnlyLast. rewrite removelast_snoc, Hz.
  unfold movesOnlyFirst in *.
  destruct current as [|c0 cur]; [reflexivity|].
  simpl in *. rewrite forallb_app, Hm. simpl. now rewrite HM.
Qed.

Lemma movesOnlyFirst_snoc (current : list Cmd) (cmd : Cmd) :
  current = [] \/ isM cmd = false ->
  movesOnlyFirst current = true ->
  movesOnlyFirst (current ++ [cmd]) = true.
Proof.
  unfold movesOnlyFirst. intros Hc Hm.
  destruct current as [|c0 cur]; [reflexivity|].
  destruct Hc as [Hc|Hc]; [discriminate|].
  simpl in *. rewrite forallb_app, Hm. simpl. now rewrite Hc.
Qed.

Lemma isM_not_isZ (cmd : Cmd) : isM cmd = true -> isZ cmd = false.
Proof. destruct cmd; simpl; congruence. Qed.

Lemma splitStep_inv (st : list (list Cmd) * list Cmd) (cmd : Cmd) :
  splitInv st -> splitInv (splitStep st cmd).
Proof.
  destruct st as [parts current].
  intros (Hp & Hc & Hm & Hz & Hl).
  unfold splitStep.
  rewrite lastIsNotZ_endsWithZ, (endsWithZ_noZ _ Hz). simpl negb.
  rewrite andb_true_r.
  destruct (isM cmd) eqn:EM.
  - (* a Move *)
    rewrite (isM_not_isZ _ EM). rewrite andb_true_l.
    destruct current as [|c0 cur].
    + simpl. unfold splitInv.
      repeat split; auto; simpl; rewrite ?(isM_not_isZ _ EM); auto.
    + simpl Nat.ltb. cbv iota. unfold splitInv. repeat split.
      * rewrite forallb_app, Hp. simpl. rewrite andb_true_r.
        apply isSubpath_current; [discriminate | assumption | assumption].
      * apply subpathsChain_snoc; assumption.
      * simpl. now rewrite (isM_not_isZ _ EM).
      * right. right. exact EM.
  - rewrite andb_false_l.
    destruct (isZ cmd) eqn:EZ.
    + (* a Close *)
      unfold splitInv. repeat split.
      * rewrite forallb_app, Hp. simpl. rewrite andb_true_r.
        apply isSubpath_closed; assumption.
      * apply subpathsChain_snoc; [assumption|].
        destruct Hl as [Hl|[Hl|Hl]]; auto.
        right. right. destruct current; [discriminate | exact Hl].
      * right. left. rewrite last_last. rewrite endsWithZ_app. exact EZ.
    + (* the part grows *)
      unfold splitInv. repeat split; try assumption.
      * apply movesOnlyFirst_snoc; auto.
      * rewrite forallb_app, Hz. simpl. now rewrite EZ.
      * destruct Hl as [Hl|[Hl|Hl]]; auto.
        right. right. destruct current; [discriminate | exact Hl].
Qed.

Lemma fold_splitStep_inv (cmds : list Cmd) (st : list (list Cmd) * list Cmd) :
  splitInv st -> splitInv (fold_left splitStep cmds st).
Proof.
  revert st. induction cmds as [|cmd rest IH]; intros st Hi; [exact Hi|].
  simpl. apply IH. now apply splitStep_inv.
Qed.

(** What [splitSubpaths] returns are subpaths that chain. *)
Lemma splitSubpaths_subpaths (cmds : list Cmd) :
  forallb isSubpath (splitSubpaths cmds) = true
  /\ subpathsChain (splitSubpaths cmds) = true.
Proof.
  unfold splitSubpaths.
  assert (Hi : splitInv (fold_left splitStep cmds ([], []))).
  { apply fold_splitStep_inv. unfold splitInv. repeat split; auto. }
  destruct (fold_left splitStep cmds ([], [])) as [parts current].
  destruct Hi as (Hp & Hc & Hm & Hz & Hl).
  destruct current as [|x xs]; simpl; [auto|].
  split.
  - rewrite forallb_app, Hp. simpl. rewrite andb_true_r.
    apply isSubpath_current; [discriminate | assumption | assumption].
  - apply subpathsChain_snoc; assumption.
Qed.


(** *** Cutting the concatenation of subpaths gives them back *)

Lemma endsWithZ_cons (cmd : Cmd) (rest : list Cmd) :
  endsWithZ (cmd :: rest) = match rest with [] => isZ cmd | _ => endsWithZ rest end.
Proof. destruct rest; reflexivity. Qed.

Lemma closesOnlyLast_cons (cmd : Cmd) (rest : list Cmd) :
  closesOnlyLast (cmd :: rest) = true ->
  rest <> [] -> isZ cmd = false /\ closesOnlyLast rest = true.
Proof.
  unfold closesOnlyLast. destruct rest as [|c1 rest']; [congruence|].
  intros Hc _. change (removelast (cmd :: c1 :: rest'))
    with (cmd :: removelast (c1 :: rest')) in Hc.
  simpl forallb in Hc. apply andb_true_iff in Hc. destruct Hc as [Hc1 Hc2].
  split; [|exact Hc2]. now destruct (isZ cmd).
Qed.

(** Filling the current part with commands that hold no Move. *)
Lemma fold_splitStep_grow (cmds : list Cmd) :
  forall (parts : list (list Cmd)) (current : list Cmd),
    forallb (fun cmd => negb (isM cmd)) cmds = true ->
    closesOnlyLast cmds = true ->
    forallb (fun cmd => negb (isZ cmd)) current = true ->
    fold_left splitStep cmds (parts, current)
    = if endsWithZ cmds then (parts ++ [current ++ cmds], [])
      else (parts, current ++ cmds).
Proof.
  induction cmds as [|cmd rest IH]; intros parts current HM HZ Hcur.
  - simpl. now rewrite app_nil_r.
  - simpl in HM. apply andb_true_iff in HM. destruct HM as [HM1 HM2].
    apply negb_true_iff in HM1.
    simpl fold_left. rewrite HM1. simpl andb. cbv iota.
    rewrite endsWithZ_cons.
    destruct rest as [|c1 rest'].
    + simpl. destruct (isZ cmd); reflexivity.
    + destruct (@closesOnlyLast_cons cmd (c1 :: rest') HZ) as [Hz1 Hz2];
        [discriminate|].
      rewrite Hz1. rewrite IH.
      * rewrite <- app_assoc. reflexivity.
      * exact HM2.
      * exact Hz2.
      * rewrite forallb_app, Hcur. simpl. now rewrite Hz1.
Qed.

Lemma splitSubpaths_finish (cmds : list Cmd) :
  splitSubpaths cmds = finishSplit (fold_left splitStep cmds ([], [])).
Proof.
  unfold splitSubpaths, finishSplit.
  destruct (fold_left splitStep cmds ([], [])) as [parts current].
  destruct current; simpl; [now rewrite app_nil_r | reflexivity].
Qed.

(** Running the loop over one subpath: a part that was being filled is
    cut in front of the subpath's Move. *)
Lemma fold_splitStep_subpath (subp : list Cmd) :
  forall (parts : list (list Cmd)) (current : list Cmd),
    isSubpath subp = true ->
    forallb (fun cmd => negb (isZ cmd)) current = true ->
    current = [] \/ startsWithM subp = true ->
    fold_left splitStep subp (parts, current)
    = if endsWithZ subp then ((parts ++ pending current) ++ [subp], [])
      else (parts ++ pending current, subp).
Proof.
  intros parts current Hs Hcur Hstart.
  unfold isSubpath in Hs.
  apply andb_true_iff in Hs. destruct Hs as [Hs HZ].
  apply andb_true_iff in Hs. destruct Hs as [Hne HM].
  destruct subp as [|cmd rest]; [discriminate|]. clear Hne.
  unfold movesOnlyFirst in HM. simpl in HM.
  simpl fold_left.
  rewrite lastIsNotZ_endsWithZ, (endsWithZ_noZ _ Hcur). simpl negb.
  rewrite andb_true_r, endsWithZ_cons.
  assert (Hflush :
    (if isM cmd && (0 <? List.length current)%nat
     then (parts ++ [current], []) else (parts, current))
    = (parts ++ pending current, @nil Cmd)
    \/ (current = [] /\ isM cmd = false)).
  { destruct current as [|c0 cur].
    - destruct (isM cmd); [left | right; auto].
      simpl. now rewrite app_nil_r.
    - destruct Hstart as [Hstart|Hstart]; [discriminate|].
      simpl in Hstart. rewrite Hstart. left. reflexivity. }
  assert (Hstep :
    (let (parts0, current0) :=
       if isM cmd && (0 <? List.length current)%nat
       then (parts ++ [current], []) else (parts, current) in
     if isZ cmd then (parts0 ++ [current0 ++ [cmd]], [])
     else (parts0, current0 ++ [cmd]))
    = if isZ cmd then ((parts ++ pending current) ++ [[cmd]], [])
      else (parts ++ pending current, [cmd])).
  { destruct Hflush as [Hf|[Hc Hm']].
    - rewrite Hf. reflexivity.
    - subst current. rewrite Hm'. simpl. now rewrite app_nil_r. }
  rewrite Hstep. clear Hstep Hflush.
  destruct rest as [|c1 rest'].
  - simpl. destruct (isZ cmd); reflexivity.
  - destruct (@closesOnlyLast_cons cmd (c1 :: rest') HZ) as [Hz1 Hz2];
      [discriminate|].
    rewrite Hz1. rewrite fold_splitStep_grow.
    + reflexivity.
    + exact HM.
    + exact Hz2.
    + simpl. now rewrite Hz1.
Qed.

Lemma noZ_of_open_subpath (subp : list Cmd) :
  closesOnlyLast subp = true -> endsWithZ subp = false ->
  forallb (fun cmd => negb (isZ cmd)) subp = true.
Proof.
  induction subp as [|cmd rest _] using rev_ind; [reflexivity|].
  unfold closesOnlyLast. rewrite removelast_snoc, endsWithZ_app, forallb_app.
  intros Hr Hz. rewrite Hr. simpl. now rewrite Hz.
Qed.

Lemma fold_splitStep_subpaths (subpaths : list (list Cmd)) :
  forall (parts : list (list Cmd)) (current : list Cmd),
    forallb isSubpath subpaths = true ->
    subpathsChain subpaths = true ->
    forallb (fun cmd => negb (isZ cmd)) current = true ->
    current = [] \/ startsWithM (List.hd [] subpaths) = true \/ subpaths = [] ->
    finishSplit (fold_left splitStep (List.concat subpaths) (parts, current))
    = (parts ++ pending current) ++ subpaths.
Proof.
  induction subpaths as [|subp rest IH]; intros parts current Hs Hc Hcur Hstart.
  - simpl. unfold finishSplit. simpl. now rewrite app_nil_r.
  - simpl in Hs. apply andb_true_iff in Hs. destruct Hs as [Hs1 Hs2].
    simpl List.concat. rewrite fold_left_app.
    rewrite (@fold_splitStep_subpath subp parts current Hs1 Hcur).
    2:{ destruct Hstart as [Hst|[Hst|Hst]]; [auto | auto | discriminate]. }
    assert (Hc2 : subpathsChain rest = true).
    { destruct rest; [reflexivity|]. simpl in Hc.
      apply andb_true_iff in Hc. apply Hc. }
    destruct (endsWithZ subp) eqn:EZ.
    + rewrite IH; auto. simpl. rewrite app_nil_r, <- app_assoc. reflexivity.
    + rewrite IH; auto.
      * unfold pending at 2. destruct subp as [|c0 cur]; [discriminate|].
        rewrite <- app_assoc. reflexivity.
      * apply noZ_of_open_subpath; [|exact EZ].
        unfold isSubpath in Hs1. apply andb_true_iff in Hs1. apply Hs1.
      * destruct rest as [|next rest']; [auto|].
        simpl in Hc. rewrite EZ in Hc. simpl in Hc.
        apply andb_true_iff in Hc. right. left. apply Hc.
Qed.

(** Cutting the concatenation of subpaths that chain gives them back. *)
Lemma splitSubpaths_concat (subpaths : list (list Cmd)) :
  forallb isSubpath subpaths = true ->
  subpathsChain subpaths = true ->
  splitSubpaths (List.concat subpaths) = subpaths.
Proof.
  intros Hs Hc. rewrite splitSubpaths_finish.
  rewrite fold_splitStep_subpaths; auto.
Qed.

(** The parts are the command list cut, nothing lost or added. *)
Lemma fold_splitStep_concat (cmds : list Cmd) :
  forall st : list (list Cmd) * list Cmd,
    List.concat (finishSplit (fold_left splitStep cmds st))
    = List.concat (finishSplit st) ++ cmds.
Proof.
  assert (Hp : forall (parts : list (list Cmd)) (current : list Cmd),
             List.concat (parts ++ pending current) = List.concat parts ++ current).
  { intros parts current. rewrite concat_app.
    destruct current; simpl; now rewrite ?app_nil_r. }
  induction cmds as [|cmd rest IH]; intro st.
  - simpl. now rewrite app_nil_r.
  - simpl fold_left. rewrite IH. destruct st as [parts current].
    replace (List.concat (finishSplit (splitStep (parts, current) cmd)))
      with (List.concat (finishSplit (parts, current)) ++ [cmd]).
    + rewrite <- app_assoc. reflexivity.
    + unfold splitStep, finishSplit. simpl fst. simpl snd.
      destruct (isM cmd && (0 <? List.length current)%nat && lastIsNotZ current);
        destruct (isZ cmd); simpl fst; simpl snd;
        rewrite ?Hp, ?concat_app; simpl; rewrite ?app_nil_r, ?concat_app;
        simpl; rewrite ?app_nil_r, <- ?app_assoc; reflexivity.
Qed.

Lemma splitSubpaths_concat_back (cmds : list Cmd) :
  List.concat (splitSubpaths cmds) = cmds.
Proof.
  rewrite splitSubpaths_finish, fold_splitStep_concat. reflexivity.
Qed.

(** The subpaths of canonical commands are canonical. *)
Lemma splitSubpaths_canonical (cmds : list Cmd) :
  forallb isOpenType cmds = true ->
  forallb (forallb isOpenType) (splitSubpaths cmds) = true.
Proof.
  intro Hc. rewrite <- (splitSubpaths_concat_back cmds) in Hc.
  induction (splitSubpaths cmds) as [|part rest IH]; [reflexivity|].
  simpl in *. rewrite forallb_app in Hc.
  apply andb_true_iff in Hc. destruct Hc as [Hc1 Hc2].
  rewrite Hc1. now apply IH.
Qed.

End SplitFacts.

(** ** [reverseSubpath] visits the vertices backwards *)

Section ReversalFacts.

Context {num : Type} `{Arith num}.

Local Abbreviation Cmd := (IconPathCommand num).

Lemma designPoints_app (xs ys : list Cmd) :
  designPoints (xs ++ ys) = designPoints xs ++ designPoints ys.
Proof.
  induction xs as [|cmd rest IH]; [reflexivity|].
  destruct cmd; simpl; now rewrite IH.
Qed.

Lemma vertsOf_app (xs ys : list (option (Point num))) :
  vertsOf (xs ++ ys) = vertsOf xs ++ vertsOf ys.
Proof.
  induction xs as [|[ep|] rest IH]; simpl; now rewrite ?IH.
Qed.

(** On canonical commands the endpoints do not depend on the pen. *)
Lemma vertsOf_endpointsLoop (subp : list Cmd) :
  forall cx cy : num,
    forallb isOpenType subp = true ->
    vertsOf (endpointsLoop cx cy subp) = designPoints subp.
Proof.
  induction subp as [|cmd rest IH]; intros cx cy Hc; [reflexivity|].
  simpl in Hc. apply andb_true_iff in Hc. destruct Hc as [Hc1 Hc2].
  destruct cmd; simpl in *; try discriminate; now rewrite IH.
Qed.

Lemma firstn_endpointsLoop (subp : list Cmd) :
  forall (i : nat) (cx cy : num),
    firstn i (endpointsLoop cx cy subp) = endpointsLoop cx cy (firstn i subp).
Proof.
  induction subp as [|cmd rest IH]; intros i cx cy.
  - now rewrite !firstn_nil.
  - destruct i as [|i]; [reflexivity|].
    destruct cmd; simpl; now rewrite IH.
Qed.

Lemma forallb_firstn (A : Type) (f : A -> bool) (xs : list A) (i : nat) :
  forallb f xs = true -> forallb f (firstn i xs) = true.
Proof.
  revert i. induction xs as [|x rest IH]; intros i Hf.
  - now rewrite firstn_nil.
  - destruct i as [|i]; [reflexivity|].
    simpl in *. apply andb_true_iff in Hf. destruct Hf as [Hf1 Hf2].
    now rewrite Hf1, IH.
Qed.

Lemma firstn_S_nth (A : Type) (xs : list A) (i : nat) :
  firstn (S i) xs
  = firstn i xs ++ match nth_error xs i with Some x => [x] | None => [] end.
Proof.
  revert i. induction xs as [|x rest IH]; intro i.
  - destruct i; reflexivity.
  - destruct i as [|i]; [reflexivity|].
    change (firstn (S (S i)) (x :: rest)) with (x :: firstn (S i) rest).
    rewrite IH. reflexivity.
Qed.

Lemma last_Some (A : Type) (xs : list A) (d : A) :
  last (map Some xs) None = match xs with [] => None | _ => Some (last xs d) end.
Proof.
  induction xs as [|x rest IH]; [reflexivity|].
  destruct rest as [|y rest']; [reflexivity|].
  change (last (map Some (x :: y :: rest')) None)
    with (last (map Some (y :: rest')) None).
  rewrite IH. reflexivity.
Qed.

(** The backward scan finds the last vertex stored below [i]. *)
Lemma scanBack_last (endpoints : list (option (Point num))) (i : nat) :
  scanBack endpoints i = last (map Some (vertsOf (firstn i endpoints))) None.
Proof.
  induction i as [|j IH]; [reflexivity|].
  simpl scanBack. rewrite firstn_S_nth, vertsOf_app.
  destruct (nth_error endpoints j) as [[ep|]|]; simpl vertsOf.
  - now rewrite last_Some_app.
  - now rewrite app_nil_r.
  - now rewrite app_nil_r.
Qed.

Lemma prevEndpoint_last (subp : list Cmd) (first : Point num) (i : nat) :
  forallb isOpenType subp = true ->
  prevEndpoint (endpointsLoop (lit 0) (lit 0) subp) first i
  = last (designPoints (firstn i subp)) first.
Proof.
  intro Hc. unfold prevEndpoint.
  rewrite scanBack_last, firstn_endpointsLoop, vertsOf_endpointsLoop
    by (now apply forallb_firstn).
  rewrite (last_Some _ first).
  destruct (designPoints (firstn i subp)); reflexivity.
Qed.

Lemma last_rev_hd (A : Type) (xs : list A) (d : A) : last xs d = List.hd d (rev xs).
Proof.
  induction xs as [|x rest _] using rev_ind; [reflexivity|].
  now rewrite last_last, rev_app_distr.
Qed.

Lemma nth_error_tl_not_M (subp : list Cmd) (j : nat) (cmd : Cmd) :
  movesOnlyFirst subp = true ->
  nth_error subp (S j) = Some cmd -> isM cmd = false.
Proof.
  unfold movesOnlyFirst. destruct subp as [|c0 rest]; [discriminate|].
  simpl. intros Hm Hn. apply nth_error_In in Hn.
  rewrite forallb_forall in Hm. apply Hm in Hn. now apply negb_true_iff.
Qed.

Lemma reversedCommand_points (cmd : Cmd) (prev : Point num) (out : list Cmd) :
  isOpenType cmd = true ->
  designPoints (reversedCommand cmd prev out)
  = if isDraw cmd then [prev] else [].
Proof. destruct cmd, prev; simpl; try discriminate; reflexivity. Qed.

Lemma designPoints_single (cmd : Cmd) :
  isOpenType cmd = true ->
  designPoints [cmd]
  = if isDraw cmd || isM cmd
    then match cmd_x cmd, cmd_y cmd with
         | Some x, Some y => [{| px := x; py := y |}]
         | _, _ => []
         end
    else [].
Proof. destruct cmd; simpl; try discriminate; reflexivity. Qed.

Lemma reverseLoop_points (subp : list Cmd) (first : Point num) :
  forallb isOpenType subp = true ->
  movesOnlyFirst subp = true ->
  forall (i : nat) (out : list Cmd),
    (i <= List.length subp)%nat ->
    designPoints (reverseLoop subp (endpointsLoop (lit 0) (lit 0) subp) first i out)
    = designPoints out ++ pointsBelow subp first i.
Proof.
  intros Hc Hm i. induction i as [|j IH]; intros out Hi.
  - simpl. unfold pointsBelow. simpl. now rewrite app_nil_r.
  - simpl reverseLoop.
    destruct (nth_error subp j) as [cmd|] eqn:En.
    2:{ apply nth_error_None in En. lia. }
    rewrite IH by lia. rewrite designPoints_app, <- app_assoc. f_equal.
    assert (Hco : isOpenType cmd = true).
    { rewrite forallb_forall in Hc. apply Hc. eapply nth_error_In; eauto. }
    rewrite (@reversedCommand_points cmd _ _ Hco), prevEndpoint_last by assumption.
    unfold pointsBelow.
    rewrite (firstn_S_nth subp j), En, designPoints_app, rev_app_distr.
    rewrite (last_rev_hd _ first).
    destruct cmd; simpl in Hco; try discriminate; simpl.
    + (* a Move: it is the first command *)
      destruct j as [|j'].
      * simpl. destruct subp as [|c0 rest]; [discriminate|].
        simpl in En. injection En as En. subst c0. reflexivity.
      * pose proof (@nth_error_tl_not_M subp j' _ Hm En) as Hn. discriminate.
    + destruct (rev (designPoints (firstn j subp))) as [|v before] eqn:Er; simpl.
      * destruct j as [|j'].
        -- destruct subp as [|c0 rest]; [discriminate|].
           simpl in En. injection En as En. subst c0. reflexivity.
        -- destruct subp as [|c0 rest]; [discriminate|].
           destruct c0; simpl in Er; try reflexivity;
             apply (f_equal (@List.length _)) in Er;
             rewrite ?length_app in Er; simpl in Er; lia.
      * reflexivity.
    + destruct (rev (designPoints (firstn j subp))) as [|v before] eqn:Er; simpl.
      * destruct j as [|j'].
        -- destruct subp as [|c0 rest]; [discriminate|].
           simpl in En. injection En as En. subst c0. reflexivity.
        -- destruct subp as [|c0 rest]; [discriminate|].
           destruct c0; simpl in Er; try reflexivity;
             apply (f_equal (@List.length _)) in Er;
             rewrite ?length_app in Er; simpl in Er; lia.
      * reflexivity.
    + destruct (rev (designPoints (firstn j subp))) as [|v before] eqn:Er; simpl.
      * destruct j as [|j'].
        -- destruct subp as [|c0 rest]; [discriminate|].
           simpl in En. injection En as En. subst c0. reflexivity.
        -- destruct subp as [|c0 rest]; [discriminate|].
           destruct c0; simpl in Er; try reflexivity;
             apply (f_equal (@List.length _)) in Er;
             rewrite ?length_app in Er; simpl in Er; lia.
      * reflexivity.
    + (* a Close *)
      reflexivity.
Qed.


(** What the backward loop pushes are drawing commands. *)
Lemma reversedCommand_draws (cmd : Cmd) (prev : Point num) (out : list Cmd) :
  forallb isDraw (reversedCommand cmd prev out) = true.
Proof. destruct cmd; reflexivity. Qed.

Lemma reverseLoop_draws (subp : list Cmd) (endpoints : list (option (Point num)))
  (first : Point num) :
  forall (i : nat) (out : list Cmd),
  exists draws : list Cmd,
    reverseLoop subp endpoints first i out = out ++ draws
    /\ forallb isDraw draws = true.
Proof.
  induction i as [|j IH]; intro out.
  - exists []. now rewrite app_nil_r.
  - simpl. destruct (nth_error subp j) as [cmd|].
    + destruct (IH (out ++ reversedCommand cmd (prevEndpoint endpoints first j) out))
        as (draws & Hd & Hf).
      exists (reversedCommand cmd (prevEndpoint endpoints first j) out ++ draws).
      rewrite Hd, <- app_assoc. split; [reflexivity|].
      now rewrite forallb_app, reversedCommand_draws, Hf.
    + apply IH.
Qed.

Lemma no_vertex_no_point (subp : list Cmd) :
  forall cx cy : num,
    vertsOf (endpointsLoop cx cy subp) = [] -> designPoints subp = [].
Proof.
  induction subp as [|cmd rest IH]; intros cx cy Ev; [reflexivity|].
  destruct cmd; simpl in *; try discriminate; eauto.
Qed.

(** The shape of a reversed subpath: it is the subpath itself when that
    has no vertex, else a Move, drawing commands, and a Close when the
    subpath had one. *)
Lemma reverseSubpath_shape (subp : list Cmd) :
  reverseSubpath subp = subp /\ designPoints subp = []
  \/ exists (x y : num) (draws : list Cmd),
       reverseSubpath subp
       = MoveCommand x y :: draws ++ (if existsb isZ subp then [CloseCommand] else [])
       /\ forallb isDraw draws = true.
Proof.
  unfold reverseSubpath.
  destruct (vertsOf (endpointsLoop (lit 0) (lit 0) subp)) as [|first verts] eqn:Ev.
  - left. split; [reflexivity|]. eapply no_vertex_no_point; eauto.
  - right.
    destruct (reverseLoop_draws subp (endpointsLoop (lit 0) (lit 0) subp) first
                (List.length subp)
                [MoveCommand (px (last (first :: verts) first))
                   (py (last (first :: verts) first))])
      as (draws & Hd & Hf).
    exists (px (last (first :: verts) first)), (py (last (first :: verts) first)), draws.
    rewrite Hd. split; [reflexivity | exact Hf].
Qed.

Lemma isDraw_isOpenType (draws : list Cmd) :
  forallb isDraw draws = true -> forallb isOpenType draws = true.
Proof.
  induction draws as [|cmd rest IH]; [reflexivity|].
  simpl. intro Hd. apply andb_true_iff in Hd. destruct Hd as [Hd1 Hd2].
  rewrite (IH Hd2), andb_true_r. now destruct cmd.
Qed.

Lemma isDraw_notM (draws : list Cmd) :
  forallb isDraw draws = true ->
  forallb (fun cmd => negb (isM cmd)) draws = true.
Proof.
  induction draws as [|cmd rest IH]; [reflexivity|].
  simpl. intro Hd. apply andb_true_iff in Hd. destruct Hd as [Hd1 Hd2].
  rewrite (IH Hd2), andb_true_r. now destruct cmd.
Qed.

Lemma isDraw_notZ (draws : list Cmd) :
  forallb isDraw draws = true ->
  forallb (fun cmd => negb (isZ cmd)) draws = true.
Proof.
  induction draws as [|cmd rest IH]; [reflexivity|].
  simpl. intro Hd. apply andb_true_iff in Hd. destruct Hd as [Hd1 Hd2].
  rewrite (IH Hd2), andb_true_r. now destruct cmd.
Qed.

Lemma existsb_isZ_endsWithZ (subp : list Cmd) :
  closesOnlyLast subp = true -> existsb isZ subp = endsWithZ subp.
Proof.
  induction subp as [|cmd rest _] using rev_ind; [reflexivity|].
  unfold closesOnlyLast. rewrite removelast_last, endsWithZ_app, existsb_app.
  intro Hr. simpl. rewrite orb_false_r.
  replace (existsb isZ rest) with false; [reflexivity|].
  symmetry. apply not_true_iff_false. intro He.
  apply existsb_exists in He. destruct He as (z & Hin & Hz).
  rewrite forallb_forall in Hr. apply Hr in Hin. now rewrite Hz in Hin.
Qed.

(** Reversing a subpath gives a subpath that is canonical, ends with a
    Close exactly when the subpath did, and starts with a Move whenever
    the subpath did. *)
Lemma reverseSubpath_isSubpath (subp : list Cmd) :
  isSubpath subp = true ->
  forallb isOpenType subp = true ->
  isSubpath (reverseSubpath subp) = true
  /\ forallb isOpenType (reverseSubpath subp) = true
  /\ endsWithZ (reverseSubpath subp) = endsWithZ subp
  /\ (startsWithM subp = true -> startsWithM (reverseSubpath subp) = true).
Proof.
  intros Hs Hc.
  destruct (reverseSubpath_shape subp) as [[Hr _]|(x & y & draws & Hr & Hd)].
  - rewrite Hr. auto.
  - rewrite Hr.
    assert (HZ : closesOnlyLast subp = true).
    { unfold isSubpath in Hs. apply andb_true_iff in Hs. apply Hs. }
    rewrite (existsb_isZ_endsWithZ _ HZ).
    destruct (endsWithZ subp) eqn:EZ.
    + repeat split.
      * unfold isSubpath. simpl List.length. simpl negb. rewrite andb_true_l.
        apply andb_true_iff. split.
        -- unfold movesOnlyFirst. simpl List.tl.
           rewrite forallb_app, (isDraw_notM _ Hd). reflexivity.
        -- unfold closesOnlyLast.
           change (MoveCommand x y :: draws ++ [CloseCommand])
             with ((MoveCommand x y :: draws) ++ [CloseCommand]).
           rewrite removelast_last. simpl. apply (isDraw_notZ _ Hd).
      * simpl. rewrite forallb_app, (isDraw_isOpenType _ Hd). reflexivity.
      * change (MoveCommand x y :: draws ++ [CloseCommand])
          with ((MoveCommand x y :: draws) ++ [CloseCommand]).
        apply endsWithZ_app.
    + rewrite app_nil_r. repeat split.
      * apply isSubpath_current; [discriminate| |].
        -- unfold movesOnlyFirst. simpl. apply (isDraw_notM _ Hd).
        -- simpl. apply (isDraw_notZ _ Hd).
      * simpl. apply (isDraw_isOpenType _ Hd).
      * apply endsWithZ_noZ. simpl. apply (isDraw_notZ _ Hd).
Qed.

(** The vertices of a reversed subpath: the subpath's vertices backwards,
    then the closing vertex. *)
Lemma reverseSubpath_points (subp : list Cmd) :
  forallb isOpenType subp = true ->
  movesOnlyFirst subp = true ->
  designPoints (reverseSubpath subp)
  = match designPoints subp with
    | [] => []
    | first :: _ => rev (designPoints subp) ++ closingVertex subp first
    end.
Proof.
  intros Hc Hm. unfold reverseSubpath.
  rewrite vertsOf_endpointsLoop by assumption.
  destruct (designPoints subp) as [|first verts] eqn:Ev; [exact Ev|].
  rewrite designPoints_app.
  rewrite reverseLoop_points by (try assumption; lia).
  replace (designPoints (if existsb isZ subp then [CloseCommand] else []))
    with (@nil (Point num)) by (now destruct (existsb isZ subp)).
  rewrite app_nil_r. unfold pointsBelow. rewrite firstn_all, Ev.
  rewrite (last_rev_hd (first :: verts) first).
  destruct (rev (first :: verts)) as [|v before] eqn:Er.
  - apply (f_equal (@List.length _)) in Er. rewrite length_rev in Er. discriminate.
  - simpl. now destruct v.
Qed.

End ReversalFacts.

(** ** The shoelace sum, without rounding *)

Section ExactArea.

Context {num : Type} `{Arith num}.
Hypothesis exact : ExactArith num.

Local Abbreviation Cmd := (IconPathCommand num).

Add Ring num_ring : (exact_ring exact).

Lemma cross_antisym (a b : Point num) : cross b a = neg (cross a b).
Proof. unfold cross. ring. Qed.

Lemma cross_self (a : Point num) : cross a a = lit 0.
Proof. unfold cross. ring. Qed.

Lemma chain_cons (a : Point num) (rest : list (Point num)) :
  chain (a :: rest) = add (cross a (List.hd a rest)) (chain rest).
Proof.
  destruct rest as [|b rest']; simpl; [|reflexivity].
  rewrite cross_self. ring.
Qed.

Lemma chain_snoc (pts : list (Point num)) (a : Point num) :
  chain (pts ++ [a]) = add (chain pts) (cross (last pts a) a).
Proof.
  induction pts as [|b rest IH].
  - simpl. rewrite cross_self. ring.
  - change ((b :: rest) ++ [a]) with (b :: (rest ++ [a])).
    rewrite !chain_cons, IH.
    destruct rest as [|c' rest']; simpl; unfold cross; simpl; ring.
Qed.

Lemma chain_rev (pts : list (Point num)) : chain (rev pts) = neg (chain pts).
Proof.
  induction pts as [|a rest IH].
  - simpl. ring.
  - simpl rev. rewrite chain_snoc, chain_cons, IH.
    rewrite (last_rev_hd (rev rest) a), rev_involutive.
    rewrite (cross_antisym a (List.hd a rest)). ring.
Qed.

Lemma fold_left_ext_in (A B : Type) (f g : A -> B -> A) (xs : list B) :
  (forall (x : B) (acc : A), In x xs -> f acc x = g acc x) ->
  forall acc : A, fold_left f xs acc = fold_left g xs acc.
Proof.
  induction xs as [|x rest IH]; intros Hfg acc; [reflexivity|].
  simpl. rewrite Hfg by (now left). apply IH.
  intros y acc' Hy. apply Hfg. now right.
Qed.

Lemma closedStep_sum (rest : list (Point num)) :
  forall (closed pre : list (Point num)) (p1 : Point num) (acc : num),
    closed = pre ++ p1 :: rest ->
    fold_left (closedStep closed) (seq (List.length pre) (List.length rest)) acc
    = add acc (chain (p1 :: rest)).
Proof.
  induction rest as [|p2 rest IH]; intros closed pre p1 acc Hc.
  - simpl. ring.
  - simpl List.length. simpl seq. simpl fold_left.
    assert (E1 : nth_error closed (List.length pre) = Some p1).
    { subst closed. rewrite nth_error_app2 by lia.
      now rewrite Nat.sub_diag. }
    assert (E2 : nth_error closed (List.length pre + 1) = Some p2).
    { subst closed. rewrite nth_error_app2 by lia.
      now replace (List.length pre + 1 - List.length pre)%nat with 1%nat by lia. }
    unfold closedStep at 2. rewrite E1, E2.
    specialize (IH closed (pre ++ [p1]) p2 (add acc (cross p1 p2))).
    rewrite length_app in IH. simpl List.length in IH.
    replace (List.length pre + 1)%nat with (S (List.length pre)) in IH by lia.
    rewrite IH.
    + simpl chain. ring.
    + subst closed. now rewrite <- app_assoc.
Qed.

(** The loop of [getSignedAreaFontSpace] sums the cross products along
    the closed polyline. *)
Lemma shoelace_chain (pts : list (Point num)) (d : Point num) :
  shoelace pts = chain (pts ++ [List.hd d pts]).
Proof.
  unfold shoelace.
  destruct pts as [|p0 rest]; [reflexivity|].
  simpl List.hd.
  pose proof (@closedStep_sum (rest ++ [p0]) ((p0 :: rest) ++ [p0]) [] p0 (lit 0)
                (eq_refl _)) as Hs.
  rewrite length_app in Hs. simpl List.length in Hs.
  replace (List.length rest + 1)%nat with (S (List.length rest)) in Hs by lia.
  change (p0 :: rest ++ [p0]) with ((p0 :: rest) ++ [p0]) in Hs.
  replace (chain ((p0 :: rest) ++ [p0]))
    with (add (lit 0) (chain ((p0 :: rest) ++ [p0]))) by ring.
  rewrite <- Hs. simpl List.length.
  apply fold_left_ext_in.
  intros i acc Hi. apply in_seq in Hi.
  unfold shoelaceStep, closedStep, cross. simpl List.length.
  assert (E1 : nth_error ((p0 :: rest) ++ [p0]) i = nth_error (p0 :: rest) i).
  { apply nth_error_app1. simpl. lia. }
  assert (E2 : nth_error ((p0 :: rest) ++ [p0]) (i + 1)
               = nth_error (p0 :: rest) ((i + 1) mod S (List.length rest))).
  { destruct (Nat.eq_dec (i + 1) (S (List.length rest))) as [Eq|Ne].
    - rewrite Eq, Nat.Div0.mod_same. rewrite nth_error_app2 by (simpl; lia).
      simpl List.length. rewrite Nat.sub_diag. reflexivity.
    - rewrite Nat.mod_small by lia. apply nth_error_app1. simpl. lia. }
  rewrite E1, E2. reflexivity.
Qed.


Lemma last_indep (A : Type) (xs : list A) (d e : A) :
  xs <> [] -> last xs d = last xs e.
Proof.
  induction xs as [|x rest IH]; [congruence|]. intros _.
  destruct rest as [|y rest']; [reflexivity|].
  change (last (x :: y :: rest') d) with (last (y :: rest') d).
  change (last (x :: y :: rest') e) with (last (y :: rest') e).
  apply IH. discriminate.
Qed.

Lemma shoelace_rev (pts : list (Point num)) : shoelace (rev pts) = neg (shoelace pts).
Proof.
  destruct pts as [|p0 rest]; [unfold shoelace; simpl; ring|].
  set (g := last (p0 :: rest) p0).
  assert (E1 : List.hd p0 (rev (p0 :: rest)) = g).
  { unfold g. symmetry. apply last_rev_hd. }
  assert (E2 : last (rev (p0 :: rest)) g = p0).
  { rewrite (last_rev_hd (rev (p0 :: rest)) g), rev_involutive. reflexivity. }
  rewrite (shoelace_chain (rev (p0 :: rest)) p0), (shoelace_chain (p0 :: rest) p0).
  rewrite E1. simpl List.hd. rewrite !chain_snoc, chain_rev, E2.
  fold g. rewrite (cross_antisym g p0). ring.
Qed.

(** A vertex repeated at the end adds nothing to the sum. *)
Lemma shoelace_repeat_last (pts : list (Point num)) (d : Point num) :
  pts <> [] -> shoelace (pts ++ [last pts d]) = shoelace pts.
Proof.
  intro Hne. destruct pts as [|p0 rest]; [congruence|].
  set (g := last (p0 :: rest) d).
  rewrite (shoelace_chain ((p0 :: rest) ++ [g]) p0).
  rewrite (shoelace_chain (p0 :: rest) p0).
  simpl List.hd. rewrite !chain_snoc, !last_last.
  rewrite (@last_indep _ (p0 :: rest) g d) by discriminate.
  rewrite (@last_indep _ (p0 :: rest) p0 d) by discriminate.
  fold g. rewrite cross_self. ring.
Qed.

Lemma areaPoints_designPoints (hgt : num) (subp : list Cmd) :
  areaPoints hgt subp = map (flipPoint hgt) (designPoints subp).
Proof.
  induction subp as [|cmd rest IH]; [reflexivity|].
  destruct cmd; simpl; now rewrite ?IH.
Qed.

Lemma neg_zero : neg (lit 0) = lit 0 :> num.
Proof. ring. Qed.

(** Reversal negates the signed area. *)
Lemma area_reverseSubpath (hgt : num) (subp : list Cmd) :
  forallb isOpenType subp = true ->
  movesOnlyFirst subp = true ->
  getSignedAreaFontSpace hgt (reverseSubpath subp)
  = neg (getSignedAreaFontSpace hgt subp).
Proof.
  intros Hc Hm. unfold getSignedAreaFontSpace.
  rewrite <- (exact_div_neg exact). f_equal.
  rewrite !areaPoints_designPoints, reverseSubpath_points by assumption.
  destruct (designPoints subp) as [|first verts] eqn:Ev.
  - simpl. unfold shoelace. simpl. ring.
  - rewrite map_app, map_rev.
    unfold closingVertex.
    assert (Hd : map (flipPoint hgt) [first]
                 = [last (rev (map (flipPoint hgt) (first :: verts)))
                      (flipPoint hgt first)]).
    { rewrite (last_rev_hd (rev (map (flipPoint hgt) (first :: verts)))).
      rewrite rev_involutive. reflexivity. }
    destruct subp as [|[] rest];
      rewrite ?app_nil_r; try apply shoelace_rev;
      (simpl map at 2; change [flipPoint hgt first] with (map (flipPoint hgt) [first]);
       rewrite Hd, shoelace_repeat_last;
       [apply shoelace_rev
       | intro Hn; apply (f_equal (@List.length _)) in Hn;
         rewrite length_rev in Hn; discriminate]).
Qed.

(** *** Signs *)

Lemma lt_neg_zero (a : num) : lt (neg a) (lit 0) = lt (lit 0) a.
Proof.
  rewrite <- (exact_lt_add exact (neg a) (lit 0) a).
  f_equal; ring.
Qed.

Lemma lt_zero_neg (a : num) : lt (lit 0) (neg a) = lt a (lit 0).
Proof.
  rewrite <- (exact_lt_add exact (lit 0) (neg a) a).
  f_equal; ring.
Qed.

Lemma isCW_reverseSubpath (hgt : num) (subp : list Cmd) :
  forallb isOpenType subp = true ->
  movesOnlyFirst subp = true ->
  isCW hgt (reverseSubpath subp) = lt (lit 0) (getSignedAreaFontSpace hgt subp).
Proof.
  intros Hc Hm. unfold isCW.
  rewrite area_reverseSubpath by assumption. apply lt_neg_zero.
Qed.

End ExactArea.

(** ** The normalizer works subpath by subpath *)

Section NormalizeFacts.

Context {num : Type} `{Arith num}.

Local Abbreviation Cmd := (IconPathCommand num).

Lemma normalizeLoop_parts (hgt : num) (flag : bool) (subpaths : list (list Cmd)) :
  forall (idx : nat) (normalized : list Cmd),
    normalizeLoop hgt flag idx subpaths normalized
    = normalized ++ List.concat (normalizedParts hgt flag idx subpaths).
Proof.
  induction subpaths as [|subp rest IH]; intros idx normalized.
  - simpl. now rewrite app_nil_r.
  - simpl. rewrite IH, <- app_assoc. reflexivity.
Qed.

Lemma getNormalizedWindingForFont_parts (flag : bool) (p : IconPath num) :
  getNormalizedWindingForFont flag p
  = List.concat
      (normalizedParts (height p) flag 0 (splitSubpaths (getOpenTypeCommands p))).
Proof. unfold getNormalizedWindingForFont. now rewrite normalizeLoop_parts. Qed.

Lemma normalizedParts_length (hgt : num) (flag : bool) (subpaths : list (list Cmd)) :
  forall idx : nat,
    List.length (normalizedParts hgt flag idx subpaths) = List.length subpaths.
Proof.
  induction subpaths as [|subp rest IH]; intro idx; [reflexivity|].
  simpl. now rewrite IH.
Qed.

Lemma normalizedParts_nth (hgt : num) (flag : bool) (subpaths : list (list Cmd)) :
  forall idx i : nat,
    nth_error (normalizedParts hgt flag idx subpaths) i
    = option_map (normalizeSub hgt flag (idx + i)) (nth_error subpaths i).
Proof.
  induction subpaths as [|subp rest IH]; intros idx i.
  - destruct i; reflexivity.
  - destruct i as [|i]; simpl.
    + now rewrite Nat.add_0_r.
    + rewrite IH. now replace (S idx + i)%nat with (idx + S i)%nat by lia.
Qed.

Lemma normalizeSub_isSubpath (hgt : num) (flag : bool) (idx : nat) (subp : list Cmd) :
  isSubpath subp = true ->
  forallb isOpenType subp = true ->
  isSubpath (normalizeSub hgt flag idx subp) = true
  /\ forallb isOpenType (normalizeSub hgt flag idx subp) = true
  /\ endsWithZ (normalizeSub hgt flag idx subp) = endsWithZ subp
  /\ (startsWithM subp = true -> startsWithM (normalizeSub hgt flag idx subp) = true).
Proof.
  intros Hs Hc. unfold normalizeSub.
  destruct (needsReverse hgt flag idx subp); [|auto].
  now apply reverseSubpath_isSubpath.
Qed.

Lemma normalizedParts_subpaths (hgt : num) (flag : bool) (subpaths : list (list Cmd)) :
  forall idx : nat,
    forallb isSubpath subpaths = true ->
    forallb (forallb isOpenType) subpaths = true ->
    subpathsChain subpaths = true ->
    forallb isSubpath (normalizedParts hgt flag idx subpaths) = true
    /\ forallb (forallb isOpenType) (normalizedParts hgt flag idx subpaths) = true
    /\ subpathsChain (normalizedParts hgt flag idx subpaths) = true.
Proof.
  induction subpaths as [|subp rest IH]; intros idx Hs Hc Hch; [auto|].
  simpl in Hs, Hc. apply andb_true_iff in Hs. apply andb_true_iff in Hc.
  destruct Hs as [Hs1 Hs2], Hc as [Hc1 Hc2].
  assert (Hch2 : subpathsChain rest = true).
  { destruct rest; [reflexivity|]. simpl in Hch.
    apply andb_true_iff in Hch. apply Hch. }
  destruct (IH (S idx) Hs2 Hc2 Hch2) as (I1 & I2 & I3).
  destruct (@normalizeSub_isSubpath hgt flag idx subp Hs1 Hc1) as (N1 & N2 & N3 & N4).
  simpl normalizedParts. simpl forallb. rewrite N1, N2, I1, I2.
  repeat split.
  destruct rest as [|next rest']; [reflexivity|].
  simpl normalizedParts in *.
  change (subpathsChain (?a :: ?b :: ?r))
    with ((endsWithZ a || startsWithM b) && subpathsChain (b :: r)).
  rewrite I3, andb_true_r, N3.
  simpl in Hch. apply andb_true_iff in Hch. destruct Hch as [Hch1 _].
  apply orb_true_iff in Hch1. apply orb_true_iff.
  destruct Hch1 as [Hz|Hm]; [now left | right].
  simpl in Hs2, Hc2. apply andb_true_iff in Hs2. apply andb_true_iff in Hc2.
  destruct Hs2 as [Hn1 _], Hc2 as [Hn2 _].
  now apply (@normalizeSub_isSubpath hgt flag (S idx) next Hn1 Hn2).
Qed.

(** The output of the normalizer is canonical, and its subpaths are the
    subpaths it pushed. *)
Lemma getNormalizedWindingForFont_split (flag : bool) (p : IconPath num) :
  forallb isOpenType (getNormalizedWindingForFont flag p) = true
  /\ splitSubpaths (getNormalizedWindingForFont flag p)
     = normalizedParts (height p) flag 0 (splitSubpaths (getOpenTypeCommands p)).
Proof.
  rewrite getNormalizedWindingForFont_parts.
  pose proof (canonLoop_isOpenType canonInit (commands p)) as Hcan.
  fold (getOpenTypeCommands p) in Hcan.
  destruct (splitSubpaths_subpaths (getOpenTypeCommands p)) as [Hs Hch].
  pose proof (splitSubpaths_canonical _ Hcan) as Hc.
  destruct (@normalizedParts_subpaths (height p) flag _ 0 Hs Hc Hch) as (N1 & N2 & N3).
  split.
  - clear - N2.
    induction (normalizedParts (height p) flag 0
                 (splitSubpaths (getOpenTypeCommands p))) as [|part rest IH];
      [reflexivity|].
    simpl in *. apply andb_true_iff in N2. destruct N2 as [N21 N22].
    now rewrite forallb_app, N21, IH.
  - now apply splitSubpaths_concat.
Qed.

Lemma isSubpath_movesOnlyFirst (subp : list Cmd) :
  isSubpath subp = true -> movesOnlyFirst subp = true.
Proof.
  unfold isSubpath. intro Hs.
  apply andb_true_iff in Hs. destruct Hs as [Hs _].
  apply andb_true_iff in Hs. apply Hs.
Qed.

End NormalizeFacts.

(** ** The rationals are exact *)

Lemma Qc_lt_true (a b : Qc) : lt a b = true <-> (a < b)%Qc.
Proof.
  simpl. rewrite Qclt_alt. destruct (a ?= b)%Qc; split; congruence.
Qed.

Lemma Qc_lt_false (a b : Qc) : lt a b = false <-> (b <= a)%Qc.
Proof.
  split.
  - intro Hf. apply Qcnot_lt_le. intro Hl. apply Qc_lt_true in Hl. congruence.
  - intro Hle. destruct (lt a b) eqn:E; [|reflexivity].
    apply Qc_lt_true in E. exfalso. now apply (Qcle_not_lt _ _ Hle).
Qed.

Lemma Qc_exact : ExactArith Qc.
Proof.
  constructor.
  - exact Qcrt.
  - intros a b. simpl. unfold Qcdiv. ring.
  - intros a b Hab. apply Qc_lt_false. apply Qclt_le_weak. now apply Qc_lt_true.
  - intros a b Hab Hba. apply Qc_lt_false in Hab. apply Qc_lt_false in Hba.
    now apply Qcle_antisym.
  - intros a b c'.
    destruct (lt a b) eqn:E.
    + apply Qc_lt_true. apply Qc_lt_true in E.
      unfold Qclt in *.
      change (Qred (a + c') < Qred (b + c'))%Q. rewrite !Qred_correct.
      now apply Qplus_lt_l.
    + apply Qc_lt_false. apply Qc_lt_false in E.
      unfold Qcle in *.
      change (Qred (b + c') <= Qred (a + c'))%Q. rewrite !Qred_correct.
      now apply Qplus_le_l.
Qed.
(** ** The value of a binary64 number *)

Section Binary64Values.

Import Binary64.

Lemma digits2_pos_size (m : positive) : digits2_pos m = Pos.size m.
Proof. induction m as [m IH|m IH|]; simpl; now rewrite ?IH. Qed.

Lemma digits2_pos_log2 (m : positive) :
  Zpos (digits2_pos m) = (Z.log2 (Zpos m) + 1)%Z.
Proof.
  rewrite digits2_pos_size. destruct m as [m|m|]; simpl; lia.
Qed.

Lemma valid_finite (s : bool) (m : positive) (e : Z) :
  valid_binary (S754_finite s m e) = true ->
  (- 1074 <= e)%Z /\ e = Z.max (Z.log2 (Zpos m) + 1 + e - 53) (- 1074).
Proof.
  unfold valid_binary, SpecFloat.valid_binary, bounded, canonical_mantissa, fexp, emin,
    prec, emax.
  intro Hv. apply andb_true_iff in Hv as [Hc _]. apply Z.eqb_eq in Hc.
  rewrite digits2_pos_log2 in Hc. lia.
Qed.

(** Two finite numbers with the same multiple are the same. *)
Lemma finite_canonical (s1 s2 : bool) (m1 m2 : positive) (e1 e2 : Z) :
  valid_binary (S754_finite s1 m1 e1) = true ->
  valid_binary (S754_finite s2 m2 e2) = true ->
  (Zpos m1 * 2 ^ (e1 + 1074) = Zpos m2 * 2 ^ (e2 + 1074))%Z ->
  m1 = m2 /\ e1 = e2.
Proof.
  intros V1 V2 E.
  destruct (valid_finite _ _ _ V1) as [L1 K1].
  destruct (valid_finite _ _ _ V2) as [L2 K2].
  pose proof (f_equal Z.log2 E) as El.
  rewrite !Z.log2_mul_pow2 in El by lia.
  assert (Ee : e1 = e2) by lia. subst e2. split; [|reflexivity].
  apply Z.mul_cancel_r in E; [congruence|].
  apply Z.pow_nonzero; lia.
Qed.

Lemma scaled_finite_sign (s : bool) (m : positive) (e : Z) :
  (- 1074 <= e)%Z ->
  if s then (cond_Zopp s (Zpos m * 2 ^ (e + 1074)) < 0)%Z
  else (0 < cond_Zopp s (Zpos m * 2 ^ (e + 1074)))%Z.
Proof.
  intro L. assert (P : (0 < 2 ^ (e + 1074))%Z) by (apply Z.pow_pos_nonneg; lia).
  pose proof (Z.mul_pos_pos (Zpos m) _ (eq_refl _) P) as Q.
  destruct s; unfold cond_Zopp; lia.
Qed.

Lemma SFeqb_refl_finite (s : bool) (m : positive) (e : Z) :
  SFeqb (S754_finite s m e) (S754_finite s m e) = true.
Proof.
  unfold SFeqb, SFcompare. rewrite Z.compare_refl, Pos.compare_cont_refl.
  now destruct s.
Qed.

(** Numbers with the same multiple are equal to [===]. *)
Lemma scaled_of_finite (s : bool) (m : positive) (e z : Z) :
  scaled (S754_finite s m e) = Some z ->
  (- 1074 <= e)%Z ->
  (if s then z < 0 else 0 < z)%Z
  /\ z = cond_Zopp s (Zpos m * 2 ^ (e + 1074)).
Proof.
  intros S L. pose proof (scaled_finite_sign s m L) as P.
  assert (E : cond_Zopp s (Zpos m * 2 ^ (e + 1074)) = z)
    by (unfold scaled in S; congruence).
  rewrite E in P. split; [destruct s; exact P | now symmetry].
Qed.

Lemma scaled_eq (f1 f2 : spec_float) (z : Z) :
  valid_binary f1 = true -> valid_binary f2 = true ->
  scaled f1 = Some z -> scaled f2 = Some z -> SFeqb f1 f2 = true.
Proof.
  intros V1 V2 S1 S2.
  destruct f1 as [s1|s1| |s1 m1 e1]; destruct f2 as [s2|s2| |s2 m2 e2];
    try discriminate S1; try discriminate S2; try reflexivity.
  - destruct (scaled_of_finite S2 (proj1 (valid_finite _ _ _ V2))) as [P _].
    assert (z = 0%Z) by (unfold scaled in S1; congruence).
    destruct s2; lia.
  - destruct (scaled_of_finite S1 (proj1 (valid_finite _ _ _ V1))) as [P _].
    assert (z = 0%Z) by (unfold scaled in S2; congruence).
    destruct s1; lia.
  - destruct (scaled_of_finite S1 (proj1 (valid_finite _ _ _ V1))) as [P1 E1].
    destruct (scaled_of_finite S2 (proj1 (valid_finite _ _ _ V2))) as [P2 E2].
    assert (Es : s1 = s2) by (destruct s1, s2; try reflexivity; lia).
    subst s2.
    assert (Em : (Zpos m1 * 2 ^ (e1 + 1074) = Zpos m2 * 2 ^ (e2 + 1074))%Z)
      by (destruct s1; unfold cond_Zopp in E1, E2; lia).
    destruct (@finite_canonical s1 s1 _ _ _ _ V1 V2 Em) as [-> ->].
    apply SFeqb_refl_finite.
Qed.

Lemma quantum_inj (z1 z2 : Z) :
  Q2Qc (z1 # quantum) = Q2Qc (z2 # quantum) -> z1 = z2.
Proof.
  intro E. apply Q2Qc_eq_iff in E. unfold Qeq in E. simpl in E.
  apply Z.mul_cancel_r in E; [exact E | discriminate].
Qed.

Lemma valueOf_scaled (x : float) (q : Qc) :
  valueOf x = Some q ->
  exists z : Z, scaled (Prim2SF x) = Some z /\ q = Q2Qc (z # quantum).
Proof.
  unfold valueOf. destruct (scaled (Prim2SF x)) as [z|]; simpl; [|discriminate].
  intro E. injection E as E. eauto.
Qed.

(** Finite numbers that stand for the same rational are equal to [===]. *)
Lemma valueOf_eq (x y : float) (q : Qc) :
  valueOf x = Some q -> valueOf y = Some q -> strict_eq x y = true.
Proof.
  intros Vx Vy.
  destruct (valueOf_scaled _ Vx) as (zx & Sx & Ex).
  destruct (valueOf_scaled _ Vy) as (zy & Sy & Ey).
  rewrite Ex in Ey. apply quantum_inj in Ey. subst zy.
  simpl. rewrite FloatAxioms.eqb_spec.
  exact (scaled_eq _ _ (Prim2SF_valid x) (Prim2SF_valid y) Sx Sy).
Qed.

Lemma Qc_sign_quantum (z : Z) :
  lt (Q2Qc (z # quantum)) (lit 0) = (z <? 0)%Z
  /\ lt (lit 0) (Q2Qc (z # quantum)) = (0 <? z)%Z.
Proof.
  cbv [lt lit Qc_Arith Qccompare Q2Qc this].
  rewrite <- !Qred_compare. unfold Qcompare, inject_Z. cbn [Qnum Qden].
  rewrite Z.mul_1_r. change (0 * Z.pos quantum)%Z with 0%Z.
  unfold Z.ltb. split; reflexivity.
Qed.

(** The sign of a finite number is the sign of its value. *)
Lemma valueOf_sign (x : float) (q : Qc) :
  valueOf x = Some q ->
  lt x (lit 0) = lt q (lit 0) /\ lt (lit 0) x = lt (lit 0) q.
Proof.
  intro Vx. destruct (valueOf_scaled _ Vx) as (z & Sz & ->).
  destruct (Qc_sign_quantum z) as [-> ->].
  simpl lt. rewrite !ltb_spec.
  change (Prim2SF (Float64.of_Z 0)) with (S754_zero false).
  pose proof (Prim2SF_valid x) as V.
  destruct (Prim2SF x) as [s|s| |s m e]; try discriminate Sz.
  - assert (z = 0%Z) by (unfold scaled in Sz; congruence). subst z.
    split; reflexivity.
  - destruct (scaled_of_finite Sz (proj1 (valid_finite _ _ _ V))) as [P _].
    unfold SFltb, SFcompare.
    destruct s; split; symmetry;
      try (apply Z.ltb_lt; lia); apply Z.ltb_ge; lia.
Qed.

Lemma Qcopp_quantum (z : Z) :
  Qcopp (Q2Qc (z # quantum)) = Q2Qc ((- z) # quantum).
Proof.
  unfold Qcopp. apply Q2Qc_eq_iff. cbv [this Q2Qc].
  rewrite Qred_correct. reflexivity.
Qed.

Lemma scaled_opp (f : spec_float) :
  scaled (SFopp f) = option_map Z.opp (scaled f).
Proof.
  destruct f as [s|s| |s m e]; try reflexivity.
  unfold SFopp, scaled, option_map. f_equal. destruct s; unfold cond_Zopp, negb; lia.
Qed.

Lemma valueOf_opp (x : float) :
  valueOf (neg x) = option_map Qcopp (valueOf x).
Proof.
  unfold valueOf. simpl neg. rewrite opp_spec, scaled_opp.
  destruct (scaled (Prim2SF x)) as [z|]; [|reflexivity].
  unfold option_map. now rewrite Qcopp_quantum.
Qed.

Lemma isExactly_valueOf (x : float) (q : Qc) :
  isExactly x q = true <-> valueOf x = Some q.
Proof.
  unfold isExactly. destruct (valueOf x) as [v|]; split; try discriminate.
  - intro E. apply Qeq_bool_iff in E. f_equal. now apply Qc_is_canon.
  - intro E. injection E as E. subst v. apply Qeq_bool_iff. reflexivity.
Qed.

End Binary64Values.

(** ** Reversal and the area in binary64 *)

Section Binary64Areas.

Import Binary64.

Local Abbreviation FCmd := (IconPathCommand float).

Lemma designPoints_exact (subp : list FCmd) :
  designPoints (map exactCommand subp) = map exactPoint (designPoints subp).
Proof.
  induction subp as [|cmd rest IH]; [reflexivity|].
  destruct cmd; simpl; now rewrite ?IH.
Qed.

Lemma isOpenType_exact (subp : list FCmd) :
  forallb isOpenType (map exactCommand subp) = forallb isOpenType subp.
Proof.
  induction subp as [|cmd rest IH]; [reflexivity|].
  destruct cmd; simpl; now rewrite ?IH.
Qed.

Lemma movesOnlyFirst_exact (subp : list FCmd) :
  movesOnlyFirst (map exactCommand subp) = movesOnlyFirst subp.
Proof.
  unfold movesOnlyFirst. destruct subp as [|first rest]; [reflexivity|].
  simpl List.tl. induction rest as [|cmd rest IH]; [reflexivity|].
  destruct cmd; simpl; now rewrite ?IH.
Qed.

Lemma closingVertex_exact (subp : list FCmd) (first : Point float) :
  closingVertex (map exactCommand subp) (exactPoint first)
  = map exactPoint (closingVertex subp first).
Proof. destruct subp as [|[] rest]; reflexivity. Qed.

(** The area is a function of the vertices. *)
Lemma area_of_designPoints (num : Type) `{Arith num} (hgt : num)
  (a b : list (IconPathCommand num)) :
  designPoints a = designPoints b ->
  getSignedAreaFontSpace hgt a = getSignedAreaFontSpace hgt b.
Proof.
  intro E. unfold getSignedAreaFontSpace.
  now rewrite !areaPoints_designPoints, E.
Qed.

(** Without rounding, the area of the reversed subpath is the negation
    of the area of the subpath. *)
Lemma exact_area_reverseSubpath (hq : Qc) (subp : list FCmd) :
  forallb isOpenType subp = true ->
  movesOnlyFirst subp = true ->
  getSignedAreaFontSpace hq (map exactCommand (reverseSubpath subp))
  = neg (getSignedAreaFontSpace hq (map exactCommand subp)).
Proof.
  intros Hc Hm.
  assert (HcQ : forallb isOpenType (map exactCommand subp) = true)
    by (now rewrite isOpenType_exact).
  assert (HmQ : movesOnlyFirst (map exactCommand subp) = true)
    by (now rewrite movesOnlyFirst_exact).
  rewrite <- (area_reverseSubpath Qc_exact hq _ HcQ HmQ).
  apply area_of_designPoints.
  rewrite designPoints_exact, (reverseSubpath_points _ Hc Hm).
  rewrite (reverseSubpath_points _ HcQ HmQ), designPoints_exact.
  destruct (designPoints subp) as [|first verts]; [reflexivity|].
  rewrite map_app, map_rev, <- closingVertex_exact. reflexivity.
Qed.

Lemma exact_areas (hgt : float) (subp : list FCmd) :
  forallb isOpenType subp = true ->
  movesOnlyFirst subp = true ->
  reversalIsExact hgt subp = true ->
  exists q : Qc,
    valueOf (getSignedAreaFontSpace hgt subp) = Some q
    /\ valueOf (getSignedAreaFontSpace hgt (reverseSubpath subp)) = Some (neg q).
Proof.
  intros Hc Hm He. unfold reversalIsExact, areaIsExact in He.
  apply andb_true_iff in He as [Ha Hr].
  apply isExactly_valueOf in Ha. apply isExactly_valueOf in Hr.
  rewrite (exact_area_reverseSubpath _ _ Hc Hm) in Hr. eauto.
Qed.

Lemma isCW_reverseSubpath_binary64 (hgt : float) (subp : list FCmd) :
  forallb isOpenType subp = true ->
  movesOnlyFirst subp = true ->
  reversalIsExact hgt subp = true ->
  isCW hgt (reverseSubpath subp) = lt (lit 0) (getSignedAreaFontSpace hgt subp).
Proof.
  intros Hc Hm He. destruct (exact_areas _ _ Hc Hm He) as (q & Ha & Hr).
  unfold isCW.
  rewrite (proj1 (valueOf_sign _ Hr)), (proj2 (valueOf_sign _ Ha)).
  apply (lt_neg_zero Qc_exact).
Qed.

(** C9, as amended: in binary64, for a canonical subpath with no Move
    after its first command, when neither the area of the subpath nor
    that of its reversal is rounded (each is finite and is the area of
    the same vertices without rounding), the area of the reversed subpath
    is the negation of the area of the subpath ([===]), and the reversed
    subpath is clockwise exactly when the subpath has positive area. *)
Theorem reverseSubpath_negates_area (hgt : float) (subp : list FCmd) :
  forallb isOpenType subp = true ->
  movesOnlyFirst subp = true ->
  areaIsExact hgt subp = true ->
  areaIsExact hgt (reverseSubpath subp) = true ->
  strict_eq (getSignedAreaFontSpace hgt (reverseSubpath subp))
    (neg (getSignedAreaFontSpace hgt subp)) = true
  /\ isCW hgt (reverseSubpath subp)
     = lt (lit 0) (getSignedAreaFontSpace hgt subp).
Proof.
  intros Hc Hm Ha Hr.
  assert (He : reversalIsExact hgt subp = true)
    by (unfold reversalIsExact; now rewrite Ha, Hr).
  split; [|now apply isCW_reverseSubpath_binary64].
  destruct (exact_areas _ _ Hc Hm He) as (q & Vq & Vr).
  apply (valueOf_eq _ _ Vr). now rewrite valueOf_opp, Vq.
Qed.

(** *** Normalizing twice *)

Lemma valueOf_zero : valueOf (lit 0) = Some (lit 0).
Proof.
  unfold valueOf. change (Prim2SF (lit 0)) with (S754_zero false).
  simpl. f_equal. apply Q2Qc_eq_iff. reflexivity.
Qed.

(** A finite number other than zero stands for a rational other than
    zero. *)
Lemma valueOf_nonzero (x : float) (q : Qc) :
  valueOf x = Some q -> strict_eq x (lit 0) = false -> q <> lit 0.
Proof.
  intros Vx Hnz Hq. subst q.
  rewrite (valueOf_eq _ _ Vx valueOf_zero) in Hnz. discriminate.
Qed.

(** What was pushed for a subpath is pushed unchanged the next time:
    always when the subpath was not reversed; when it was, provided its
    areas are not rounded and, where it is to be clockwise, its area is
    not zero. *)
Lemma normalizeSub_again (hgt : float) (flag : bool) (idx : nat) (subp : list FCmd) :
  forallb isOpenType subp = true ->
  movesOnlyFirst subp = true ->
  (needsReverse hgt flag idx subp = true -> reversalIsExact hgt subp = true) ->
  (shouldBeCW flag idx = true ->
   strict_eq (getSignedAreaFontSpace hgt subp) (lit 0) = false) ->
  normalizeSub hgt flag idx (normalizeSub hgt flag idx subp)
  = normalizeSub hgt flag idx subp.
Proof.
  intros Hc Hm Hex Hnz.
  unfold normalizeSub at 1.
  destruct (needsReverse hgt flag idx subp) eqn:En;
    unfold normalizeSub; rewrite En; [|now rewrite En].
  specialize (Hex (eq_refl _)).
  pose proof (isCW_reverseSubpath_binary64 _ _ Hc Hm Hex) as Hcw.
  destruct (exact_areas _ _ Hc Hm Hex) as (q & Vq & _).
  destruct (valueOf_sign _ Vq) as [Sneg Spos].
  unfold needsReverse in *. rewrite Hcw, Spos.
  destruct (shouldBeCW flag idx).
  - unfold isCW in En. rewrite Sneg in En.
    destruct (lt (lit 0) q) eqn:Epos; [reflexivity|].
    exfalso. apply (@valueOf_nonzero _ _ Vq (Hnz (eq_refl _))).
    apply (exact_lt_total Qc_exact); [|exact Epos].
    now destruct (lt q (lit 0)).
  - unfold isCW in En. rewrite Sneg in En.
    now rewrite (exact_lt_asym Qc_exact _ _ En).
Qed.

Lemma normalizedParts_again (hgt : float) (flag : bool) (subpaths : list (list FCmd)) :
  forall idx : nat,
    forallb isSubpath subpaths = true ->
    forallb (forallb isOpenType) subpaths = true ->
    reversalsExact hgt flag idx subpaths = true ->
    (forall first : list FCmd,
       shouldBeCW flag idx = true ->
       List.hd_error subpaths = Some first ->
       strict_eq (getSignedAreaFontSpace hgt first) (lit 0) = false) ->
    normalizedParts hgt flag idx (normalizedParts hgt flag idx subpaths)
    = normalizedParts hgt flag idx subpaths.
Proof.
  induction subpaths as [|subp rest IH]; intros idx Hs Hc He Hnz; [reflexivity|].
  simpl in Hs, Hc, He.
  apply andb_true_iff in Hs. apply andb_true_iff in Hc. apply andb_true_iff in He.
  destruct Hs as [Hs1 Hs2], Hc as [Hc1 Hc2], He as [He1 He2].
  simpl. rewrite normalizeSub_again; auto using isSubpath_movesOnlyFirst.
  - f_equal. apply IH; auto.
    intros first Hcw _. unfold shouldBeCW in Hcw.
    destruct flag; discriminate.
  - intro En. now rewrite En in He1.
Qed.

(** C3, as amended: in binary64, normalizing a path whose commands
    already are the output of the normalizer for the same flag gives
    those commands back, provided that the areas of the subpaths the
    normalizer reversed are not rounded (the area of each such subpath,
    and of its reversal, is finite and is the area of its vertices
    without rounding) and that, when the outer contour is to be
    clockwise, the first subpath has an area other than zero. *)
Theorem normalization_idempotent (outerShouldBeCW : bool) (p p' : IconPath float) :
  height p' = height p ->
  commands p' = getNormalizedWindingForFont outerShouldBeCW p ->
  reversalsExact (height p) outerShouldBeCW 0
    (splitSubpaths (getOpenTypeCommands p)) = true ->
  (outerShouldBeCW = true ->
   forall first : list FCmd,
     List.hd_error (splitSubpaths (getOpenTypeCommands p)) = Some first ->
     strict_eq (getSignedAreaFontSpace (height p) first) (lit 0) = false) ->
  getNormalizedWindingForFont outerShouldBeCW p' = commands p'.
Proof.
  intros Hh Hcmds He Hnz.
  destruct (getNormalizedWindingForFont_split outerShouldBeCW p) as [Hcan Hsplit].
  rewrite (getNormalizedWindingForFont_parts outerShouldBeCW p').
  unfold getOpenTypeCommands at 1. rewrite Hcmds, Hh.
  rewrite canonLoop_canonical by exact Hcan.
  rewrite Hsplit.
  rewrite normalizedParts_again.
  - symmetry. apply getNormalizedWindingForFont_parts.
  - apply splitSubpaths_subpaths.
  - apply splitSubpaths_canonical. apply canonLoop_isOpenType.
  - exact He.
  - intros first Hcw Hf. apply Hnz; [|exact Hf].
    unfold shouldBeCW in Hcw. destruct outerShouldBeCW; [reflexivity | discriminate].
Qed.

End Binary64Areas.

(** ** Windings in binary64: samples *)

(** In binary64 the area of the quadrilateral and of its reversal do not
    add up to zero: the cross products are summed in another order.  The
    two doubles print as 238.26999999999998 and -238.27. *)
Example quadrilateral_areas :
  getSignedAreaFontSpace 24%float Samples.quadrilateral = 0x1.dc8a3d70a3d7p+7%float
  /\ getSignedAreaFontSpace 24%float (reverseSubpath Samples.quadrilateral)
     = (-0x1.dc8a3d70a3d71p+7)%float.
Proof. split; vm_compute; reflexivity. Qed.

(** C9, as stated, fails in the program's arithmetic: for the subpath
    [M 3.4 14.5 L 21.6 20.5 L 19.5 1.6 L 6.5 3 Z] of a path of height 24
    the area is 238.26999999999998, and the area of its reversal is
    -238.27. *)
Lemma reverseSubpath_area_not_negated :
  ~ (forall (hgt : float) (subp : list (IconPathCommand float)),
       forallb isOpenType subp = true ->
       isSubpath subp = true ->
       getSignedAreaFontSpace hgt (reverseSubpath subp)
       = neg (getSignedAreaFontSpace hgt subp)).
Proof.
  intro Hc.
  specialize (Hc 24%float Samples.quadrilateral (eq_refl _) (eq_refl _)).
  apply (f_equal (fun area => PrimFloat.eqb area (-0x1.dc8a3d70a3d71p+7)%float)) in Hc.
  vm_compute in Hc. discriminate.
Qed.

Lemma reverseSubpath_negates_area_witness :
  strict_eq (getSignedAreaFontSpace 24%float (reverseSubpath Samples.quadrangle))
    (neg (getSignedAreaFontSpace 24%float Samples.quadrangle)) = true
  /\ isCW 24%float (reverseSubpath Samples.quadrangle)
     = lt (lit 0) (getSignedAreaFontSpace 24%float Samples.quadrangle).
Proof.
  apply (@reverseSubpath_negates_area 24%float Samples.quadrangle);
    vm_compute; reflexivity.
Defined.

(** A Move inside the subpath is lost in the reversal, and the area with
    it: [M 0 0 L 4 0 M 0 3 L 1 1 Z] has the area -4.5 and its reversal
    [M 1 1 L 0 3 L 0 0 Z] the area -1.5, neither of them rounded. *)
Example reverseSubpath_inner_move :
  let subp := [MoveCommand 0 0; LineCommand 4 0; MoveCommand 0 3;
               LineCommand 1 1; CloseCommand]%float in
  reverseSubpath subp
  = [MoveCommand 1 1; LineCommand 0 3; LineCommand 0 0; CloseCommand]%float
  /\ getSignedAreaFontSpace 24%float subp = (-4.5)%float
  /\ getSignedAreaFontSpace 24%float (reverseSubpath subp) = (-1.5)%float
  /\ Binary64.reversalIsExact 24%float subp = true.
Proof. repeat split; vm_compute; reflexivity. Qed.

(** Rounding can also leave the area its sign: the bow
    [M 1.5 19.7 L 17.5 6.5 L 13.2 19.7 L 14.2 6.5 Z] and its reversal both
    get the area 3.55e-15, which is the exact area of neither. *)
Example bow_areas :
  getSignedAreaFontSpace 24%float Samples.bow = 0x1p-48%float
  /\ getSignedAreaFontSpace 24%float (reverseSubpath Samples.bow) = 0x1p-48%float
  /\ Binary64.areaIsExact 24%float Samples.bow = false
  /\ Binary64.areaIsExact 24%float (reverseSubpath Samples.bow) = false.
Proof. repeat split; vm_compute; reflexivity. Qed.

(** So the normalizer, asked for a clockwise outer contour, reverses the
    bow, and reverses it back the next time. *)
Example bow_normalized :
  getNormalizedWindingForFont true (Samples.path24 Samples.bow)
  = reverseSubpath Samples.bow
  /\ getNormalizedWindingForFont true (Samples.path24 (reverseSubpath Samples.bow))
     = Samples.bow.
Proof. split; vm_compute; reflexivity. Qed.

(** The segment is handed back reversed, and reversed again the next
    time. *)
Example segment_normalized :
  getNormalizedWindingForFont true Samples.segment = commands Samples.segmentBack
  /\ getNormalizedWindingForFont true Samples.segmentBack = commands Samples.segment.
Proof. split; vm_compute; reflexivity. Qed.

(** C3, as stated, fails: [M 0 0 L 1 0] normalizes (outer clockwise) to
    [M 1 0 L 0 0], and that normalizes to [M 0 0 L 1 0] again. *)
Lemma normalization_not_idempotent :
  ~ (forall (outerShouldBeCW : bool) (p p' : IconPath float),
       height p' = height p ->
       commands p' = getNormalizedWindingForFont outerShouldBeCW p ->
       getNormalizedWindingForFont outerShouldBeCW p' = commands p').
Proof.
  intro Hc.
  specialize (Hc true Samples.segment Samples.segmentBack (eq_refl _)).
  assert (Hn : commands Samples.segmentBack
               = getNormalizedWindingForFont true Samples.segment)
    by (vm_compute; reflexivity).
  specialize (Hc Hn).
  apply (f_equal (fun cmds =>
           match cmds with
           | MoveCommand x _ :: _ => PrimFloat.eqb x 1%float
           | _ => true
           end)) in Hc.
  vm_compute in Hc. discriminate.
Qed.

Lemma normalization_idempotent_witness :
  getNormalizedWindingForFont true
    (with_commands Samples.ring
       (getNormalizedWindingForFont true Samples.ring))
  = getNormalizedWindingForFont true Samples.ring.
Proof.
  apply (@normalization_idempotent true Samples.ring
           (with_commands Samples.ring
              (getNormalizedWindingForFont true Samples.ring)));
    [reflexivity | reflexivity | vm_compute; reflexivity |].
  intros _ first Hf. vm_compute in Hf. injection Hf as Hf. subst first.
  vm_compute. reflexivity.
Defined.

(** The segment comes out with no area, so not clockwise. *)
Example segment_not_clockwise :
  isCW 24%float (commands Samples.segmentBack) = false.
Proof. vm_compute. reflexivity. Qed.

(** With the outer contour to be counter-clockwise, the hole comes out
    counter-clockwise too. *)
Example hole_winds_as_outer :
  map (isCW 24%float)
    (splitSubpaths (getNormalizedWindingForFont false Samples.squareWithHole))
  = [false; false].
Proof. vm_compute. reflexivity. Qed.

(** A contour without area cannot be given a winding: the one-segment
    path [M 0 0 L 1 0], with the outer contour to be clockwise, comes out
    as [M 1 0 L 0 0], whose area is zero, so it is not clockwise. *)
Lemma normalized_winding_not_always_met :
  ~ (forall (outerShouldBeCW : bool) (p : IconPath float) (idx : nat)
            (subp' : list (IconPathCommand float)),
       nth_error (splitSubpaths (getNormalizedWindingForFont outerShouldBeCW p)) idx
       = Some subp' ->
       isCW (height p) subp' = requiredCW outerShouldBeCW idx).
Proof.
  intro Hc.
  specialize (Hc true Samples.segment 0%nat (commands Samples.segmentBack)).
  assert (Hn : nth_error
                 (splitSubpaths (getNormalizedWindingForFont true Samples.segment)) 0
               = Some (commands Samples.segmentBack))
    by (vm_compute; reflexivity).
  specialize (Hc Hn). vm_compute in Hc. discriminate.
Qed.

(** C1, at a path where the code departs from it: the ring has its outer
    contour counter-clockwise and its hole clockwise, which is what the
    policy requires when the outer contour is to be counter-clockwise
    ([outerShouldBeCW = false]); the normalizer leaves the outer contour
    as it is and reverses the hole, which comes out counter-clockwise,
    as the outer contour. *)
Example hole_reversed_against_policy :
  map (isCW 24%float) (splitSubpaths (getOpenTypeCommands Samples.ring))
  = [false; true]
  /\ map (requiredCW false) [0; 1]%nat = [false; true]
  /\ getNormalizedWindingForFont false Samples.ring
     = [MoveCommand 0 0; LineCommand 0 24; LineCommand 24 24;
        LineCommand 24 0; CloseCommand;
        MoveCommand 6 18; LineCommand 18 18; LineCommand 18 6;
        LineCommand 6 6; CloseCommand]%float
  /\ map (isCW 24%float)
       (splitSubpaths (getNormalizedWindingForFont false Samples.ring))
     = [false; false].
Proof. repeat split; vm_compute; reflexivity. Qed.

(** ** The degenerate arcs *)

Section ArcFacts.

Context {num : Type} `{Arith num} {JM : JSMath num}.

(** C5: when the start point equals the end point [arcToCubic] returns
    no segment; when the points differ and a radius is zero it returns
    exactly one cubic, whose first control point is the start point and
    whose second control point is the end point, so that both lie on
    the line through the endpoints. *)
Theorem arcToCubic_degenerate
  (x0 y0 rx ry xAxisRotation largeArcFlag sweepFlag x y : num) :
  (strict_eq x0 x && strict_eq y0 y = true ->
   arcToCubic x0 y0 rx ry xAxisRotation largeArcFlag sweepFlag x y = [])
  /\ (strict_eq x0 x && strict_eq y0 y = false ->
      strict_eq rx (lit 0) || strict_eq ry (lit 0) = true ->
      arcToCubic x0 y0 rx ry xAxisRotation largeArcFlag sweepFlag x y
      = [CubicCommand x0 y0 x y x y]).
Proof.
  unfold arcToCubic. split.
  - intro Hsame. now rewrite Hsame.
  - intros Hdiff Hzero. now rewrite Hdiff, Hzero.
Qed.

End ArcFacts.

(** ** The square of the full canvas, projected *)

Section ProjectionFacts.

Local Open Scope float_scope.

(** C2: the square covering (0,0) to (24,24) of a 24 by 24 path, projected
    with ascender 800 and descender -200, has the font-space bounding box
    (0,-200) to (1000,800); scaled by 0.5 about the canvas center first, it
    has the bounding box (250,50) to (750,550). *)
Theorem full_canvas_square_projected :
  let square := rect (plainRect 0 0 24 24) (newIconPath 24 24) in
  getBoundingBox (toOpenTypePath 800 (-200) square)
  = Some {| minX := 0; minY := -200; maxX := 1000; maxY := 800 |}
  /\ getBoundingBox (toOpenTypePath 800 (-200) (scale_default 0.5 (clone square)))
     = Some {| minX := 250; minY := 50; maxX := 750; maxY := 550 |}.
Proof. split; vm_compute; reflexivity. Qed.

(** The earlier projector agrees on the full square, and puts the
    half-size square at the top of the em. *)
Example full_canvas_square_anchored :
  let square := rect (plainRect 0 0 24 24) (newIconPath 24 24) in
  getBoundingBox (toOpenTypePath_anchored 800 (-200) square)
  = Some {| minX := 0; minY := -200; maxX := 1000; maxY := 800 |}
  /\ getBoundingBox
       (toOpenTypePath_anchored 800 (-200) (scale_default 0.5 (clone square)))
     = Some {| minX := 250; minY := 300; maxX := 750; maxY := 800 |}.
Proof. split; vm_compute; reflexivity. Qed.

(** ** The pen of the canonicalizer after a Close *)

(** C6, at a path where the code departs from it: after [M 0 0 L 5 5 Z] the
    current point is the start (0,0) of the subpath, as [getCurrentPoint]
    returns it, but the canonicalizer still has its pen at (5,5), and turns
    the T that follows into a Q with the control point (5,5). *)
Example canonicalizer_pen_after_close :
  getCurrentPoint
    (Samples.path24 [MoveCommand 0 0; LineCommand 5 5; CloseCommand])
  = {| px := 0; py := 0 |}
  /\ getOpenTypeCommands
       (Samples.path24
          [MoveCommand 0 0; LineCommand 5 5; CloseCommand; SmoothQuadCommand 1 1])
     = [MoveCommand 0 0; LineCommand 5 5; CloseCommand; QuadCommand 5 5 1 1].
Proof. split; vm_compute; reflexivity. Qed.

End ProjectionFacts.

(** ** Textual coordinates are checked before anything is pushed *)

Section TextualFacts.

Context {num : Type} `{Arith num} {J : JSNumber num} {JM : JSMath num}.
Implicit Types p : IconPath num.

Lemma parseFloatPart_noNumber (part : option (list ascii)) :
  noNumber part = true -> parseFloatPart part = None.
Proof.
  unfold noNumber, parseFloatPart.
  destruct part as [chars|]; [|reflexivity].
  destruct (JSString.parseFloat chars); simpl; [discriminate | reflexivity].
Qed.

Lemma parseFloatPart_number (part : option (list ascii)) :
  noNumber part = false -> exists x : num, parseFloatPart part = Some x.
Proof.
  unfold noNumber, parseFloatPart.
  destruct part as [chars|]; [|discriminate].
  destruct (JSString.parseFloat chars); simpl; [eauto | discriminate].
Qed.

Lemma push_appends (cmd : IconPathCommand num) p :
  push cmd p = with_commands p (commands p ++ [cmd]).
Proof. reflexivity. Qed.

Ltac number part x E :=
  let Ex := fresh "Ex" in
  destruct (noNumber part) eqn:E;
  [ rewrite ?(parseFloatPart_noNumber _ E)
  | destruct (parseFloatPart_number _ E) as [x Ex]; rewrite ?Ex ].

Lemma samePart_eq (a b : option (list ascii)) : samePart a b = true -> a = b.
Proof.
  destruct a as [x|], b as [y|]; simpl; try discriminate; try reflexivity.
  intro E. apply String.eqb_eq in E.
  apply (f_equal list_ascii_of_string) in E.
  rewrite !list_ascii_of_string_of_list_ascii in E. now subst.
Qed.

Lemma splitsAlike_parts coords :
  splitsAlike coords = true ->
  nth_error (spaceParts coords) 0 = nth_error (wsParts coords) 0
  /\ nth_error (spaceParts coords) 1 = nth_error (wsParts coords) 1.
Proof.
  unfold splitsAlike. intro E. apply andb_true_iff in E as [E0 E1].
  split; apply samePart_eq; assumption.
Qed.

Lemma ms_validates coords p :
  splitsAlike coords = true ->
  (rejects OpMs coords = true ->
   exists prefix, ms coords p = Threw (message prefix coords) p)
  /\ (rejects OpMs coords = false ->
      exists cmds, ms coords p = Returned (with_commands p (commands p ++ cmds))).
Proof.
  intro Hs. destruct (splitsAlike_parts _ Hs) as [P0 P1].
  unfold rejects, ms, partsOf. rewrite <- P0, <- P1.
  number (nth_error (spaceParts coords) 0) x0 E0;
    number (nth_error (spaceParts coords) 1) x1 E1;
    simpl; split; intro Hr; try discriminate; eauto;
    eexists; unfold m; rewrite push_appends; reflexivity.
Qed.

Lemma ls_validates coords p :
  splitsAlike coords = true ->
  (rejects OpLs coords = true ->
   exists prefix, ls coords p = Threw (message prefix coords) p)
  /\ (rejects OpLs coords = false ->
      exists cmds, ls coords p = Returned (with_commands p (commands p ++ cmds))).
Proof.
  intro Hs. destruct (splitsAlike_parts _ Hs) as [P0 P1].
  unfold rejects, ls, partsOf. rewrite <- P0, <- P1.
  number (nth_error (spaceParts coords) 0) x0 E0;
    number (nth_error (spaceParts coords) 1) x1 E1;
    simpl; split; intro Hr; try discriminate; eauto;
    eexists; unfold l; rewrite push_appends; reflexivity.
Qed.

(** [ms] and [ls] on any input: an error that quotes the input and an
    untouched path, or one command more. *)
Lemma ms_throws_or_appends coords p :
  (exists prefix, ms coords p = Threw (message prefix coords) p)
  \/ (exists cmds, ms coords p = Returned (with_commands p (commands p ++ cmds))).
Proof.
  unfold ms.
  destruct (parseFloatPart (nth_error (spaceParts coords) 0)) as [x|];
    [destruct (parseFloatPart (nth_error (spaceParts coords) 1)) as [y|]|];
    simpl; eauto.
  right. eexists. unfold m. rewrite push_appends. reflexivity.
Qed.

Lemma ls_throws_or_appends coords p :
  (exists prefix, ls coords p = Threw (message prefix coords) p)
  \/ (exists cmds, ls coords p = Returned (with_commands p (commands p ++ cmds))).
Proof.
  unfold ls.
  destruct (parseFloatPart (nth_error (spaceParts coords) 0)) as [x|];
    [destruct (parseFloatPart (nth_error (spaceParts coords) 1)) as [y|]|];
    simpl; eauto.
  right. eexists. unfold l. rewrite push_appends. reflexivity.
Qed.


Ltac finish_validation :=
  simpl; split; intro Hr; try discriminate; eauto;
  eexists; unfold q, c, t, s, a; rewrite ?push_appends; reflexivity.

Lemma qs_validates coords p :
  (rejects OpQs coords = true ->
   exists prefix, qs coords p = Threw (message prefix coords) p)
  /\ (rejects OpQs coords = false ->
      exists cmds, qs coords p = Returned (with_commands p (commands p ++ cmds))).
Proof.
  unfold rejects, qs, partsOf.
  destruct (parts coords) as [|p0 [|p1 [|p2 [|p3 [|p4 ps]]]]];
    try (simpl; split; intro Hr; try discriminate; eauto; fail).
  cbn [List.length Nat.eqb negb nth_error existsb]. cbv iota.
  rewrite orb_false_r.
  number (Some p0) x0 E0; number (Some p1) x1 E1;
    number (Some p2) x2 E2; number (Some p3) x3 E3; finish_validation.
Qed.

Lemma ss_validates coords p :
  (rejects OpSs coords = true ->
   exists prefix, ss coords p = Threw (message prefix coords) p)
  /\ (rejects OpSs coords = false ->
      exists cmds, ss coords p = Returned (with_commands p (commands p ++ cmds))).
Proof.
  unfold rejects, ss, partsOf.
  destruct (parts coords) as [|p0 [|p1 [|p2 [|p3 [|p4 ps]]]]];
    try (simpl; split; intro Hr; try discriminate; eauto; fail).
  cbn [List.length Nat.eqb negb nth_error existsb]. cbv iota.
  rewrite orb_false_r.
  number (Some p0) x0 E0; number (Some p1) x1 E1;
    number (Some p2) x2 E2; number (Some p3) x3 E3; finish_validation.
Qed.

Lemma ts_validates coords p :
  (rejects OpTs coords = true ->
   exists prefix, ts coords p = Threw (message prefix coords) p)
  /\ (rejects OpTs coords = false ->
      exists cmds, ts coords p = Returned (with_commands p (commands p ++ cmds))).
Proof.
  unfold rejects, ts, partsOf.
  destruct (parts coords) as [|p0 [|p1 [|p2 ps]]];
    try (simpl; split; intro Hr; try discriminate; eauto; fail).
  cbn [List.length Nat.eqb negb nth_error existsb]. cbv iota.
  rewrite orb_false_r.
  number (Some p0) x0 E0; number (Some p1) x1 E1; finish_validation.
Qed.

Lemma cs_validates coords p :
  (rejects OpCs coords = true ->
   exists prefix, cs coords p = Threw (message prefix coords) p)
  /\ (rejects OpCs coords = false ->
      exists cmds, cs coords p = Returned (with_commands p (commands p ++ cmds))).
Proof.
  unfold rejects, cs, partsOf.
  destruct (parts coords) as [|p0 [|p1 [|p2 [|p3 [|p4 [|p5 [|p6 ps]]]]]]];
    try (simpl; split; intro Hr; try discriminate; eauto; fail).
  cbn [List.length Nat.eqb negb nth_error existsb]. cbv iota.
  rewrite orb_false_r.
  number (Some p0) x0 E0; number (Some p1) x1 E1;
    number (Some p2) x2 E2; number (Some p3) x3 E3;
    number (Some p4) x4 E4; number (Some p5) x5 E5; finish_validation.
Qed.

Lemma as_validates coords p :
  (rejects OpAs coords = true ->
   exists prefix, as_ coords p = Threw (message prefix coords) p)
  /\ (rejects OpAs coords = false ->
      exists cmds, as_ coords p = Returned (with_commands p (commands p ++ cmds))).
Proof.
  unfold rejects, as_, partsOf, noFlag.
  destruct (parts coords) as [|p0 [|p1 [|p2 [|p3 [|p4 [|p5 [|p6 [|p7 ps]]]]]]]];
    try (simpl; split; intro Hr; try discriminate; eauto; fail).
  cbn [List.length Nat.eqb negb nth_error]. cbv iota.
  number (Some p0) x0 E0; number (Some p1) x1 E1; number (Some p2) x2 E2;
    number (Some p5) x5 E5; number (Some p6) x6 E6;
    destruct (parseIntPart (Some p3)) as [large|];
    destruct (parseIntPart (Some p4)) as [sweep|];
    simpl notAFlag;
    try destruct (strict_eq large (lit 0) || strict_eq large (lit 1));
    try destruct (strict_eq sweep (lit 0) || strict_eq sweep (lit 1));
    finish_validation.
Qed.

Lemma throws_or_appends_of (op : TextualOp) (coords : string) p :
  ((rejects op coords = true ->
    exists prefix : string,
      runTextual op coords p = Threw (message prefix coords) p)
   /\ (rejects op coords = false ->
       exists cmds : list (IconPathCommand num),
         runTextual op coords p = Returned (with_commands p (commands p ++ cmds)))) ->
  (exists prefix : string,
     runTextual op coords p = Threw (message prefix coords) p)
  \/ (exists cmds : list (IconPathCommand num),
        runTextual op coords p = Returned (with_commands p (commands p ++ cmds))).
Proof.
  intros [Ht Hf]. destruct (rejects op coords); [left | right]; auto.
Qed.

(** C7, as amended: on every input each textual operation either throws
    an error whose message ends with the input in quotes, the path left
    as it was, or returns with commands appended.  It throws exactly
    when it rejects the input: [qs], [cs], [ts], [ss] and [as] when the
    trimmed input, commas read as blanks, does not split at white space
    into exactly as many parts as the operation takes numbers, or a part
    does not start with a number ([as]: or a flag is not 0 or 1); [ms]
    and [ls] when one of the first two parts of the trimmed input, split
    at white space, is missing or does not start with a number, which is
    stated of the inputs whose first two parts are the same when split
    at single blanks. *)
Theorem textual_operation_validates (op : TextualOp) (coords : string) p :
  ((exists prefix : string,
      runTextual op coords p = Threw (message prefix coords) p)
   \/ (exists cmds : list (IconPathCommand num),
         runTextual op coords p = Returned (with_commands p (commands p ++ cmds))))
  /\ (splitsAsDocumented op coords = true ->
      (rejects op coords = true ->
       exists prefix : string,
         runTextual op coords p = Threw (message prefix coords) p)
      /\ (rejects op coords = false ->
          exists cmds : list (IconPathCommand num),
            runTextual op coords p
            = Returned (with_commands p (commands p ++ cmds)))).
Proof.
  destruct op; simpl runTextual; simpl splitsAsDocumented.
  - split; [apply ms_throws_or_appends | apply ms_validates].
  - split; [apply ls_throws_or_appends | apply ls_validates].
  - split; [apply (throws_or_appends_of OpQs) | intros _]; apply qs_validates.
  - split; [apply (throws_or_appends_of OpCs) | intros _]; apply cs_validates.
  - split; [apply (throws_or_appends_of OpTs) | intros _]; apply ts_validates.
  - split; [apply (throws_or_appends_of OpSs) | intros _]; apply ss_validates.
  - split; [apply (throws_or_appends_of OpAs) | intros _]; apply as_validates.
Qed.

End TextualFacts.

Section TextualSamples.

Local Open Scope string_scope.

(** Three tokens where two are asked for, and a token that is no number
    but starts with one: both are taken. *)
Example textual_inputs_taken :
  ms "1 2 3" (newIconPath 24%float 24%float)
  = Returned (Samples.path24 [MoveCommand 1%float 2%float])
  /\ qs "1 2 3 4px" (newIconPath 24%float 24%float)
     = Returned (Samples.path24 [QuadCommand 1%float 2%float 3%float 4%float]).
Proof. split; vm_compute; reflexivity. Qed.

(** The no-break space U+00A0 is white space to [trim], to the split and
    to [parseFloat]: with it between the first two numbers [qs] reads
    four parts, and with it before a fifth number it reads five. *)
Example no_break_space_splits :
  let nbsp := String (ascii_of_nat 160) EmptyString in
  qs ("1" ++ nbsp ++ "2 3 4") (newIconPath 24%float 24%float)
  = Returned (Samples.path24 [QuadCommand 1%float 2%float 3%float 4%float])
  /\ qs ("1 2 3 4" ++ nbsp ++ "5") (newIconPath 24%float 24%float)
     = Threw (message "Invalid coordinates string for Q: "
                ("1 2 3 4" ++ nbsp ++ "5"))
         (newIconPath 24%float 24%float).
Proof. split; vm_compute; reflexivity. Qed.

(** [ms] splits at single blanks, not at white space as documented: two
    numbers two blanks apart are refused, the second part being empty. *)
Example ms_splits_at_single_blanks :
  splitsAlike "1  2" = false
  /\ rejects (num := float) OpMs "1  2" = false
  /\ ms "1  2" (newIconPath 24%float 24%float)
     = Threw (message "Invalid coordinates string: " "1  2")
         (newIconPath 24%float 24%float).
Proof. repeat split; vm_compute; reflexivity. Qed.

(** C7, as stated, fails: [ms] is given three tokens, ["1 2 3"], a wrong
    token count for a move, and does not throw: it pushes [M 1 2]. *)
Lemma wrong_token_count_not_thrown :
  ~ (forall (coords : string) (p : IconPath float),
       List.length (tokens coords) <> arity OpMs ->
       exists msg : string, ms coords p = Threw msg p).
Proof.
  intro Hc.
  destruct (Hc "1 2 3" (newIconPath 24%float 24%float)) as [msg Hm].
  - vm_compute. discriminate.
  - vm_compute in Hm. discriminate.
Qed.

End TextualSamples.

(** ** Reversal is a round trip *)

Section ReversalRoundTrip.

Context {num : Type} `{Arith num}.

Local Abbreviation Cmd := (IconPathCommand num).

Lemma reversedCommand_canonical (cmd : Cmd) (prev : Point num) (out : list Cmd) :
  isOpenType cmd = true -> reversedCommand cmd prev out = reversedCommand cmd prev [].
Proof. destruct cmd; simpl; intro Hc; try discriminate; reflexivity. Qed.

Lemma endAfter_app (xs ys : list Cmd) :
  forall prev : Point num, endAfter prev (xs ++ ys) = endAfter (endAfter prev xs) ys.
Proof. induction xs as [|x xs IH]; intro prev; simpl; [reflexivity|apply IH]. Qed.

Lemma reversedRun_app (xs ys : list Cmd) :
  forall prev : Point num,
    reversedRun prev (xs ++ ys)
    = reversedRun (endAfter prev xs) ys ++ reversedRun prev xs.
Proof.
  induction xs as [|x xs IH]; intro prev; simpl.
  - now rewrite app_nil_r.
  - rewrite IH. now rewrite app_assoc.
Qed.

Lemma endAfter_designPoints (xs : list Cmd) :
  forall prev : Point num,
    forallb isOpenType xs = true ->
    endAfter prev xs = last (designPoints xs) prev.
Proof.
  induction xs as [|x xs IH]; intros prev Hc; [reflexivity|].
  simpl in Hc. apply andb_prop in Hc. destruct Hc as [Hx Hc].
  destruct x; try discriminate; simpl; rewrite (IH _ Hc);
    try reflexivity;
    (destruct (designPoints xs) as [|pt pts] eqn:E; [reflexivity|];
     apply last_indep; discriminate).
Qed.

Lemma reverseLoop_run (subp : list Cmd) (first : Point num) :
  forallb isOpenType subp = true ->
  forall (i : nat) (out : list Cmd),
    reverseLoop subp (endpointsLoop (lit 0) (lit 0) subp) first i out
    = out ++ reversedRun first (firstn i subp).
Proof.
  intros Hc i. induction i as [|j IH]; intro out.
  - simpl. now rewrite app_nil_r.
  - simpl reverseLoop. rewrite IH. rewrite (firstn_S_nth subp j).
    destruct (nth_error subp j) as [cmd|] eqn:Ej.
    + rewrite reversedRun_app. simpl reversedRun.
      rewrite (@prevEndpoint_last _ _ subp first j Hc).
      rewrite (endAfter_designPoints (firstn j subp) first (forallb_firstn _ _ j Hc)).
      assert (Hcmd : isOpenType cmd = true).
      { apply nth_error_In in Ej. rewrite forallb_forall in Hc. now apply Hc. }
      rewrite (reversedCommand_canonical cmd _ out Hcmd).
      now rewrite <- app_assoc.
    + now rewrite app_nil_r.
Qed.

Lemma reverseSubpath_run (x y : num) (rest : list Cmd) :
  forallb isOpenType rest = true ->
  let first := {| px := x; py := y |} in
  let lastv := endAfter first rest in
  reverseSubpath (MoveCommand x y :: rest)
  = MoveCommand (px lastv) (py lastv)
      :: reversedRun first rest
      ++ (if existsb isZ rest then [CloseCommand] else []).
Proof.
  intros Hc first lastv.
  assert (Hc' : forallb isOpenType (MoveCommand x y :: rest) = true) by exact Hc.
  unfold reverseSubpath.
  assert (Hv : vertsOf (endpointsLoop (lit 0) (lit 0) (MoveCommand x y :: rest))
               = first :: designPoints rest).
  { rewrite (vertsOf_endpointsLoop _ (lit 0) (lit 0) Hc'). reflexivity. }
  rewrite Hv.
  rewrite (reverseLoop_run _ first Hc').
  rewrite firstn_all.
  change (reversedRun first (MoveCommand x y :: rest))
    with (reversedRun first rest ++ []).
  rewrite app_nil_r.
  assert (Hl : last (first :: designPoints rest) first = lastv).
  { unfold lastv. rewrite (endAfter_designPoints rest first Hc).
    destruct (designPoints rest) as [|pt pts]; [reflexivity|].
    change (last (first :: pt :: pts) first) with (last (pt :: pts) first).
    reflexivity. }
  rewrite Hl. reflexivity.
Qed.

Lemma endAfter_reversedRun (draws : list Cmd) (prev q : Point num) :
  forallb isDraw draws = true ->
  endAfter q (reversedRun prev draws)
  = match draws with [] => q | _ => prev end.
Proof.
  destruct draws as [|d rest]; intro Hd; [reflexivity|].
  simpl reversedRun. rewrite endAfter_app.
  simpl in Hd. apply andb_prop in Hd. destruct Hd as [Hd _].
  destruct d; try discriminate; simpl; now destruct prev.
Qed.

Lemma reversedRun_involutive (draws : list Cmd) :
  forallb isDraw draws = true ->
  forall prev : Point num,
    reversedRun (endAfter prev draws) (reversedRun prev draws) = draws.
Proof.
  induction draws as [|d rest IH]; intros Hd prev; [reflexivity|].
  simpl in Hd. apply andb_prop in Hd. destruct Hd as [Hd Hrest].
  simpl reversedRun. simpl endAfter.
  set (ep := match endpointOf d with Some ep => ep | None => prev end).
  rewrite reversedRun_app, (IH Hrest ep).
  rewrite (@endAfter_reversedRun rest ep (endAfter ep rest) Hrest).
  assert (He : match rest with [] => endAfter ep rest | _ => ep end = ep)
    by (destruct rest; reflexivity).
  rewrite He. subst ep.
  destruct d; try discriminate; reflexivity.
Qed.

Lemma reversedRun_draws (cmds : list Cmd) :
  forall prev : Point num, forallb isDraw (reversedRun prev cmds) = true.
Proof.
  induction cmds as [|cmd rest IH]; intro prev; [reflexivity|].
  simpl. rewrite forallb_app, IH. destruct cmd; reflexivity.
Qed.

Lemma reversedRun_length (draws : list Cmd) :
  forallb isDraw draws = true ->
  forall prev : Point num,
    List.length (reversedRun prev draws) = List.length draws.
Proof.
  induction draws as [|d rest IH]; intros Hd prev; [reflexivity|].
  simpl in Hd. apply andb_prop in Hd. destruct Hd as [Hd Hrest].
  simpl. rewrite length_app, (IH Hrest).
  destruct d; try discriminate; simpl; lia.
Qed.

(** A canonical subpath after its Move: draws, then a Close if it has
    one. *)
Lemma subpath_draws (cmd : Cmd) (rest : list Cmd) :
  forallb isOpenType rest = true ->
  isSubpath (cmd :: rest) = true ->
  exists draws : list Cmd,
    forallb isDraw draws = true
    /\ rest = draws ++ (if existsb isZ rest then [CloseCommand] else []).
Proof.
  intros Hc Hs. unfold isSubpath in Hs.
  apply andb_prop in Hs. destruct Hs as [Hs Hz].
  apply andb_prop in Hs. destruct Hs as [_ Hm].
  unfold movesOnlyFirst in Hm. simpl in Hm.
  destruct rest as [|c0 rest0] using rev_ind.
  - exists []. split; reflexivity.
  - clear IHrest0.
    unfold closesOnlyLast in Hz.
    change (cmd :: rest0 ++ [c0]) with ((cmd :: rest0) ++ [c0]) in Hz.
    rewrite removelast_snoc in Hz. simpl in Hz.
    apply andb_prop in Hz. destruct Hz as [_ Hz].
    rewrite forallb_app in Hc, Hm.
    apply andb_prop in Hc. destruct Hc as [Hc Hc0].
    apply andb_prop in Hm. destruct Hm as [Hm Hm0].
    simpl in Hc0, Hm0.
    assert (Hd : forallb isDraw rest0 = true).
    { rewrite forallb_forall in *. intros x Hx.
      specialize (Hc x Hx). specialize (Hm x Hx). specialize (Hz x Hx).
      destruct x; try discriminate; reflexivity. }
    assert (Hnz : existsb isZ rest0 = false).
    { destruct (existsb isZ rest0) eqn:E; [|reflexivity].
      rewrite existsb_exists in E. destruct E as [x [Hx Hzx]].
      rewrite forallb_forall in Hz. specialize (Hz x Hx).
      rewrite Hzx in Hz. discriminate. }
    rewrite existsb_app, Hnz. simpl.
    destruct c0; try discriminate.
    + exists (rest0 ++ [LineCommand x y]). simpl. rewrite app_nil_r.
      split; [|reflexivity]. rewrite forallb_app, Hd. reflexivity.
    + exists (rest0 ++ [QuadCommand x1 y1 x y]). simpl. rewrite app_nil_r.
      split; [|reflexivity]. rewrite forallb_app, Hd. reflexivity.
    + exists (rest0 ++ [CubicCommand x1 y1 x2 y2 x y]). simpl. rewrite app_nil_r.
      split; [|reflexivity]. rewrite forallb_app, Hd. reflexivity.
    + exists rest0. split; [exact Hd|reflexivity].
Qed.

(** The reversal of a canonical subpath that starts with a Move, by its
    parts. *)
Lemma reverseSubpath_parts (x y : num) (draws : list Cmd) (closed : bool) :
  forallb isDraw draws = true ->
  let first := {| px := x; py := y |} in
  let lastv := endAfter first draws in
  reverseSubpath (MoveCommand x y :: draws ++ (if closed then [CloseCommand] else []))
  = MoveCommand (px lastv) (py lastv)
      :: reversedRun first draws ++ (if closed then [CloseCommand] else []).
Proof.
  intros Hd first lastv.
  assert (Hc : forallb isOpenType (draws ++ (if closed then [CloseCommand] else []))
               = true).
  { rewrite forallb_app, (isDraw_isOpenType _ Hd). now destruct closed. }
  rewrite (reverseSubpath_run x y _ Hc).
  rewrite endAfter_app, reversedRun_app, existsb_app.
  assert (Hnz : existsb isZ draws = false).
  { pose proof (isDraw_notZ _ Hd) as Hz.
    destruct (existsb isZ draws) eqn:E; [|reflexivity].
    rewrite existsb_exists in E. destruct E as [c0 [Hx Hzx]].
    rewrite forallb_forall in Hz. specialize (Hz c0 Hx).
    rewrite Hzx in Hz. discriminate. }
  rewrite Hnz. destruct closed; reflexivity.
Qed.

Lemma subpath_parts (subp : list Cmd) :
  forallb isOpenType subp = true ->
  isSubpath subp = true ->
  startsWithM subp = true ->
  exists (x y : num) (draws : list Cmd) (closed : bool),
    forallb isDraw draws = true
    /\ subp = MoveCommand x y :: draws ++ (if closed then [CloseCommand] else []).
Proof.
  intros Hc Hs Hm.
  destruct subp as [|cmd rest]; [discriminate|].
  destruct cmd; try discriminate.
  simpl in Hc.
  destruct (subpath_draws (MoveCommand x y) rest Hc Hs) as [draws [Hd Hr]].
  exists x, y, draws, (existsb isZ rest). split; [exact Hd|]. now rewrite <- Hr.
Qed.

(** X2: reversing a subpath twice gives it back: for a canonical subpath
    (M, L, Q, C, Z only) that starts with a Move, has no other Move and a
    Close at most at its end, [reverseSubpath (reverseSubpath sub)] is
    [sub], command by command, in the program's own arithmetic. *)
Theorem reverseSubpath_round_trip (subp : list Cmd) :
  forallb isOpenType subp = true ->
  isSubpath subp = true ->
  startsWithM subp = true ->
  reverseSubpath (reverseSubpath subp) = subp.
Proof.
  intros Hc Hs Hm.
  destruct (subpath_parts subp Hc Hs Hm) as (x & y & draws & closed & Hd & ->).
  rewrite (reverseSubpath_parts x y draws closed Hd).
  set (first := {| px := x; py := y |}).
  rewrite (reverseSubpath_parts _ _ _ closed (reversedRun_draws draws first)).
  assert (Hp : {| px := px (endAfter first draws); py := py (endAfter first draws) |}
               = endAfter first draws) by (now destruct (endAfter first draws)).
  rewrite Hp.
  rewrite (reversedRun_involutive draws Hd first).
  rewrite (endAfter_reversedRun draws first (endAfter first draws) Hd).
  destruct draws; reflexivity.
Qed.

(** X3: the reversal of such a subpath is again a canonical subpath that
    starts with a Move; it has as many commands as the subpath, and ends
    with a Close exactly when the subpath does. *)
Theorem reverseSubpath_keeps_subpath (subp : list Cmd) :
  forallb isOpenType subp = true ->
  isSubpath subp = true ->
  startsWithM subp = true ->
  forallb isOpenType (reverseSubpath subp) = true
  /\ isSubpath (reverseSubpath subp) = true
  /\ startsWithM (reverseSubpath subp) = true
  /\ endsWithZ (reverseSubpath subp) = endsWithZ subp
  /\ List.length (reverseSubpath subp) = List.length subp.
Proof.
  intros Hc Hs Hm.
  destruct (reverseSubpath_isSubpath subp Hs Hc) as (Hs' & Hc' & Hz' & Hm').
  repeat split; try assumption; [now apply Hm'|].
  destruct (subpath_parts subp Hc Hs Hm) as (x & y & draws & closed & Hd & ->).
  rewrite (reverseSubpath_parts x y draws closed Hd).
  simpl. rewrite !length_app, (reversedRun_length draws Hd). reflexivity.
Qed.

(** X4: the reversal visits the vertices of such a subpath (the endpoints
    of its M, L, Q and C commands) in the opposite order. *)
Theorem reverseSubpath_reverses_vertices (subp : list Cmd) :
  forallb isOpenType subp = true ->
  isSubpath subp = true ->
  startsWithM subp = true ->
  designPoints (reverseSubpath subp) = rev (designPoints subp).
Proof.
  intros Hc Hs Hm.
  rewrite (reverseSubpath_points subp Hc (isSubpath_movesOnlyFirst _ Hs)).
  destruct subp as [|cmd rest]; [discriminate|].
  destruct cmd; try discriminate.
  simpl closingVertex. simpl designPoints. now rewrite app_nil_r.
Qed.

End ReversalRoundTrip.

Lemma reverseSubpath_round_trip_witness :
  reverseSubpath (reverseSubpath Samples.quadrilateral) = Samples.quadrilateral.
Proof.
  apply (@reverseSubpath_round_trip float _ Samples.quadrilateral); reflexivity.
Defined.

Lemma reverseSubpath_keeps_subpath_witness :
  List.length (reverseSubpath Samples.quadrilateral)
  = List.length Samples.quadrilateral.
Proof.
  apply (@reverseSubpath_keeps_subpath float _ Samples.quadrilateral); reflexivity.
Defined.

Lemma reverseSubpath_reverses_vertices_witness :
  designPoints (reverseSubpath Samples.triangleQ)
  = rev (designPoints Samples.triangleQ).
Proof.
  apply (@reverseSubpath_reverses_vertices Qc _ Samples.triangleQ); reflexivity.
Defined.

(** ** Subpaths are cut and put together again *)

Section SubpathRoundTrip.

Context {num : Type} `{Arith num}.

Local Abbreviation Cmd := (IconPathCommand num).

(** X5: [splitSubpaths] cuts a command list without losing or adding a
    command: the parts, put end to end, are the list again.  Every part
    is non-empty, has a Move at most as its first command and a Close at
    most as its last, and a part that does not end with a Close is
    followed by one that starts with a Move. *)
Theorem splitSubpaths_partitions (cmds : list Cmd) :
  List.concat (splitSubpaths cmds) = cmds
  /\ forallb isSubpath (splitSubpaths cmds) = true
  /\ subpathsChain (splitSubpaths cmds) = true.
Proof.
  split; [apply splitSubpaths_concat_back | apply splitSubpaths_subpaths].
Qed.

(** X6: subpaths written one after the other are found again by
    [splitSubpaths]: for parts that each are non-empty with a Move at most
    in front and a Close at most at the end, where each part that does
    not end with a Close is followed by one that starts with a Move,
    splitting their concatenation gives exactly those parts. *)
Theorem splitSubpaths_recovers_subpaths (subpaths : list (list Cmd)) :
  forallb isSubpath subpaths = true ->
  subpathsChain subpaths = true ->
  splitSubpaths (List.concat subpaths) = subpaths.
Proof. intros Hs Hc. now apply splitSubpaths_concat. Qed.

(** X7: [getOpenTypeCommands] leaves a canonical command list as it is:
    a path that holds only M, L, Q, C and Z commands is returned
    unchanged, and so canonicalizing the output of the canonicalizer
    changes nothing. *)
Theorem getOpenTypeCommands_idempotent (p : IconPath num) :
  (forallb isOpenType (commands p) = true -> getOpenTypeCommands p = commands p)
  /\ getOpenTypeCommands (with_commands p (getOpenTypeCommands p))
     = getOpenTypeCommands p.
Proof.
  split.
  - intro Hc. unfold getOpenTypeCommands. now apply canonLoop_canonical.
  - unfold getOpenTypeCommands at 1. simpl commands.
    apply canonLoop_canonical. apply canonLoop_isOpenType.
Qed.

(** X8: in the program's own arithmetic, whatever the areas come out as,
    [getNormalizedWindingForFont] returns only M, L, Q, C and Z commands,
    and its output splits into as many subpaths as the canonical commands
    of the path, the subpath of each index being either the one it was
    or its reversal. *)
Theorem getNormalizedWindingForFont_by_subpath (flag : bool) (p : IconPath num) :
  let subpaths := splitSubpaths (getOpenTypeCommands p) in
  let out := getNormalizedWindingForFont flag p in
  forallb isOpenType out = true
  /\ List.length (splitSubpaths out) = List.length subpaths
  /\ forall (idx : nat) (subp : list Cmd),
       nth_error subpaths idx = Some subp ->
       nth_error (splitSubpaths out) idx = Some subp
       \/ nth_error (splitSubpaths out) idx = Some (reverseSubpath subp).
Proof.
  intros subpaths out. subst subpaths out.
  destruct (getNormalizedWindingForFont_split flag p) as [Hc Hs].
  split; [exact Hc|]. rewrite Hs. split.
  - apply normalizedParts_length.
  - intros idx subp Hn. rewrite normalizedParts_nth, Hn. simpl.
    unfold normalizeSub.
    destruct (needsReverse _ _ _ _); [now right | now left].
Qed.

End SubpathRoundTrip.

Lemma splitSubpaths_recovers_subpaths_witness :
  splitSubpaths (List.concat [Samples.triangleQ; Samples.triangleQ])
  = [Samples.triangleQ; Samples.triangleQ].
Proof.
  apply (@splitSubpaths_recovers_subpaths Qc [Samples.triangleQ; Samples.triangleQ]);
    reflexivity.
Defined.

(** ** What the canonicalizer passes on *)

Section CanonicalizerPasses.

Context {num : Type} `{Arith num}.

Local Abbreviation Cmd := (IconPathCommand num).

Lemma canonLoop_firstn (cmds : list Cmd) :
  forall (i : nat) (st : CanonState),
    canonLoop st (firstn i cmds) = firstn i (canonLoop st cmds).
Proof.
  induction cmds as [|cmd rest IH]; intros i st.
  - now rewrite !firstn_nil.
  - destruct i as [|i]; [reflexivity|].
    simpl. destruct (canonStep st cmd) as [st' o]. simpl. now rewrite IH.
Qed.

(** X21: [getOpenTypeCommands] passes every M, L, Q, C and Z of the path
    on unchanged, at its own index; an H becomes the L that keeps the
    pen's [y], and a V the L that keeps the pen's [x], the pen being at
    the [x] and the [y] of the latest commands before that have them (the
    origin when there is none). *)
Theorem getOpenTypeCommands_passes (p : IconPath num) :
  (forall (i : nat) (cmd : Cmd),
     nth_error (commands p) i = Some cmd ->
     isOpenType cmd = true ->
     nth_error (getOpenTypeCommands p) i = Some cmd)
  /\ (forall (i : nat) (x : num),
        nth_error (commands p) i = Some (HCommand x) ->
        nth_error (getOpenTypeCommands p) i
        = Some (LineCommand x (penY (historyAt (commands p) i))))
  /\ (forall (i : nat) (y : num),
        nth_error (commands p) i = Some (VCommand y) ->
        nth_error (getOpenTypeCommands p) i
        = Some (LineCommand (penX (historyAt (commands p) i)) y)).
Proof.
  repeat split.
  - intros i cmd Hi Hc. rewrite getOpenTypeCommands_nth, Hi. simpl.
    destruct cmd; try discriminate; reflexivity.
  - intros i x Hi. now rewrite getOpenTypeCommands_nth, Hi.
  - intros i y Hi. now rewrite getOpenTypeCommands_nth, Hi.
Qed.

(** X22: what [getOpenTypeCommands] makes of a command depends on the
    commands before it only: the canonical form of the first [i] commands
    of a path is the first [i] commands of its canonical form, so
    commands appended later never change the canonical form of the
    earlier ones. *)
Theorem getOpenTypeCommands_prefix (p : IconPath num) (i : nat) :
  getOpenTypeCommands (with_commands p (firstn i (commands p)))
  = firstn i (getOpenTypeCommands p).
Proof. unfold getOpenTypeCommands. simpl commands. apply canonLoop_firstn. Qed.

End CanonicalizerPasses.

(** ** The current point *)

Section CurrentPointFacts.

Context {num : Type} `{Arith num}.
Implicit Types p : IconPath num.

Local Abbreviation Cmd := (IconPathCommand num).

Lemma lastMove_snoc (cmds : list Cmd) (cmd : Cmd) :
  lastMove (cmds ++ [cmd])
  = match cmd with
    | MoveCommand x y => {| px := x; py := y |}
    | _ => lastMove cmds
    end.
Proof.
  unfold lastMove. rewrite rev_app_distr. simpl.
  destruct cmd; reflexivity.
Qed.

(** The loop of [getCurrentPoint] keeps the start of the subpath at the
    latest Move. *)
Lemma currentPoint_start (cmds : list Cmd) :
  snd (fold_left currentPointStep cmds ((lit 0, lit 0), (lit 0, lit 0)))
  = (px (lastMove cmds), py (lastMove cmds)).
Proof.
  induction cmds as [|cmd cmds IH] using rev_ind; [reflexivity|].
  rewrite fold_left_app, lastMove_snoc. simpl.
  destruct (fold_left currentPointStep cmds (lit 0, lit 0, (lit 0, lit 0)))
    as [[x y] [sx sy]].
  simpl in IH. destruct cmd; simpl; try exact IH; reflexivity.
Qed.

Lemma getCurrentPoint_push (cmd : Cmd) p :
  isZ cmd = false ->
  getCurrentPoint (push cmd p)
  = {| px := match cmd_x cmd with
             | Some x => x
             | None => px (getCurrentPoint p)
             end;
       py := match cmd_y cmd with
             | Some y => y
             | None => py (getCurrentPoint p)
             end |}.
Proof.
  intro Hz. unfold getCurrentPoint, push. simpl commands.
  rewrite fold_left_app. simpl.
  destruct (fold_left currentPointStep (commands p) (lit 0, lit 0, (lit 0, lit 0)))
    as [[x y] [sx sy]].
  destruct cmd; try discriminate; reflexivity.
Qed.

Lemma getCurrentPoint_close p : getCurrentPoint (close p) = lastMove (commands p).
Proof.
  unfold getCurrentPoint, close, push. simpl commands.
  rewrite fold_left_app. simpl.
  pose proof (currentPoint_start (commands p)) as Hs.
  destruct (fold_left currentPointStep (commands p) (lit 0, lit 0, (lit 0, lit 0)))
    as [[x y] [sx sy]].
  simpl in Hs. injection Hs as Hx Hy. subst sx sy.
  now destruct (lastMove (commands p)).
Qed.

(** The latest Move is not among draw commands. *)
Lemma lastMove_draws (cmds draws : list Cmd) :
  forallb isDraw draws = true -> lastMove (cmds ++ draws) = lastMove cmds.
Proof.
  induction draws as [|d draws IH] using rev_ind; intro Hd.
  - now rewrite app_nil_r.
  - rewrite forallb_app in Hd. apply andb_prop in Hd. destruct Hd as [Hd Hl].
    rewrite app_assoc, lastMove_snoc, (IH Hd).
    simpl in Hl. destruct d; try discriminate; reflexivity.
Qed.

(** X9: the current point follows the commands.  After a command other
    than a Close it has the [x] and the [y] of that command, each kept
    from before where the command has none (H has no [y], V no [x]); after
    a Close it is the point of the latest Move of the path, or the origin
    when the path has no Move. *)
Theorem getCurrentPoint_follows p :
  (forall cmd : Cmd,
     isZ cmd = false ->
     getCurrentPoint (push cmd p)
     = {| px := match cmd_x cmd with
                | Some x => x
                | None => px (getCurrentPoint p)
                end;
          py := match cmd_y cmd with
                | Some y => y
                | None => py (getCurrentPoint p)
                end |})
  /\ getCurrentPoint (close p) = lastMove (commands p).
Proof.
  split; [intros cmd Hz; now apply getCurrentPoint_push | apply getCurrentPoint_close].
Qed.

End CurrentPointFacts.

(** ** Arcs drawn from the current point *)

Section ArcBuilderFacts.

Context {num : Type} `{Arith num} {JM : JSMath num}.
Implicit Types p : IconPath num.

Lemma with_commands_same p : with_commands p (commands p) = p.
Proof. now destruct p. Qed.

Lemma arcSegments_cubics (cx cy rx ry cosPhi sinPhi dTheta : num) (rounds : nat) :
  forall (theta1 : num) (result : list (IconPathCommand num)),
    Forall (fun cmd => cmd_type cmd = TC) result ->
    Forall (fun cmd => cmd_type cmd = TC)
      (arcSegments cx cy rx ry cosPhi sinPhi dTheta rounds theta1 result).
Proof.
  induction rounds as [|rounds IH]; intros theta1 result Hr; [exact Hr|].
  simpl. apply IH. apply Forall_app. split; [exact Hr|].
  constructor; [reflexivity|constructor].
Qed.

Lemma arcToCubic_cubics (x0 y0 rx ry xAxisRotation largeArcFlag sweepFlag x y : num) :
  Forall (fun cmd => cmd_type cmd = TC)
    (arcToCubic x0 y0 rx ry xAxisRotation largeArcFlag sweepFlag x y).
Proof.
  unfold arcToCubic.
  destruct (strict_eq x0 x && strict_eq y0 y); [constructor|].
  destruct (strict_eq rx (lit 0) || strict_eq ry (lit 0)).
  - constructor; [reflexivity|constructor].
  - apply arcSegments_cubics. constructor.
Qed.

(** X10: [a] draws from the current point of the path and only appends
    cubic curves: whatever its arguments, the commands the path had stay
    as they are and every command added is a C.  An arc to the current
    point itself adds nothing; an arc to another point with a radius of
    zero adds the one cubic that runs straight from the current point to
    the target, its control points on the two ends. *)
Theorem arc_from_current_point (rx ry xAxisRotation largeArcFlag sweepFlag x y : num) p :
  let cp := getCurrentPoint p in
  (exists beziers : list (IconPathCommand num),
     a rx ry xAxisRotation largeArcFlag sweepFlag x y p
     = with_commands p (commands p ++ beziers)
     /\ Forall (fun cmd => cmd_type cmd = TC) beziers)
  /\ (strict_eq (px cp) x && strict_eq (py cp) y = true ->
      a rx ry xAxisRotation largeArcFlag sweepFlag x y p = p)
  /\ (strict_eq (px cp) x && strict_eq (py cp) y = false ->
      strict_eq rx (lit 0) || strict_eq ry (lit 0) = true ->
      a rx ry xAxisRotation largeArcFlag sweepFlag x y p
      = c (px cp) (py cp) x y x y p).
Proof.
  intro cp. split; [|split].
  - eexists. split; [reflexivity|]. apply arcToCubic_cubics.
  - intro Hsame. unfold a, arcToCubic. fold cp.
    rewrite Hsame, app_nil_r. apply with_commands_same.
  - intros Hdiff Hzero. unfold a, arcToCubic. fold cp.
    rewrite Hdiff, Hzero. reflexivity.
Qed.

End ArcBuilderFacts.

(** ** Shapes are appended as closed subpaths *)

Section CornerFacts.

Context {num : Type} `{JSNumber num}.
Implicit Types p : IconPath num.

Local Abbreviation Cmd := (IconPathCommand num).

(** A corner appends one or two draw commands. *)
Lemma corner_draws (side : Side) (x y : num) (cnr : Corner) p :
  exists cs : list Cmd,
    corner side x y cnr p = with_commands p (commands p ++ cs)
    /\ forallb isDraw cs = true
    /\ (1 <= List.length cs <= 2)%nat.
Proof.
  destruct cnr as [|rx ry|rx ry]; destruct side;
    unfold corner, q, l, push; simpl; rewrite <- ?app_assoc; simpl;
    eexists; (split; [reflexivity|]); (split; [reflexivity|simpl; lia]).
Qed.

(** The top-left corner ends where the rectangle starts. *)
Lemma corner_tl_ends (x y : num) (cnr : Corner) p :
  exists cs : list Cmd,
    corner tl x y cnr p = with_commands p (commands p ++ cs)
    /\ forallb isDraw cs = true
    /\ (1 <= List.length cs <= 2)%nat
    /\ forall prev : Point num,
         endAfter prev cs
         = match cnr with
           | rounded crx _ | chamfer crx _ => {| px := add x crx; py := y |}
           | sharp => {| px := x; py := y |}
           end.
Proof.
  destruct cnr as [|rx ry|rx ry];
    unfold corner, q, l, push; simpl; rewrite <- ?app_assoc; simpl;
    eexists; (split; [reflexivity|]); (split; [reflexivity|]);
    (split; [simpl; lia|reflexivity]).
Qed.

End CornerFacts.

Section ShapeFacts.

Context {num : Type} `{JSNumber num}.
Implicit Types p : IconPath num.

Local Abbreviation Cmd := (IconPathCommand num).

(** [rect] by its resolved corners. *)
Lemma rect_corners (config : Rect) p :
  exists ctl ctr cbr cbl : Corner,
    rect config p
    = let x := rect_x config in
      let y := rect_y config in
      let w := rect_width config in
      let hgt := rect_height config in
      close
        (corner tl x y ctl
           (corner bl x (add y hgt) cbl
              (corner br (add x w) (add y hgt) cbr
                 (corner tr (add x w) y ctr
                    (match ctl with
                     | rounded crx _ | chamfer crx _ => m (add x crx) y p
                     | sharp => m x y p
                     end))))).
Proof. unfold rect. cbv beta zeta. do 4 eexists. reflexivity. Qed.

(** X11: [rect] appends one closed subpath and nothing else: a Move,
    then four to eight draw commands (one or two for each corner), then
    a Close.  With corners that carry both their radii, the last draw
    command ends exactly on the point of the Move, so the Close adds no
    segment of its own, and the current point of the path is then that
    point. *)
Theorem rect_appends_closed_subpath (config : Rect) p :
  exists (x y : num) (draws : list Cmd),
    rect config p
    = with_commands p (commands p ++ MoveCommand x y :: draws ++ [CloseCommand])
    /\ forallb isDraw draws = true
    /\ (4 <= List.length draws <= 8)%nat
    /\ endAfter {| px := x; py := y |} draws = {| px := x; py := y |}
    /\ getCurrentPoint (rect config p) = {| px := x; py := y |}.
Proof.
  destruct (rect_corners config p) as (ctl & ctr & cbr & cbl & Hr).
  cbv zeta in Hr.
  set (x := rect_x config) in *. set (y := rect_y config) in *.
  set (w := rect_width config) in *. set (hgt := rect_height config) in *.
  set (start := match ctl with
                | rounded crx _ | chamfer crx _ => {| px := add x crx; py := y |}
                | sharp => {| px := x; py := y |}
                end).
  assert (Hm : match ctl with
               | rounded crx _ | chamfer crx _ => m (add x crx) y p
               | sharp => m x y p
               end = with_commands p (commands p ++ [MoveCommand (px start) (py start)]))
    by (subst start; destruct ctl; reflexivity).
  rewrite Hm in Hr. clear Hm.
  set (p0 := with_commands p (commands p ++ [MoveCommand (px start) (py start)])) in *.
  destruct (corner_draws tr (add x w) y ctr p0) as (c1 & E1 & D1 & L1).
  rewrite E1 in Hr.
  set (p1 := with_commands p0 (commands p0 ++ c1)) in *.
  destruct (corner_draws br (add x w) (add y hgt) cbr p1) as (c2 & E2 & D2 & L2).
  rewrite E2 in Hr.
  set (p2 := with_commands p1 (commands p1 ++ c2)) in *.
  destruct (corner_draws bl x (add y hgt) cbl p2) as (c3 & E3 & D3 & L3).
  rewrite E3 in Hr.
  set (p3 := with_commands p2 (commands p2 ++ c3)) in *.
  destruct (corner_tl_ends x y ctl p3) as (c4 & E4 & D4 & L4 & End4).
  rewrite E4 in Hr. fold start in End4.
  exists (px start), (py start), (c1 ++ c2 ++ c3 ++ c4).
  assert (Hd : forallb isDraw (c1 ++ c2 ++ c3 ++ c4) = true)
    by (rewrite !forallb_app, D1, D2, D3, D4; reflexivity).
  assert (Hcmds : rect config p
                  = close (with_commands p
                             (commands p ++ MoveCommand (px start) (py start)
                                :: c1 ++ c2 ++ c3 ++ c4))).
  { rewrite Hr. f_equal. subst p3 p2 p1 p0. unfold with_commands. simpl.
    f_equal. rewrite <- !app_assoc. reflexivity. }
  split; [|split; [exact Hd|split; [|split]]].
  - rewrite Hcmds. unfold close, push, with_commands. simpl.
    f_equal. rewrite <- app_assoc. reflexivity.
  - rewrite !length_app. lia.
  - rewrite !app_assoc, endAfter_app, End4. now destruct start.
  - rewrite Hcmds, getCurrentPoint_close. simpl commands.
    change (commands p ++ MoveCommand (px start) (py start) :: c1 ++ c2 ++ c3 ++ c4)
      with (commands p ++ [MoveCommand (px start) (py start)] ++ (c1 ++ c2 ++ c3 ++ c4)).
    rewrite app_assoc, (lastMove_draws _ _ Hd), lastMove_snoc. now destruct start.
Qed.

(** X12: [ellipse], and [circle] as the ellipse of equal radii, appends
    one closed subpath of four cubic curves: a Move to the leftmost
    point, four C commands, a Close.  The fourth curve ends exactly on
    the point of the Move, which is then the current point of the
    path. *)
Theorem ellipse_appends_closed_subpath (cx cy rx ry : num) p :
  exists draws : list Cmd,
    ellipse cx cy rx ry p
    = with_commands p
        (commands p ++ MoveCommand (sub cx rx) cy :: draws ++ [CloseCommand])
    /\ map cmd_type draws = [TC; TC; TC; TC]
    /\ endAfter {| px := sub cx rx; py := cy |} draws = {| px := sub cx rx; py := cy |}
    /\ getCurrentPoint (ellipse cx cy rx ry p) = {| px := sub cx rx; py := cy |}
    /\ circle cx cy rx p = ellipse cx cy rx rx p.
Proof.
  exists [CubicCommand (sub cx rx) (sub cy (mul ry kappa))
            (sub cx (mul rx kappa)) (sub cy ry) cx (sub cy ry);
          CubicCommand (add cx (mul rx kappa)) (sub cy ry)
            (add cx rx) (sub cy (mul ry kappa)) (add cx rx) cy;
          CubicCommand (add cx rx) (add cy (mul ry kappa))
            (add cx (mul rx kappa)) (add cy ry) cx (add cy ry);
          CubicCommand (sub cx (mul rx kappa)) (add cy ry)
            (sub cx rx) (add cy (mul ry kappa)) (sub cx rx) cy].
  split; [|split; [|split; [|split]]].
  - unfold ellipse, close, c, m, push, with_commands. cbv zeta. simpl.
    rewrite <- !app_assoc. reflexivity.
  - reflexivity.
  - reflexivity.
  - unfold ellipse. cbv zeta. rewrite getCurrentPoint_close.
    unfold c, m, push. simpl commands. rewrite <- !app_assoc. simpl.
    match goal with
    | |- lastMove (commands p ++ ?mv :: ?rest) = _ =>
        change (commands p ++ mv :: rest) with (commands p ++ [mv] ++ rest)
    end.
    rewrite app_assoc, lastMove_draws by reflexivity.
    now rewrite lastMove_snoc.
  - reflexivity.
Qed.

End ShapeFacts.

(** ** Merged paths and transforms *)

Section MergeFacts.

Context {num : Type} `{Arith num} {JM : JSMath num}.
Implicit Types p : IconPath num.

Lemma merge_loop (paths : list (IconPath num)) :
  forall acc : IconPath num,
    fold_left
      (fun merged p => with_commands merged (commands merged ++ commands p))
      paths acc
    = with_commands acc (commands acc ++ List.concat (map commands paths)).
Proof.
  induction paths as [|p paths IH]; intro acc; simpl.
  - rewrite app_nil_r. now destruct acc.
  - rewrite IH. unfold with_commands. simpl. now rewrite <- app_assoc.
Qed.

Lemma merge_commands (paths : list (IconPath num)) (w hgt : num) :
  merge paths w hgt
  = {| width := w; height := hgt; commands := List.concat (map commands paths) |}.
Proof. unfold merge. rewrite merge_loop. reflexivity. Qed.

Lemma mapCoords_merge (fn : num -> num -> Point num)
  (paths : list (IconPath num)) (w hgt : num) :
  _mapCoords fn (merge paths w hgt) = merge (map (_mapCoords fn) paths) w hgt.
Proof.
  rewrite !merge_commands. unfold _mapCoords, with_commands. simpl. f_equal.
  rewrite concat_map, !map_map. reflexivity.
Qed.

(** X13: [merge] puts the commands of the paths one after the other, in
    the order of the paths, under the given width and height; and the
    point-by-point transforms can be applied before or after merging:
    translating, scaling about a given center, rotating about a given
    center or flipping the merged path gives the path merged from the
    translated, scaled, rotated or flipped paths. *)
Theorem merge_then_transform (paths : list (IconPath num)) (w hgt : num) :
  commands (merge paths w hgt) = List.concat (map commands paths)
  /\ width (merge paths w hgt) = w
  /\ height (merge paths w hgt) = hgt
  /\ (forall dx dy : num,
        translate dx dy (merge paths w hgt)
        = merge (map (translate dx dy) paths) w hgt)
  /\ (forall sx sy cx cy : num,
        scale sx sy cx cy (merge paths w hgt)
        = merge (map (scale sx sy cx cy) paths) w hgt)
  /\ (forall angle cx cy : num,
        rotate angle cx cy (merge paths w hgt)
        = merge (map (rotate angle cx cy) paths) w hgt)
  /\ (forall fw : num,
        flipX fw (merge paths w hgt) = merge (map (flipX fw) paths) w hgt)
  /\ (forall fh : num,
        flipY fh (merge paths w hgt) = merge (map (flipY fh) paths) w hgt).
Proof.
  rewrite merge_commands. simpl.
  repeat split; intros; rewrite <- merge_commands; apply mapCoords_merge.
Qed.

End MergeFacts.

(** ** Transforms composed, without rounding *)

Section ExactTransforms.

Context {num : Type} `{Arith num}.
Hypothesis exact : ExactArith num.
Implicit Types p : IconPath num.

Add Ring exact_num_ring : (exact_ring exact).

Lemma mapCoords_twice (f g k : num -> num -> Point num) p :
  (forall cmd : IconPathCommand num,
     mapCommand g (mapCommand f cmd) = mapCommand k cmd) ->
  _mapCoords g (_mapCoords f p) = _mapCoords k p.
Proof.
  intro Hk. unfold _mapCoords, with_commands. simpl. f_equal.
  rewrite map_map. now apply map_ext.
Qed.

Lemma mapCoords_fixes (f : num -> num -> Point num) p :
  (forall cmd : IconPathCommand num, mapCommand f cmd = cmd) ->
  _mapCoords f p = p.
Proof.
  intro Hf. unfold _mapCoords, with_commands. destruct p as [w hgt cmds]. simpl.
  f_equal. rewrite (map_ext _ (fun cmd => cmd) Hf). apply map_id.
Qed.

(** X14: without rounding, translations add up: translating by
    [(dx1, dy1)] and then by [(dx2, dy2)] is translating once by
    [(dx1 + dx2, dy1 + dy2)], and translating by [(0, 0)] changes
    nothing. *)
Theorem translate_composes (dx1 dy1 dx2 dy2 : num) p :
  translate dx2 dy2 (translate dx1 dy1 p) = translate (add dx1 dx2) (add dy1 dy2) p
  /\ translate (lit 0) (lit 0) p = p.
Proof.
  split.
  - unfold translate. apply mapCoords_twice.
    intro cmd; destruct cmd; simpl; f_equal; ring.
  - unfold translate. apply mapCoords_fixes.
    intro cmd; destruct cmd; simpl; f_equal; ring.
Qed.

(** X15: without rounding, flipping twice about the same width or height
    gives the path back; and a horizontal and a vertical flip can be
    applied in either order. *)
Theorem flips_involutive (w hgt : num) p :
  flipX w (flipX w p) = p
  /\ flipY hgt (flipY hgt p) = p
  /\ flipX w (flipY hgt p) = flipY hgt (flipX w p).
Proof.
  split; [|split].
  - unfold flipX.
    rewrite (@mapCoords_twice _ _ (fun x y => {| px := x; py := y |}) p).
    + apply mapCoords_fixes. intro cmd; destruct cmd; reflexivity.
    + intro cmd; destruct cmd; simpl; f_equal; ring.
  - unfold flipY.
    rewrite (@mapCoords_twice _ _ (fun x y => {| px := x; py := y |}) p).
    + apply mapCoords_fixes. intro cmd; destruct cmd; reflexivity.
    + intro cmd; destruct cmd; simpl; f_equal; ring.
  - unfold flipX, flipY.
    rewrite (@mapCoords_twice _ _ (fun x y => {| px := sub w x; py := sub hgt y |}) p)
      by (intro cmd; destruct cmd; reflexivity).
    rewrite (@mapCoords_twice _ _ (fun x y => {| px := sub w x; py := sub hgt y |}) p)
      by (intro cmd; destruct cmd; reflexivity).
    reflexivity.
Qed.

(** X16: without rounding, scalings about one center multiply: scaling
    by [(sx1, sy1)] and then by [(sx2, sy2)] about [(cx, cy)] is scaling
    once by [(sx1 * sx2, sy1 * sy2)] about it, and scaling by 1 changes
    nothing. *)
Theorem scale_composes (sx1 sy1 sx2 sy2 cx cy : num) p :
  scale sx2 sy2 cx cy (scale sx1 sy1 cx cy p)
  = scale (mul sx1 sx2) (mul sy1 sy2) cx cy p
  /\ scale (lit 1) (lit 1) cx cy p = p.
Proof.
  split.
  - unfold scale. apply mapCoords_twice.
    intro cmd; destruct cmd; simpl; f_equal; ring.
  - unfold scale. apply mapCoords_fixes.
    intro cmd; destruct cmd; simpl; f_equal; ring.
Qed.

End ExactTransforms.

Lemma translate_composes_witness :
  translate (lit 3) (lit 4) (translate (lit 1) (lit 2) Samples.trianglesQ)
  = translate (add (lit 1) (lit 3)) (add (lit 2) (lit 4)) Samples.trianglesQ.
Proof.
  exact (proj1 (@translate_composes Qc _ Qc_exact (lit 1) (lit 2) (lit 3) (lit 4)
                  Samples.trianglesQ)).
Defined.

Lemma flips_involutive_witness :
  flipX (lit 24) (flipX (lit 24) Samples.trianglesQ) = Samples.trianglesQ.
Proof.
  exact (proj1 (@flips_involutive Qc _ Qc_exact (lit 24) (lit 24) Samples.trianglesQ)).
Defined.

Lemma scale_composes_witness :
  scale (lit 1) (lit 1) (lit 12) (lit 12) Samples.trianglesQ = Samples.trianglesQ.
Proof.
  exact (proj2 (@scale_composes Qc _ Qc_exact (lit 2) (lit 2) (lit 3) (lit 3)
                  (lit 12) (lit 12) Samples.trianglesQ)).
Defined.

(** ** The signed area under translation and mirroring *)

Section AffineArea.

Context {num : Type} `{Arith num}.
Hypothesis exact : ExactArith num.
Implicit Types p : IconPath num.

Local Abbreviation Cmd := (IconPathCommand num).

Add Ring exact_area_ring : (exact_ring exact).

Lemma last_cons_default (A : Type) (b : A) (rest : list A) (a : A) :
  last (b :: rest) a = last rest b.
Proof.
  destruct rest as [|c r]; [reflexivity|].
  change (last (b :: c :: r) a) with (last (c :: r) a).
  apply last_indep. discriminate.
Qed.

(** Along a polyline the cross products of the mapped points telescope. *)
Lemma chain_affine (ax bx ay by_ : num) (pts : list (Point num)) :
  forall a : Point num,
    chain (map (affinePoint ax bx ay by_) (a :: pts))
    = add (mul (mul ax ay) (chain (a :: pts)))
        (sub (mul (mul bx ay) (sub (py (last pts a)) (py a)))
             (mul (mul ax by_) (sub (px (last pts a)) (px a)))).
Proof.
  induction pts as [|b rest IH]; intro a.
  - simpl. ring.
  - change (map (affinePoint ax bx ay by_) (a :: b :: rest))
      with (affinePoint ax bx ay by_ a :: map (affinePoint ax bx ay by_) (b :: rest)).
    change (chain (affinePoint ax bx ay by_ a
                     :: map (affinePoint ax bx ay by_) (b :: rest)))
      with (add (cross (affinePoint ax bx ay by_ a) (affinePoint ax bx ay by_ b))
              (chain (map (affinePoint ax bx ay by_) (b :: rest)))).
    rewrite IH.
    change (chain (a :: b :: rest)) with (add (cross a b) (chain (b :: rest))).
    rewrite (last_cons_default b rest a).
    unfold cross, affinePoint. simpl. ring.
Qed.

Lemma shoelace_affine (ax bx ay by_ : num) (pts : list (Point num)) :
  shoelace (map (affinePoint ax bx ay by_) pts) = mul (mul ax ay) (shoelace pts).
Proof.
  destruct pts as [|a rest].
  - unfold shoelace. simpl. ring.
  - rewrite (shoelace_chain exact (map (affinePoint ax bx ay by_) (a :: rest)) a).
    rewrite (shoelace_chain exact (a :: rest) a).
    simpl List.hd.
    change (map (affinePoint ax bx ay by_) (a :: rest) ++ [affinePoint ax bx ay by_ a])
      with (map (affinePoint ax bx ay by_) (a :: rest)
            ++ map (affinePoint ax bx ay by_) [a]).
    rewrite <- map_app.
    change ((a :: rest) ++ [a]) with (a :: (rest ++ [a])).
    rewrite chain_affine, last_last. ring.
Qed.

(** The area points of a mapped command list, when [fn] acts as an
    affine map on each axis. *)
Lemma areaPoints_mapCommand (hgt ax bx ay by_ : num) (fn : num -> num -> Point num)
  (subp : list Cmd) :
  (forall x y : num,
     {| px := px (fn x y); py := sub hgt (py (fn x y)) |}
     = affinePoint ax bx ay by_ {| px := x; py := sub hgt y |}) ->
  areaPoints hgt (map (mapCommand fn) subp)
  = map (affinePoint ax bx ay by_) (areaPoints hgt subp).
Proof.
  intro Hfn. induction subp as [|cmd rest IH]; [reflexivity|].
  destruct cmd; simpl; rewrite ?IH; try reflexivity; now rewrite Hfn.
Qed.

End AffineArea.

Section ExactAreaTransforms.

Context {num : Type} `{Arith num}.
Hypothesis exact : ExactArith num.
Implicit Types p : IconPath num.

Add Ring exact_area_ring2 : (exact_ring exact).

Lemma area_mapCoords (ax bx ay by_ : num) (fn : num -> num -> Point num) p :
  (forall x y : num,
     {| px := px (fn x y); py := sub (height p) (py (fn x y)) |}
     = affinePoint ax bx ay by_ {| px := x; py := sub (height p) y |}) ->
  shoelace (areaPoints (height p) (commands (_mapCoords fn p)))
  = mul (mul ax ay) (shoelace (areaPoints (height p) (commands p))).
Proof.
  intro Hfn. unfold _mapCoords. simpl commands.
  rewrite (areaPoints_mapCommand (height p) fn (commands p) Hfn).
  apply (shoelace_affine exact).
Qed.

(** X17: without rounding, the signed font-space area of a path's
    commands, and with it the winding [getNormalizedWindingForFont]
    observes, does not change when the path is translated, and changes
    sign when the path is flipped horizontally or vertically: the flipped
    path is clockwise exactly when the path has positive area. *)
Theorem area_under_transforms (dx dy w fh : num) p :
  let area := fun q : IconPath num => getSignedAreaFontSpace (height p) (commands q) in
  let clockwise := fun q : IconPath num => isCW (height p) (commands q) in
  area (translate dx dy p) = area p
  /\ clockwise (translate dx dy p) = clockwise p
  /\ area (flipX w p) = neg (area p)
  /\ area (flipY fh p) = neg (area p)
  /\ clockwise (flipX w p) = lt (lit 0) (area p)
  /\ clockwise (flipY fh p) = lt (lit 0) (area p).
Proof.
  intros area clockwise. subst area clockwise. cbv beta.
  assert (Ht : getSignedAreaFontSpace (height p) (commands (translate dx dy p))
               = getSignedAreaFontSpace (height p) (commands p)).
  { unfold getSignedAreaFontSpace, translate.
    rewrite (@area_mapCoords (lit 1) dx (lit 1) (neg dy)).
    - f_equal. ring.
    - intros x y. unfold affinePoint. simpl. f_equal; ring. }
  assert (Hx : getSignedAreaFontSpace (height p) (commands (flipX w p))
               = neg (getSignedAreaFontSpace (height p) (commands p))).
  { unfold getSignedAreaFontSpace, flipX.
    rewrite (@area_mapCoords (neg (lit 1)) w (lit 1) (lit 0)).
    - rewrite <- (exact_div_neg exact). f_equal. ring.
    - intros x y. unfold affinePoint. simpl. f_equal; ring. }
  assert (Hy : getSignedAreaFontSpace (height p) (commands (flipY fh p))
               = neg (getSignedAreaFontSpace (height p) (commands p))).
  { unfold getSignedAreaFontSpace, flipY.
    rewrite (@area_mapCoords (lit 1) (lit 0) (neg (lit 1))
               (sub (add (height p) (height p)) fh)).
    - rewrite <- (exact_div_neg exact). f_equal. ring.
    - intros x y. unfold affinePoint. simpl. f_equal; ring. }
  repeat split; try assumption; unfold isCW.
  - now rewrite Ht.
  - rewrite Hx. apply (lt_neg_zero exact).
  - rewrite Hy. apply (lt_neg_zero exact).
Qed.

End ExactAreaTransforms.

Lemma area_under_transforms_witness :
  getSignedAreaFontSpace (height Samples.trianglesQ)
    (commands (translate (lit 3) (lit 4) Samples.trianglesQ))
  = getSignedAreaFontSpace (height Samples.trianglesQ) (commands Samples.trianglesQ).
Proof.
  exact (proj1 (@area_under_transforms Qc _ Qc_exact (lit 3) (lit 4) (lit 24) (lit 24)
                  Samples.trianglesQ)).
Defined.

(** ** Alignment to the ascender and to the descender *)

Section AlignmentFacts.

Context {num : Type} `{JSNumber num}.
Implicit Types p : IconPath num.


End AlignmentFacts.


(** The stroke from (3,2) to (3,12) of a 24 by 24 path, aligned to the
    descender, to the ascender and to the middle of the em. *)
Example alignToFont_stroke :
  commands (alignToFont 800%float (-200)%float AlignDescender
              (translate 3%float 2%float Samples.stroke))
  = [MoveCommand 3%float 14%float; LineCommand 3%float 24%float]
  /\ commands (alignToFont 800%float (-200)%float AlignAscender
                 (translate 3%float 2%float Samples.stroke))
     = [MoveCommand 3%float 0%float; LineCommand 3%float 10%float]
  /\ commands (alignToFont 800%float (-200)%float AlignCenter
                 (translate 3%float 2%float Samples.stroke))
     = [MoveCommand 3%float 7%float; LineCommand 3%float 17%float].
Proof. repeat split; vm_compute; reflexivity. Qed.

(** ** Blank textual input *)

Section BlankInput.

Context {num : Type} `{Arith num} {J : JSNumber num} {JM : JSMath num}.
Implicit Types p : IconPath num.

(** X19: an input that is empty or holds white space only is refused by
    every textual operation: each throws, naming the input in its
    message, and leaves the path as it was; so an input an operation
    takes is never blank. *)
Theorem blank_input_rejected (op : TextualOp) (coords : string) p :
  (JSString.trim (list_ascii_of_string coords) = [] ->
   exists prefix : string, runTextual op coords p = Threw (message prefix coords) p)
  /\ (forall p' : IconPath num,
        runTextual op coords p = Returned p' ->
        JSString.trim (list_ascii_of_string coords) <> []).
Proof.
  assert (Hblank : JSString.trim (list_ascii_of_string coords) = [] ->
                   exists prefix : string,
                     runTextual op coords p = Threw (message prefix coords) p).
  { intro Hb.
    destruct op; unfold runTextual, ms, ls, qs, cs, ts, ss, as_, spaceParts, parts;
      rewrite Hb; simpl; eexists; reflexivity. }
  split; [exact Hblank|].
  intros p' Hr Hb. destruct (Hblank Hb) as [prefix Ht].
  rewrite Hr in Ht. discriminate.
Qed.

End BlankInput.

(** White space of several kinds, given to [ms] and to [qs]. *)
Example blank_inputs_thrown :
  let blank := String (ascii_of_nat 32) (String (ascii_of_nat 9) " ") in
  ms blank (newIconPath 24%float 24%float)
  = Threw (message "Invalid coordinates string: " blank) (newIconPath 24%float 24%float)
  /\ qs blank (newIconPath 24%float 24%float)
     = Threw (message "Invalid coordinates string for Q: " blank)
         (newIconPath 24%float 24%float).
Proof. split; vm_compute; reflexivity. Qed.

(** ** Nothing is lost in projection *)

Section ProjectionKeeps.

Context {num : Type} `{JSNumber num}.
Implicit Types p : IconPath num.

Lemma projectCommand_types (fx fy : num -> num) (cmds : list (IconPathCommand num)) :
  forallb isOpenType cmds = true ->
  map cmd_type (flat_map (projectCommand fx fy) cmds) = map cmd_type cmds.
Proof.
  induction cmds as [|cmd rest IH]; intro Hc; [reflexivity|].
  simpl in Hc. apply andb_prop in Hc. destruct Hc as [Hcmd Hrest].
  simpl flat_map. rewrite map_app, (IH Hrest).
  destruct cmd; try discriminate; reflexivity.
Qed.

(** X20: [toOpenTypePath] hands on every command of the normalized
    outline: in either version of the projector, the projected outline
    has one draw instruction for each command
    [getNormalizedWindingForFont(true)] returns, of the same type and in
    the same order. *)
Theorem toOpenTypePath_keeps_commands (ascender descender : num) p :
  map cmd_type (toOpenTypePath ascender descender p)
  = map cmd_type (getNormalizedWindingForFont true p)
  /\ map cmd_type (toOpenTypePath_anchored ascender descender p)
     = map cmd_type (getNormalizedWindingForFont true p).
Proof.
  destruct (getNormalizedWindingForFont_split true p) as [Hc _].
  split; unfold toOpenTypePath, toOpenTypePath_anchored; cbv zeta;
    now apply projectCommand_types.
Qed.

End ProjectionKeeps.

(** ** The order of binary64 numbers *)

Section FloatOrder.

Lemma SFltb_irrefl (f : spec_float) : SFltb f f = false.
Proof.
  unfold SFltb, SFcompare.
  destruct f as [s|s| |s m e]; try destruct s; try reflexivity;
    rewrite Z.compare_refl;
    change (Pcompare m m Eq) with (Pos.compare m m);
    now rewrite Pos.compare_refl.
Qed.

Lemma SFltb_trans (f1 f2 f3 : spec_float) :
  SFltb f1 f2 = true -> SFltb f2 f3 = true -> SFltb f1 f3 = true.
Proof.
  unfold SFltb, SFcompare.
  destruct f1 as [s1|s1| |s1 m1 e1]; destruct f2 as [s2|s2| |s2 m2 e2];
    destruct f3 as [s3|s3| |s3 m3 e3];
    try destruct s1; try destruct s2; try destruct s3;
    try discriminate; try reflexivity;
    change (Pcompare m1 m2 Eq) with (Pos.compare m1 m2);
    change (Pcompare m2 m3 Eq) with (Pos.compare m2 m3);
    change (Pcompare m1 m3 Eq) with (Pos.compare m1 m3);
    destruct (Z.compare_spec e1 e2); destruct (Z.compare_spec e2 e3);
    destruct (Z.compare_spec e1 e3);
    try discriminate; try reflexivity; try lia;
    destruct (Pos.compare_spec m1 m2); destruct (Pos.compare_spec m2 m3);
    destruct (Pos.compare_spec m1 m3);
    simpl; try discriminate; try reflexivity; try lia.
Qed.

Lemma float_lt_irrefl (x : float) : lt x x = false.
Proof. simpl. rewrite ltb_spec. apply SFltb_irrefl. Qed.

Lemma float_lt_trans (x y z : float) :
  lt x y = true -> lt y z = true -> lt x z = true.
Proof. simpl. rewrite !ltb_spec. apply SFltb_trans. Qed.

End FloatOrder.

(** ** The bounding box holds every coordinate *)

Section BoundsFacts.

Context {num : Type} `{JSNumber num}.
Hypothesis lt_irrefl : forall x : num, lt x x = false.
Hypothesis lt_trans :
  forall x y z : num, lt x y = true -> lt y z = true -> lt x z = true.
Implicit Types p : IconPath num.

Lemma widen_within (mm : num * num) (x : num) (seen : list num) :
  within mm seen -> within (widen mm x) (seen ++ [x]).
Proof.
  destruct mm as [mn mx]. unfold within, widen, gt. simpl. intro Hs.
  apply Forall_app. split.
  - eapply Forall_impl; [|exact Hs]. simpl. intros a [Hlo Hhi]. split.
    + destruct (lt x mn) eqn:E; [|exact Hlo].
      destruct (lt a x) eqn:Ea; [|reflexivity].
      rewrite (lt_trans _ _ _ Ea E) in Hlo. discriminate.
    + destruct (lt mx x) eqn:E; [|exact Hhi].
      destruct (lt x a) eqn:Ea; [|reflexivity].
      rewrite (lt_trans _ _ _ E Ea) in Hhi. discriminate.
  - constructor; [|constructor]. split.
    + destruct (lt x mn) eqn:E; [apply lt_irrefl|exact E].
    + destruct (lt mx x) eqn:E; [apply lt_irrefl|exact E].
Qed.

Lemma fold_widen_within (xs : list num) :
  forall (mm : num * num) (seen : list num),
    within mm seen -> within (fold_left widen xs mm) (seen ++ xs).
Proof.
  induction xs as [|x xs IH]; intros mm seen Hs; simpl.
  - now rewrite app_nil_r.
  - replace (seen ++ x :: xs) with ((seen ++ [x]) ++ xs)
      by (now rewrite <- app_assoc).
    apply IH. now apply widen_within.
Qed.

End BoundsFacts.

Section BoundsShape.

Context {num : Type} `{JSNumber num}.
Implicit Types p : IconPath num.

(** Each bound is the one before or a coordinate met. *)
Lemma fold_widen_in (xs : list num) :
  forall mm : num * num,
    In (fst (fold_left widen xs mm)) (fst mm :: xs)
    /\ In (snd (fold_left widen xs mm)) (snd mm :: xs).
Proof.
  induction xs as [|x xs IH]; intro mm; simpl.
  - split; now left.
  - destruct (IH (widen mm x)) as [Hlo Hhi]. destruct mm as [mn mx].
    unfold widen in Hlo, Hhi. simpl in Hlo, Hhi. simpl fst. simpl snd.
    unfold widen. split.
    + destruct Hlo as [Hlo|Hlo]; [|now right; right].
      rewrite <- Hlo. destruct (lt x mn); [right; now left | now left].
    + destruct Hhi as [Hhi|Hhi]; [|now right; right].
      rewrite <- Hhi. destruct (gt x mx); [right; now left | now left].
Qed.

(** The loop of [getCommandBounds], axis by axis. *)
Lemma boundsLoop_axes (cmds : list (IconPathCommand num)) :
  forall b : IconPathBounds num,
    let b' := fold_left boundsStep cmds b in
    (minX b', maxX b') = fold_left widen (flat_map cmd_xs cmds) (minX b, maxX b)
    /\ (minY b', maxY b') = fold_left widen (flat_map cmd_ys cmds) (minY b, maxY b).
Proof.
  induction cmds as [|cmd rest IH]; intro b; simpl; [now split|].
  rewrite !fold_left_app. destruct (IH (boundsStep b cmd)) as [Hx Hy].
  cbv zeta in Hx, Hy. rewrite Hx, Hy. unfold boundsStep.
  destruct (fold_left widen (cmd_xs cmd) (minX b, maxX b)) as [mnX mxX].
  destruct (fold_left widen (cmd_ys cmd) (minY b, maxY b)) as [mnY mxY].
  now split.
Qed.

End BoundsShape.

(** X23: in the program's arithmetic, NaN included, the box
    [getCommandBounds] returns holds every coordinate of the path: no [x]
    field ([x], [x1], [x2]) of a command is below [minX] or above [maxX],
    and no [y] field is below [minY] or above [maxY].  Each bound is
    attained: [minX] and [maxX] are [x] fields of the path, or [Infinity]
    and [-Infinity] as for a path without any, and so for [minY] and
    [maxY]. *)
Theorem getCommandBounds_encloses (p : IconPath float) :
  let b := getCommandBounds p in
  let xs := flat_map cmd_xs (commands p) in
  let ys := flat_map cmd_ys (commands p) in
  Forall (fun x => lt x (minX b) = false /\ lt (maxX b) x = false) xs
  /\ Forall (fun y => lt y (minY b) = false /\ lt (maxY b) y = false) ys
  /\ In (minX b) (Infinity :: xs) /\ In (maxX b) (neg Infinity :: xs)
  /\ In (minY b) (Infinity :: ys) /\ In (maxY b) (neg Infinity :: ys).
Proof.
  intros b xs ys. subst b xs ys. unfold getCommandBounds.
  destruct (boundsLoop_axes (commands p) emptyBounds) as [Hx Hy].
  cbv zeta in Hx, Hy.
  pose proof (@fold_widen_within float _ float_lt_irrefl float_lt_trans
                (flat_map cmd_xs (commands p))
                (minX emptyBounds, maxX emptyBounds) [] (Forall_nil _)) as Wx.
  pose proof (@fold_widen_within float _ float_lt_irrefl float_lt_trans
                (flat_map cmd_ys (commands p))
                (minY emptyBounds, maxY emptyBounds) [] (Forall_nil _)) as Wy.
  destruct (fold_widen_in (flat_map cmd_xs (commands p))
              (minX emptyBounds, maxX emptyBounds)) as [Ix1 Ix2].
  destruct (fold_widen_in (flat_map cmd_ys (commands p))
              (minY emptyBounds, maxY emptyBounds)) as [Iy1 Iy2].
  rewrite <- Hx in Wx, Ix1, Ix2. rewrite <- Hy in Wy, Iy1, Iy2.
  repeat split; assumption.
Qed.

(** A path with a coordinate that is not a number: the box still holds
    the others. *)
Example getCommandBounds_with_NaN :
  getCommandBounds
    (Samples.path24 [MoveCommand 1 2; LineCommand PrimFloat.nan 5;
                     LineCommand 3 PrimFloat.nan])%float
  = {| minX := 1; minY := 2; maxX := 3; maxY := 5 |}%float.
Proof. vm_compute. reflexivity. Qed.

(** ** The current point and the pen of the canonicalizer *)

Section PenAgreement.

Context {num : Type} `{Arith num}.
Implicit Types p : IconPath num.

Local Abbreviation Cmd := (IconPathCommand num).

Lemma getCurrentPoint_pen (cmds : list Cmd) :
  forall w hgt : num,
    forallb (fun cmd => negb (isZ cmd)) cmds = true ->
    getCurrentPoint {| width := w; height := hgt; commands := cmds |}
    = {| px := penX (rev cmds); py := penY (rev cmds) |}.
Proof.
  induction cmds as [|cmd cmds IH] using rev_ind; intros w hgt Hz; [reflexivity|].
  rewrite forallb_app in Hz. apply andb_prop in Hz. destruct Hz as [Hz Hc].
  simpl in Hc. rewrite andb_true_r in Hc. apply negb_true_iff in Hc.
  change {| width := w; height := hgt; commands := cmds ++ [cmd] |}
    with (push cmd {| width := w; height := hgt; commands := cmds |}).
  rewrite (getCurrentPoint_push cmd _ Hc), (IH w hgt Hz).
  rewrite rev_app_distr. simpl. reflexivity.
Qed.

Lemma canonState_tracks (cmds : list Cmd) :
  forall (st : CanonState) (history : list Cmd),
    tracks st history -> tracks (canonState st cmds) (rev cmds ++ history).
Proof.
  induction cmds as [|cmd rest IH]; intros st history Ht; [exact Ht|].
  unfold canonState. simpl fold_left. fold (canonState (fst (canonStep st cmd)) rest).
  simpl rev. rewrite <- app_assoc. simpl app.
  apply IH. now apply canonStep_tracks.
Qed.

(** X24: on a path with no Close, [getCurrentPoint] is the point at which
    the loop of [getOpenTypeCommands] has its pen ([cx], [cy]) after the
    commands of the path: the two agree wherever no subpath has been
    closed. *)
Theorem getCurrentPoint_is_canonicalizer_pen p :
  forallb (fun cmd => negb (isZ cmd)) (commands p) = true ->
  getCurrentPoint p
  = {| px := cur_x (canonState canonInit (commands p));
       py := cur_y (canonState canonInit (commands p)) |}.
Proof.
  intro Hz.
  pose proof (canonState_tracks (commands p) tracks_init) as Ht.
  rewrite app_nil_r in Ht. destruct Ht as (Hx & Hy & _).
  rewrite Hx, Hy. destruct p as [w hgt cmds]. now apply getCurrentPoint_pen.
Qed.

End PenAgreement.

Lemma getCurrentPoint_is_canonicalizer_pen_witness :
  getCurrentPoint Samples.stroke
  = {| px := cur_x (canonState canonInit (commands Samples.stroke));
       py := cur_y (canonState canonInit (commands Samples.stroke)) |}.
Proof.
  apply (@getCurrentPoint_is_canonicalizer_pen float _ Samples.stroke). reflexivity.
Defined.

(** ** Rounding in binary64 *)

Section Binary64Rounding.

Import Binary64.

(** *** Rounding gives no zero *)

Lemma shr_1_m (mrs : shr_record) :
  (0 <= shr_m mrs)%Z -> shr_m (shr_1 mrs) = (shr_m mrs / 2)%Z.
Proof.
  destruct mrs as [m r s]. simpl shr_m. intro P.
  rewrite <- Z.div2_div.
  destruct m as [|[m|m|]|m]; try reflexivity. lia.
Qed.

Lemma iter_shr_1_m (n : positive) :
  forall mrs : shr_record,
    (0 <= shr_m mrs)%Z ->
    shr_m (@SpecFloat.iter_pos shr_record shr_1 n mrs) = (shr_m mrs / 2 ^ Zpos n)%Z.
Proof.
  induction n as [n IH|n IH|]; intros mrs P.
  - change (@SpecFloat.iter_pos shr_record shr_1 n~1 mrs)
      with (@SpecFloat.iter_pos shr_record shr_1 n
              (@SpecFloat.iter_pos shr_record shr_1 n (shr_1 mrs))).
    assert (P1 : (0 <= shr_m (shr_1 mrs))%Z)
      by (rewrite shr_1_m by exact P; apply Z.div_pos; lia).
    assert (P2 : (0 <= shr_m (@SpecFloat.iter_pos shr_record shr_1 n (shr_1 mrs)))%Z)
      by (rewrite IH by exact P1; apply Z.div_pos; [exact P1|];
          apply Z.pow_pos_nonneg; lia).
    rewrite IH, IH, shr_1_m by assumption.
    assert (Q : (0 < 2 ^ Zpos n)%Z) by (apply Z.pow_pos_nonneg; lia).
    rewrite !Z.div_div by lia. f_equal.
    replace (Zpos n~1) with (1 + (Zpos n + Zpos n))%Z by lia.
    rewrite !Z.pow_add_r by lia. lia.
  - change (@SpecFloat.iter_pos shr_record shr_1 n~0 mrs)
      with (@SpecFloat.iter_pos shr_record shr_1 n
              (@SpecFloat.iter_pos shr_record shr_1 n mrs)).
    assert (P2 : (0 <= shr_m (@SpecFloat.iter_pos shr_record shr_1 n mrs))%Z)
      by (rewrite IH by exact P; apply Z.div_pos; [exact P|];
          apply Z.pow_pos_nonneg; lia).
    rewrite IH, IH by assumption.
    assert (Q : (0 < 2 ^ Zpos n)%Z) by (apply Z.pow_pos_nonneg; lia).
    rewrite !Z.div_div by lia. f_equal.
    replace (Zpos n~0) with (Zpos n + Zpos n)%Z by lia.
    rewrite !Z.pow_add_r by lia. lia.
  - change (@SpecFloat.iter_pos shr_record shr_1 1 mrs) with (shr_1 mrs).
    rewrite shr_1_m by exact P. reflexivity.
Qed.

Lemma shr_record_of_loc_m (m : Z) (l : location) :
  shr_m (shr_record_of_loc m l) = m.
Proof. destruct l as [|[]]; reflexivity. Qed.

(** Shifting a mantissa to its place leaves it positive. *)
Lemma shr_fexp_pos (m : positive) (e : Z) (l : location) :
  (- 1074 <= e)%Z ->
  (0 < shr_m (fst (shr_fexp prec emax (Zpos m) e l)))%Z
  /\ (- 1074 <= snd (shr_fexp prec emax (Zpos m) e l))%Z.
Proof.
  intro L. unfold shr_fexp, shr, fexp, emin, prec, emax, Zdigits2.
  rewrite digits2_pos_log2.
  destruct (Z.max (Z.log2 (Zpos m) + 1 + e - 53) (3 - 1024 - 53) - e)%Z
    as [|n|n] eqn:En; simpl fst; simpl snd;
    rewrite ?shr_record_of_loc_m; try (split; lia).
  rewrite iter_shr_1_m by (rewrite shr_record_of_loc_m; lia).
  rewrite shr_record_of_loc_m. split; [|lia].
  apply Z.div_str_pos. split; [apply Z.pow_pos_nonneg; lia|].
  destruct (Z.log2_spec (Zpos m) (eq_refl _)) as [Lo _].
  apply Z.le_trans with (2 ^ Z.log2 (Zpos m))%Z; [|exact Lo].
  apply Z.pow_le_mono_r; lia.
Qed.

Lemma round_nearest_even_pos (m : Z) (l : location) :
  (0 < m)%Z -> (0 < round_nearest_even m l)%Z.
Proof.
  intro P. unfold round_nearest_even.
  destruct l as [|[]]; try destruct (Z.even m); lia.
Qed.

Lemma binary_round_aux_rounded (s : bool) (m : positive) (e : Z) (l : location) :
  (- 1074 <= e)%Z -> isRounded (binary_round_aux prec emax s (Zpos m) e l).
Proof.
  intro L. unfold binary_round_aux.
  destruct (shr_fexp_pos m l L) as [P1 L1].
  destruct (shr_fexp prec emax (Zpos m) e l) as [mrs1 e1].
  simpl fst in P1. simpl snd in L1.
  pose proof (round_nearest_even_pos (loc_of_shr_record mrs1) P1) as P2.
  destruct (round_nearest_even (shr_m mrs1) (loc_of_shr_record mrs1))
    as [|m2|m2]; try lia.
  destruct (shr_fexp_pos m2 loc_Exact L1) as [P3 _].
  destruct (shr_fexp prec emax (Zpos m2) e1 loc_Exact) as [mrs2 e2].
  simpl fst in P3.
  destruct (shr_m mrs2) as [|m3|m3]; try lia.
  destruct (e2 <=? emax - prec)%Z; exact I.
Qed.

Lemma binary_round_rounded (s : bool) (m : positive) (e : Z) :
  (- 1074 <= e)%Z -> isRounded (binary_round prec emax s m e).
Proof.
  intro L. unfold binary_round.
  destruct (shl_align m e (fexp prec emax (Zpos (digits2_pos m) + e)))
    as [mz ez] eqn:Es.
  apply binary_round_aux_rounded.
  unfold shl_align, fexp, emin, prec, emax in Es.
  destruct (Z.max (Zpos (digits2_pos m) + e - 53) (3 - 1024 - 53) - e)%Z;
    injection Es as _ Ee; lia.
Qed.

(** The difference of two aligned mantissas rounds to zero only when it
    is zero. *)
Lemma binary_normalize_zero (z e : Z) (s : bool) :
  (- 1074 <= e)%Z ->
  binary_normalize prec emax z e false = S754_zero s -> z = 0%Z.
Proof.
  intros L E. destruct z as [|m|m]; [reflexivity| |]; simpl in E.
  - pose proof (binary_round_rounded false m L) as R. rewrite E in R. destruct R.
  - pose proof (binary_round_rounded true m L) as R. rewrite E in R. destruct R.
Qed.

End Binary64Rounding.

(** ** Equal numbers in binary64 *)

Section Binary64Equal.

Import Binary64.

Lemma isFinite_spec (x : float) : isFinite x = finiteSF (Prim2SF x).
Proof.
  unfold isFinite, valueOf. now destruct (Prim2SF x).
Qed.

Lemma SFeqb_refl (f : spec_float) : finiteSF f = true -> SFeqb f f = true.
Proof.
  destruct f as [s|s| |s m e]; try discriminate; intros _; [reflexivity|].
  apply SFeqb_refl_finite.
Qed.

(** Numbers equal to [===] are the same number or two zeros. *)
Lemma SFeqb_cases (f g : spec_float) :
  SFeqb f g = true -> finiteSF f = true ->
  f = g \/ (exists s s' : bool, f = S754_zero s /\ g = S754_zero s').
Proof.
  destruct f as [s|s| |s m e]; destruct g as [s'|s'| |s' m' e'];
    intros E Ff; try discriminate Ff;
    try (right; eauto; fail);
    try (exfalso; try destruct s; try destruct s'; discriminate E).
  left. unfold SFeqb, SFcompare in E.
  destruct s, s'; try discriminate;
    destruct (Z.compare_spec e e'); try discriminate; subst e';
    destruct (Pos.compare_cont Eq m m') eqn:Em; try discriminate;
    apply Pcompare_Eq_eq in Em; now subst m'.
Qed.

Lemma SFeqb_finite (f g : spec_float) :
  SFeqb f g = true -> finiteSF f = true -> finiteSF g = true.
Proof.
  intros E Ff. destruct (SFeqb_cases _ _ E Ff) as [<-|(s & s' & _ & ->)]; auto.
Qed.

Lemma SFeqb_sym (f g : spec_float) :
  SFeqb f g = true -> finiteSF f = true -> SFeqb g f = true.
Proof.
  intros E Ff. destruct (SFeqb_cases _ _ E Ff) as [<-|(s & s' & -> & ->)];
    [exact E | reflexivity].
Qed.

Lemma SFeqb_trans (f g h : spec_float) :
  SFeqb f g = true -> SFeqb g h = true -> finiteSF f = true -> SFeqb f h = true.
Proof.
  intros E1 E2 Ff.
  pose proof (SFeqb_finite _ _ E1 Ff) as Fg.
  destruct (SFeqb_cases _ _ E1 Ff) as [<-|(s & s' & -> & ->)]; [exact E2|].
  destruct (SFeqb_cases _ _ E2 Fg) as [<-|(t & t' & _ & ->)]; reflexivity.
Qed.

Lemma SFcompare_antisym (f g : spec_float) (c : comparison) :
  SFcompare f g = Some c -> SFcompare g f = Some (CompOpp c).
Proof.
  destruct f as [s|s| |s m e]; destruct g as [s'|s'| |s' m' e'];
    try destruct s; try destruct s'; simpl; intro E;
    try discriminate; injection E as E; subst c; try reflexivity;
    rewrite (Z.compare_antisym e e'); destruct (e ?= e')%Z; simpl;
    try reflexivity;
    rewrite (Pos.compare_cont_antisym m m' Eq); reflexivity.
Qed.

(** A number that is neither below nor above two bounds that are equal
    is equal to them. *)
Lemma SF_between (x mn mx : spec_float) :
  finiteSF x = true -> finiteSF mx = true ->
  SFltb x mn = false -> SFltb mx x = false -> SFeqb mx mn = true ->
  SFeqb x mn = true.
Proof.
  intros Fx Fm Lo Hi E.
  assert (Hi' : SFltb mn x = false).
  { destruct (SFeqb_cases _ _ E Fm) as [<-|(s & s' & -> & ->)]; [exact Hi|].
    destruct x as [t|t| |t m e]; try discriminate; exact Hi. }
  pose proof (SFeqb_finite _ _ E Fm) as Fn.
  unfold SFltb in Lo, Hi'. unfold SFeqb.
  destruct (SFcompare x mn) as [[]|] eqn:Ec; try reflexivity; try discriminate.
  - rewrite (SFcompare_antisym _ _ Ec) in Hi'. discriminate.
  - destruct x as [t|t| |t m e]; destruct mn as [u|u| |u m' e'];
      discriminate.
Qed.

(** *** Sums and differences of equal numbers *)

Lemma iter_xO (m d : positive) :
  Zpos (Pos.iter xO m d) = (Zpos m * 2 ^ Zpos d)%Z.
Proof.
  induction d as [|d IH] using Pos.peano_ind.
  - simpl. lia.
  - rewrite Pos.iter_succ, Pos2Z.inj_succ, Z.pow_succ_r by lia.
    rewrite Pos2Z.inj_xO, IH. lia.
Qed.

Lemma shl_align_value (m : positive) (e ez : Z) :
  (ez <= e)%Z -> Zpos (fst (shl_align m e ez)) = (Zpos m * 2 ^ (e - ez))%Z.
Proof.
  intro L. unfold shl_align.
  destruct (ez - e)%Z as [|d|d] eqn:Ed; simpl fst; try lia.
  - replace (e - ez)%Z with 0%Z by lia. lia.
  - rewrite iter_xO. f_equal. f_equal. lia.
Qed.

Lemma SFsub_zero (f g : spec_float) :
  valid_binary f = true -> valid_binary g = true ->
  SFeqb (SF64sub f g) (S754_zero false) = true ->
  SFeqb f g = true /\ finiteSF f = true /\ finiteSF g = true.
Proof.
  intros Vf Vg E.
  destruct f as [s|s| |s m e]; destruct g as [s'|s'| |s' m' e'];
    try (destruct s, s'; discriminate);
    try (destruct s; discriminate); try (destruct s'; discriminate);
    try discriminate.
  - repeat split.
  - unfold SF64sub, SFsub in E.
    destruct (valid_finite _ _ _ Vf) as [Le _].
    destruct (valid_finite _ _ _ Vg) as [Le' _].
    remember (Z.min e e') as ez eqn:Hez.
    destruct (binary_normalize prec emax _ ez false) as [t|t| |t mt et] eqn:En;
      try (destruct t; discriminate); try discriminate.
    apply binary_normalize_zero in En; [|lia].
    rewrite !shl_align_value in En by lia.
    assert (P : (0 < Zpos m * 2 ^ (e - ez))%Z)
      by (apply Z.mul_pos_pos; [lia | apply Z.pow_pos_nonneg; lia]).
    assert (P' : (0 < Zpos m' * 2 ^ (e' - ez))%Z)
      by (apply Z.mul_pos_pos; [lia | apply Z.pow_pos_nonneg; lia]).
    assert (Es : s = s')
      by (destruct s, s'; unfold cond_Zopp in En; try reflexivity; lia).
    subst s'.
    assert (Em : (Zpos m * 2 ^ (e - ez) = Zpos m' * 2 ^ (e' - ez))%Z)
      by (destruct s; unfold cond_Zopp in En; lia).
    assert (Q : (2 ^ (e + 1074) = 2 ^ (e - ez) * 2 ^ (ez + 1074))%Z)
      by (rewrite <- Z.pow_add_r by lia; f_equal; lia).
    assert (Q' : (2 ^ (e' + 1074) = 2 ^ (e' - ez) * 2 ^ (ez + 1074))%Z)
      by (rewrite <- Z.pow_add_r by lia; f_equal; lia).
    assert (Em' : (Zpos m * 2 ^ (e + 1074) = Zpos m' * 2 ^ (e' + 1074))%Z)
      by (rewrite Q, Q', !Z.mul_assoc, Em; reflexivity).
    destruct (@finite_canonical s s _ _ _ _ Vf Vg Em') as [-> ->].
    split; [apply SFeqb_refl_finite | split; reflexivity].
Qed.

Lemma SFsub_same (f g : spec_float) :
  finiteSF f = true -> SFeqb f g = true ->
  SFeqb (SF64sub f g) (S754_zero false) = true.
Proof.
  intros Ff E. destruct (SFeqb_cases _ _ E Ff) as [<-|(s & s' & -> & ->)].
  - destruct f as [s|s| |s m e]; try discriminate.
    + now destruct s.
    + unfold SF64sub, SFsub. rewrite Z.sub_diag. reflexivity.
  - now destruct s, s'.
Qed.

Lemma SFadd_finite (f d : spec_float) :
  finiteSF (SF64add f d) = true -> finiteSF f = true /\ finiteSF d = true.
Proof.
  destruct f as [s|s| |s m e]; destruct d as [s'|s'| |s' m' e'];
    try destruct s; try destruct s'; simpl; intro E;
    try discriminate; split; reflexivity.
Qed.

Lemma SFadd_same (f g d : spec_float) :
  SFeqb f g = true -> finiteSF (SF64add f d) = true ->
  SFeqb (SF64add f d) (SF64add g d) = true.
Proof.
  intros E Fa. destruct (SFadd_finite _ _ Fa) as [Ff Fd].
  destruct (SFeqb_cases _ _ E Ff) as [<-|(s & s' & -> & ->)].
  - now apply SFeqb_refl.
  - destruct d as [t|t| |t m e]; try discriminate.
    + now destruct s, s', t.
    + apply SFeqb_refl_finite.
Qed.

End Binary64Equal.

(** ** [fit] on a flat path, in binary64 *)

Section Binary64Fit.

Import Binary64 Binary64Path.

Implicit Types p : IconPath float.

Lemma isFinite_Infinity :
  isFinite Infinity = false /\ isFinite (neg Infinity) = false.
Proof. split; reflexivity. Qed.

Lemma finite_lt_Infinity (x : float) :
  isFinite x = true -> lt x Infinity = true /\ lt (neg Infinity) x = true.
Proof.
  rewrite isFinite_spec. simpl lt. rewrite !ltb_spec.
  change (Prim2SF Infinity) with (S754_infinity false).
  change (Prim2SF (neg Infinity)) with (S754_infinity true).
  destruct (Prim2SF x) as [s|s| |s m e]; try discriminate; intros _;
    split; reflexivity.
Qed.

Lemma finite_not_NaN (x : float) : isFinite x = true -> isNaN x = false.
Proof.
  rewrite isFinite_spec. simpl isNaN. unfold PrimFloat.is_nan.
  rewrite FloatAxioms.eqb_spec. intro Fx. now rewrite SFeqb_refl.
Qed.

(** The bounds of a list of numbers that are all equal and finite are
    equal to them. *)
Lemma flat_axis_bounds (ys : list float) (c : float) :
  ys <> [] ->
  Forall (fun y => isFinite y = true /\ strict_eq y c = true) ys ->
  let mm := fold_left widen ys (Infinity, neg Infinity) in
  strict_eq (sub (snd mm) (fst mm)) (lit 0) = true.
Proof.
  intros Hne Hall mm.
  pose proof (@fold_widen_within float _ float_lt_irrefl float_lt_trans ys
                (Infinity, neg Infinity) [] (Forall_nil _)) as W.
  destruct (fold_widen_in ys (Infinity, neg Infinity)) as [Ilo Ihi].
  fold mm in W, Ilo, Ihi. simpl app in W. simpl fst in Ilo. simpl snd in Ihi.
  destruct ys as [|y0 rest]; [congruence|].
  pose proof (Forall_inv W) as [Wlo Whi]. simpl in Wlo, Whi.
  pose proof (Forall_inv Hall) as [F0 _].
  destruct (finite_lt_Infinity _ F0) as [Linf Lninf].
  assert (Mn : In (fst mm) (y0 :: rest)).
  { destruct Ilo as [Ei|Ii]; [|exact Ii].
    rewrite <- Ei in Wlo. simpl in Wlo, Linf. congruence. }
  assert (Mx : In (snd mm) (y0 :: rest)).
  { destruct Ihi as [Ei|Ii]; [|exact Ii].
    rewrite <- Ei in Whi. simpl in Whi, Lninf. congruence. }
  rewrite Forall_forall in Hall.
  destruct (Hall _ Mn) as [Fn En]. destruct (Hall _ Mx) as [Fx Ex].
  rewrite isFinite_spec in Fn, Fx.
  simpl strict_eq in *. rewrite FloatAxioms.eqb_spec in *.
  simpl sub. rewrite sub_spec.
  change (Prim2SF (lit 0)) with (S754_zero false).
  apply SFsub_same; [exact Fx|].
  apply (SFeqb_trans _ _ _ Ex); [|exact Fx].
  apply SFeqb_sym; assumption.
Qed.

(** A flat axis stays flat under a translation that does not overflow. *)
Lemma flat_axis_translated (xs : list float) (d : float) :
  let mm := fold_left widen xs (Infinity, neg Infinity) in
  let mm' :=
    fold_left widen (map (fun x => add x d) xs) (Infinity, neg Infinity) in
  strict_eq (sub (snd mm) (fst mm)) (lit 0) = true ->
  forallb isFinite (map (fun x => add x d) xs) = true ->
  strict_eq (sub (snd mm') (fst mm')) (lit 0) = true.
Proof.
  intros mm mm' Hz Hf.
  pose proof (@fold_widen_within float _ float_lt_irrefl float_lt_trans xs
                (Infinity, neg Infinity) [] (Forall_nil _)) as W.
  destruct (fold_widen_in xs (Infinity, neg Infinity)) as [Ilo _].
  fold mm in W, Ilo. simpl app in W. simpl fst in Ilo.
  simpl strict_eq in Hz. simpl sub in Hz.
  rewrite FloatAxioms.eqb_spec, sub_spec in Hz.
  change (Prim2SF (lit 0)) with (S754_zero false) in Hz.
  destruct (SFsub_zero _ _ (Prim2SF_valid _) (Prim2SF_valid _) Hz)
    as (Eb & Fmx & Fmn).
  assert (Mn : In (fst mm) xs).
  { destruct Ilo as [Ei|Ii]; [|exact Ii].
    rewrite <- Ei in Fmn. discriminate. }
  rewrite forallb_forall in Hf.
  assert (Hx : forall x : float, In x xs ->
                 isFinite (add x d) = true /\ strict_eq x (fst mm) = true).
  { intros x Hin.
    assert (Fa : isFinite (add x d) = true) by (apply Hf; now apply (in_map (fun x0 : float => add x0 d))).
    split; [exact Fa|].
    rewrite isFinite_spec in Fa. simpl add in Fa. rewrite add_spec in Fa.
    destruct (SFadd_finite _ _ Fa) as [Fx _].
    unfold within in W. rewrite Forall_forall in W.
    destruct (W _ Hin) as [Wlo Whi]. simpl fst in Wlo. simpl snd in Whi.
    simpl lt in Wlo, Whi. rewrite ltb_spec in Wlo, Whi.
    simpl strict_eq. rewrite FloatAxioms.eqb_spec.
    now apply (SF_between _ _ _ Fx Fmx). }
  apply (@flat_axis_bounds _ (add (fst mm) d)).
  - destruct xs; [destruct Mn | discriminate].
  - apply Forall_forall. intros y Hy. apply in_map_iff in Hy as (x & <- & Hin).
    destruct (Hx _ Hin) as [Fa Ex]. split; [exact Fa|].
    simpl strict_eq in *. simpl add in *.
    rewrite FloatAxioms.eqb_spec in *. rewrite !add_spec.
    apply SFadd_same; [exact Ex|].
    rewrite <- add_spec, <- isFinite_spec. exact Fa.
Qed.

Lemma cmd_xs_translate (dx dy : float) (cmd : IconPathCommand float) :
  cmd_xs (mapCommand (fun x y => {| px := add x dx; py := add y dy |}) cmd)
  = map (fun x => add x dx) (cmd_xs cmd).
Proof. destruct cmd; reflexivity. Qed.

Lemma cmd_ys_translate (dx dy : float) (cmd : IconPathCommand float) :
  cmd_ys (mapCommand (fun x y => {| px := add x dx; py := add y dy |}) cmd)
  = map (fun y => add y dy) (cmd_ys cmd).
Proof. destruct cmd; reflexivity. Qed.

Lemma allXs_translate (dx dy : float) p :
  allXs (translate dx dy p) = map (fun x => add x dx) (allXs p).
Proof.
  unfold allXs, translate, _mapCoords. simpl commands.
  induction (commands p) as [|cmd rest IH]; [reflexivity|].
  simpl. now rewrite map_app, cmd_xs_translate, IH.
Qed.

Lemma allYs_translate (dx dy : float) p :
  allYs (translate dx dy p) = map (fun y => add y dy) (allYs p).
Proof.
  unfold allYs, translate, _mapCoords. simpl commands.
  induction (commands p) as [|cmd rest IH]; [reflexivity|].
  simpl. now rewrite map_app, cmd_ys_translate, IH.
Qed.

Lemma getCommandBounds_axes p :
  (minX (getCommandBounds p), maxX (getCommandBounds p))
  = fold_left widen (allXs p) (Infinity, neg Infinity)
  /\ (minY (getCommandBounds p), maxY (getCommandBounds p))
     = fold_left widen (allYs p) (Infinity, neg Infinity).
Proof. exact (boundsLoop_axes (commands p) emptyBounds). Qed.

(** A flat path is still flat once translated, when no coordinate
    overflows. *)
Lemma zeroExtent_translate (dx dy : float) p :
  zeroExtent p = true ->
  allFinite (translate dx dy p) = true ->
  zeroExtent (translate dx dy p) = true.
Proof.
  unfold zeroExtent, allFinite. intros Hz Hf.
  rewrite forallb_app in Hf. apply andb_true_iff in Hf as [Hfx Hfy].
  rewrite allXs_translate in Hfx. rewrite allYs_translate in Hfy.
  destruct (getCommandBounds_axes p) as [Ex Ey].
  destruct (getCommandBounds_axes (translate dx dy p)) as [Ex' Ey'].
  rewrite allXs_translate in Ex'. rewrite allYs_translate in Ey'.
  pose proof (flat_axis_translated (allXs p) dx) as Tx.
  pose proof (flat_axis_translated (allYs p) dy) as Ty.
  cbv zeta in Tx, Ty.
  rewrite <- Ex, <- Ex' in Tx. rewrite <- Ey, <- Ey' in Ty.
  simpl fst in Tx, Ty. simpl snd in Tx, Ty.
  apply orb_true_iff in Hz as [Hz|Hz]; apply orb_true_iff; [left|right]; auto.
Qed.

(** C4, as amended: in binary64, [fit] first centers the path in its
    design box; for a path whose bounding box has zero width or zero
    height, and whose coordinates are all finite once centered, it stops
    there: the result is the path translated by the centering offsets,
    the result of [center], never scaled, with the same command types,
    and no coordinate of it is NaN. *)
Theorem fit_zero_extent_only_centers (preserveAspect : bool) p :
  zeroExtent p = true ->
  allFinite (center_default p) = true ->
  fit preserveAspect p = center_default p
  /\ (exists dx dy : float, fit preserveAspect p = translate dx dy p)
  /\ commandTypes (fit preserveAspect p) = commandTypes p
  /\ hasNaN (fit preserveAspect p) = false.
Proof.
  intros Hz Hf.
  assert (Hc : zeroExtent (center_default p) = true)
    by (unfold center_default, center in *; now apply zeroExtent_translate).
  rewrite (fit_when_zeroExtent preserveAspect p Hc).
  split; [reflexivity | split; [|split]].
  - unfold center_default, center. eauto.
  - apply center_types.
  - unfold hasNaN, allFinite in *.
    destruct (existsb isNaN _) eqn:En; [|reflexivity].
    apply existsb_exists in En as (x & Hin & Hn).
    rewrite forallb_forall in Hf.
    rewrite (finite_not_NaN _ (Hf _ Hin)) in Hn. discriminate.
Qed.

End Binary64Fit.

Lemma fit_zero_extent_only_centers_witness :
  fit true Samples.stroke = center_default Samples.stroke
  /\ (exists dx dy : float, fit true Samples.stroke = translate dx dy Samples.stroke)
  /\ commandTypes (fit true Samples.stroke) = commandTypes Samples.stroke
  /\ Binary64Path.hasNaN (fit true Samples.stroke) = false.
Proof.
  apply (@fit_zero_extent_only_centers true Samples.stroke);
    vm_compute; reflexivity.
Defined.

(** A flat path with an infinite coordinate: [M 0 5 L Infinity 5] has a
    bounding box of zero height and no NaN, and [fit] gives the second
    point the x coordinate NaN. *)
Example fit_flat_path_yields_NaN :
  let p := Samples.path24 [MoveCommand 0 5; LineCommand infinity 5]%float in
  zeroExtent p = true
  /\ Binary64Path.hasNaN p = false
  /\ Binary64Path.hasNaN (fit true p) = true.
Proof. repeat split; vm_compute; reflexivity. Qed.

(** Finite coordinates are not enough when the centering overflows: in a
    design box as high as the largest number, the flat path
    [M 0 -max L 5 -max] is moved to [y = Infinity], its box is no longer
    flat, and the scaling gives NaN. *)
Example fit_flat_path_overflows :
  let big := 0x1.fffffffffffffp+1023%float in
  let p := {| width := 24%float; height := big;
              commands := [MoveCommand 0 (- big); LineCommand 5 (- big)]%float |} in
  zeroExtent p = true
  /\ Binary64Path.allFinite p = true
  /\ Binary64Path.hasNaN (fit true p) = true.
Proof. repeat split; vm_compute; reflexivity. Qed.
